(** * A Rocq model of the instrumentation core

    The classes of [src/feature1_memory/tracker.py] and
    [src/feature3_callgraph/builder.py] are embedded as functions over
    explicit state, one module per Python class:

    - [HashTableAllocator]: the identity-keyed allocation registry;
    - [GraphTraverser]: depth-bounded [dfs] and [bfs] over an object heap;
    - [UnionFind]: the disjoint-set forest with path compression and
      union by rank;
    - [MemoryTracker]: the allocator and the union-find registry driven
      together, with the per-frame statistics;
    - [CallGraphBuilder]: Kahn's topological sort and Tarjan's algorithm.

    Python dictionaries and sets are [gmap]s and [gset]s, Python integers
    are [Z], Python lists are lists in the same order, and exceptions are
    the [Raise] results of a small error monad.

    The interpreter's limit on the depth of recursion is part of the model
    where the depth grows with the input: [dfs] and [detect_cycles] take
    the number of nested calls the interpreter still admits, and
    [_dfs_helper] and [strongconnect] raise [RecursionError] when they
    would nest deeper.  [find] recurses along a path of parent links; such
    a path is at most as long as the binary logarithm of the number of
    registered elements, and no limit is modelled for it. *)

From Stdlib Require Import ZArith Lia.
From stdpp Require Import gmap strings list fin_maps fin_sets relations.

#[local] Set Warnings "-clear-no-such-hyp".
Local Open Scope Z_scope.

(** ** Exceptions

    [KeyError] is a failed dictionary subscript, [IndexError] a [pop] from
    an empty list, [RecursionError] a call that would nest deeper than the
    interpreter admits.  [OutOfFuel] is not a Python exception: [while]
    loops and the recursion of [find] are modelled with a step budget, and
    this result says the budget was too small.  The adequacy lemmas show
    it never happens with the budgets the top-level functions pass. *)

Inductive exn : Set := KeyError | IndexError | RecursionError | OutOfFuel.

Inductive result (A : Type) : Type :=
  | Ok (a : A)
  | Raise (e : exn).

Arguments Ok {A} a.
Arguments Raise {A} e.

#[global] Instance result_bind : MBind result := λ A B k m,
  match m with
  | Ok a => k a
  | Raise e => Raise e
  end.

#[global] Instance result_ret : MRet result := λ A a, Ok a.

(** A dictionary subscript [d[k]]. *)
Definition subscript `{Countable K} {V : Type} (d : gmap K V) (k : K) : result V :=
  match d !! k with
  | Some v => Ok v
  | None => Raise KeyError
  end.

(** A [for] loop whose body may raise: the first exception ends the loop. *)
Fixpoint for_each {A St : Type} (body : St → A → result St) (l : list A)
    (s : St) : result St :=
  match l with
  | [] => Ok s
  | x :: l' => s' ← body s x; for_each body l' s'
  end.

(** Methods that update an object and may raise: the object's state is
    threaded through, and it survives an exception as the exception left
    it. *)
Definition stateful (St A : Type) : Type := St → result A * St.

#[global] Instance stateful_bind {St} : MBind (stateful St) := λ A B k m s,
  match m s with
  | (Ok a, s') => k a s'
  | (Raise e, s') => (Raise e, s')
  end.

#[global] Instance stateful_ret {St} : MRet (stateful St) := λ A a s, (Ok a, s).

Definition raise {St A} (e : exn) : stateful St A := λ s, (Raise e, s).

(** ** [class HashTableAllocator]

    [id(obj)], [sys.getsizeof(obj)] and [time.time()] are readings of the
    environment; [track] receives them as arguments.  The clock reading is
    only stored, so its type is left abstract.  The stored ['object'] is a
    reference to the tracked object, represented by its identity. *)

Module HashTableAllocator.

Section WithClock.
Context {Time : Type}.

Record allocation : Type := Allocation {
  object : Z;
  size_of : Z;
  call_stack : list string;
  timestamp : Time
}.

Record t : Type := Make {
  allocations : gmap Z allocation;
  total_allocated : Z
}.

Record stats : Type := Stats {
  count : Z;
  total_bytes : Z;
  stats_total_allocated : Z
}.

Definition init : t :=
  {| allocations := ∅; total_allocated := 0 |}.

Definition track (obj_id : Z) (getsizeof : Z) (now : Time)
    (stack : list string) (self : t) : t :=
  {| allocations :=
       <[obj_id := {| object := obj_id; size_of := getsizeof;
                      call_stack := stack; timestamp := now |}]>
         (allocations self);
     total_allocated := total_allocated self + 1 |}.

Definition get_stats (self : t) : stats :=
  let total_size :=
    map_fold (λ _ a acc, acc + size_of a) 0 (allocations self) in
  {| count := Z.of_nat (size (allocations self));
     total_bytes := total_size;
     stats_total_allocated := total_allocated self |}.

End WithClock.

Arguments allocation : clear implicits.
Arguments t : clear implicits.

End HashTableAllocator.

(** ** [class GraphTraverser]

    An object is seen by the traversals through three tests, tried in this
    order: does it have a [__dict__], is it a [list] or [tuple], is it a
    [dict].  [pyobj] records what those tests can observe: the attribute
    dictionary when there is one, and the built-in shape.  References are
    object identities ([id(...)]); the heap maps an identity to the object
    that lives there, and an identity absent from the heap stands for an
    object without references (a number, a string, [None]). *)

Module GraphTraverser.

Inductive builtin : Type :=
  | PyList (items : list Z)
  | PyTuple (items : list Z)
  | PyDict (entries : list (Z * Z))
  | PyOther.

Record pyobj : Type := PyObj {
  dict_attr : option (list (string * Z));
  base : builtin
}.

(** The objects the [for] loops of [_dfs_helper] and [bfs] range over,
    following the [if]/[elif] chain of the source. *)
Definition obj_references (o : pyobj) : list Z :=
  match dict_attr o with
  | Some attrs => attrs.*2
  | None =>
      match base o with
      | PyList items => items
      | PyTuple items => items
      | PyDict entries => entries.*2
      | PyOther => []
      end
  end.

Definition references (heap : gmap Z pyobj) (current : Z) : list Z :=
  match heap !! current with
  | Some o => obj_references o
  | None => []
  end.

(** [_dfs_helper]: [visited] is the set shared by all recursive calls; it
    is threaded through them.  [frames] is the number of nested calls of
    the helper that the interpreter still admits: a call made when none is
    left raises [RecursionError], and a call that is admitted leaves one
    fewer to the calls it makes.  The built-in functions the helper calls
    are taken to use no frame (CPython counts them apart from version
    3.12 on).  The exception is not caught anywhere, so it ends the
    traversal. *)
Fixpoint _dfs_helper (frames : nat) (heap : gmap Z pyobj) (max_depth : Z)
    (current : Z) (depth : Z) (visited : gset Z) : result (gset Z) :=
  match frames with
  | O => Raise RecursionError
  | S frames' =>
      if bool_decide (depth > max_depth ∨ current ∈ visited) then Ok visited
      else
        for_each
          (λ visited attr_value,
             _dfs_helper frames' heap max_depth attr_value (depth + 1) visited)
          (references heap current)
          ({[current]} ∪ visited)
  end.

(** [dfs], called when the interpreter admits [frames] nested calls
    inside it: what the recursion limit leaves at the depth of the stack
    where [dfs] runs. *)
Definition dfs (frames : nat) (heap : gmap Z pyobj) (obj : Z) (max_depth : Z)
  : result (gset Z) :=
  _dfs_helper frames heap max_depth obj 0 ∅.

(** The body of the three [for] loops of [bfs]: an object not seen before
    is marked visited and enqueued one level below [current]. *)
Definition discover (depth : Z) (st : gset Z * list (Z * Z)) (child : Z)
  : gset Z * list (Z * Z) :=
  if decide (child ∈ st.1) then st
  else ({[child]} ∪ st.1, st.2 ++ [(child, depth + 1)]).

(** One iteration of the [while] loop, after [queue.pop(0)]. *)
Definition bfs_iteration (heap : gmap Z pyobj) (max_depth : Z)
    (current depth : Z) (st : gset Z * list (Z * Z)) : gset Z * list (Z * Z) :=
  if decide (depth >= max_depth) then st
  else foldl (discover depth) st (references heap current).

Fixpoint bfs_loop (fuel : nat) (heap : gmap Z pyobj) (max_depth : Z)
    (st : gset Z * list (Z * Z)) : result (gset Z) :=
  match st.2 with
  | [] => Ok st.1
  | (current, depth) :: queue =>
      match fuel with
      | O => Raise OutOfFuel
      | S fuel' =>
          bfs_loop fuel' heap max_depth
            (bfs_iteration heap max_depth current depth (st.1, queue))
      end
  end.

(** Every reference slot of the heap; an object enters the queue at most
    once, so the loop runs at most once per slot and once for the root. *)
Definition heap_references (heap : gmap Z pyobj) : list Z :=
  mjoin ((λ e, obj_references e.2) <$> map_to_list heap).

Definition bfs (heap : gmap Z pyobj) (obj : Z) (max_depth : Z) : result (gset Z) :=
  bfs_loop (S (length (heap_references heap))) heap max_depth
    ({[obj]}, [(obj, 0)]).

End GraphTraverser.

(** ** [class UnionFind]

    Elements are any hashable values; [parent] and [rank] are dictionaries.
    [find] and [union] update the forest and may raise, so they are
    [stateful].  [find] recurses along the parent links; [find_rec] carries
    the recursion budget and [find] passes one more than the number of
    registered elements. *)

Module UnionFind.

Section WithKey.
Context `{Countable K}.

Record t : Type := Make {
  parent : gmap K K;
  rank : gmap K Z
}.

Definition init : t := {| parent := ∅; rank := ∅ |}.

Definition make_set (x : K) (self : t) : t :=
  match parent self !! x with
  | None => {| parent := <[x := x]> (parent self);
               rank := <[x := 0]> (rank self) |}
  | Some _ => self
  end.

Definition read_parent (x : K) : stateful t K :=
  λ self, (subscript (parent self) x, self).

Definition read_rank (x : K) : stateful t Z :=
  λ self, (subscript (rank self) x, self).

Definition write_parent (x v : K) : stateful t () :=
  λ self, (Ok (), {| parent := <[x := v]> (parent self); rank := rank self |}).

Definition write_rank (x : K) (v : Z) : stateful t () :=
  λ self, (Ok (), {| parent := parent self; rank := <[x := v]> (rank self) |}).

Fixpoint find_rec (fuel : nat) (x : K) : stateful t K :=
  match fuel with
  | O => raise OutOfFuel
  | S fuel' =>
      p ← read_parent x;
      if decide (p ≠ x) then
        root ← find_rec fuel' p;
        _ ← write_parent x root;
        read_parent x
      else read_parent x
  end.

Definition find (x : K) : stateful t K :=
  λ self, find_rec (S (size (parent self))) x self.

Definition union (x y : K) : stateful t () :=
  root_x ← find x;
  root_y ← find y;
  if decide (root_x = root_y) then mret ()
  else
    rank_x ← read_rank root_x;
    rank_y ← read_rank root_y;
    if decide (rank_x < rank_y) then write_parent root_x root_y
    else if decide (rank_x > rank_y) then write_parent root_y root_x
    else
      _ ← write_parent root_y root_x;
      r ← read_rank root_x;
      write_rank root_x (r + 1).

End WithKey.

Arguments t K {_ _}.

End UnionFind.

(** ** [class MemoryTracker]

    The tracker owns an allocator, a traverser and a union-find registry.
    [GraphTraverser] has no fields, so the traverser is not part of the
    state.  [track] reads the interpreter's stack with
    [traceback.extract_stack()]; the reading, each line rendered by [str],
    is an argument, and the slice [[-3:-1]] is taken here. *)

Module MemoryTracker.

Section WithClock.
Context {Time : Type}.

(** One entry of [frame_data]: the dictionary with the keys ['frame'],
    ['allocations'] and ['bytes']. *)
Record frame : Type := Frame {
  frame_number : Z;
  frame_allocations : Z;
  frame_bytes : Z
}.

Record t : Type := Make {
  allocator : HashTableAllocator.t Time;
  union_find : UnionFind.t Z;
  frame_data : list frame;
  current_frame : Z
}.

Record metrics : Type := Metrics {
  frames : list frame;
  current_stats : HashTableAllocator.stats
}.

Definition init : t :=
  {| allocator := HashTableAllocator.init; union_find := UnionFind.init;
     frame_data := []; current_frame := 0 |}.

(** [extract_stack()[-3:-1]], on the lines already rendered by [str]. *)
Definition call_stack_slice (extract_stack : list string) : list string :=
  drop (length extract_stack - 3) (take (length extract_stack - 1) extract_stack).

Definition track (obj_id getsizeof : Z) (now : Time)
    (extract_stack : list string) (self : t) : t :=
  let call_stack := call_stack_slice extract_stack in
  {| allocator :=
       HashTableAllocator.track obj_id getsizeof now call_stack (allocator self);
     union_find := UnionFind.make_set obj_id (union_find self);
     frame_data := frame_data self;
     current_frame := current_frame self |}.

Definition next_frame (self : t) : t :=
  let current_frame := current_frame self + 1 in
  let stats := HashTableAllocator.get_stats (allocator self) in
  {| allocator := allocator self;
     union_find := union_find self;
     frame_data :=
       frame_data self
       ++ [{| frame_number := current_frame;
              frame_allocations := HashTableAllocator.count stats;
              frame_bytes := HashTableAllocator.total_bytes stats |}];
     current_frame := current_frame |}.

Definition get_metrics (self : t) : metrics :=
  {| frames := frame_data self;
     current_stats := HashTableAllocator.get_stats (allocator self) |}.

End WithClock.

Arguments t : clear implicits.

End MemoryTracker.

(** ** [class CallGraphBuilder]

    [graph] is a [defaultdict(list)]: a dictionary in insertion order whose
    subscript yields the empty list for an absent key.  (The subscript also
    stores that empty list; neither algorithm can observe the stored entry,
    and the model leaves it out.)  [functions] is a set.  Python fixes no
    enumeration order for a set, so the algorithms that iterate over
    [self.functions] take the enumeration, [order], as an argument; the
    theorems hold for every enumeration of the set. *)

Module CallGraphBuilder.

Record t : Type := Make {
  graph : list (string * list string);
  functions : gset string
}.

Definition init : t := {| graph := []; functions := ∅ |}.

(** [d[key]] on the [defaultdict(list)]. *)
Fixpoint graph_get (g : list (string * list string)) (key : string) : list string :=
  match g with
  | [] => []
  | (k, v) :: g' => if decide (k = key) then v else graph_get g' key
  end.

(** [d[key].append(x)]: an absent key is inserted last. *)
Fixpoint graph_append (g : list (string * list string)) (key x : string)
  : list (string * list string) :=
  match g with
  | [] => [(key, [x])]
  | (k, v) :: g' =>
      if decide (k = key) then (k, v ++ [x]) :: g'
      else (k, v) :: graph_append g' key x
  end.

Definition add_call (caller callee : string) (self : t) : t :=
  {| graph := graph_append (graph self) caller callee;
     functions := {[callee]} ∪ ({[caller]} ∪ functions self) |}.

(** [in_degree] is a [defaultdict(int)]. *)
Definition int_get (d : gmap string Z) (key : string) : Z :=
  default 0 (d !! key).

(** The body of the [for neighbor] loop inside the [while] loop. *)
Definition release (st : gmap string Z * list string) (neighbor : string)
  : gmap string Z * list string :=
  let in_degree := <[neighbor := int_get st.1 neighbor - 1]> st.1 in
  if decide (int_get in_degree neighbor = 0) then (in_degree, st.2 ++ [neighbor])
  else (in_degree, st.2).

(** The [while queue] loop; [out] is the list the source calls [result]. *)
Fixpoint kahn_loop (fuel : nat) (g : list (string * list string))
    (in_degree : gmap string Z) (queue out : list string)
  : result (list string) :=
  match queue with
  | [] => Ok out
  | node :: queue =>
      match fuel with
      | O => Raise OutOfFuel
      | S fuel' =>
          let out := out ++ [node] in
          let '(in_degree, queue) :=
            foldl release (in_degree, queue) (graph_get g node) in
          kahn_loop fuel' g in_degree queue out
      end
  end.

Definition initial_in_degree (order : list string)
    (g : list (string * list string)) : gmap string Z :=
  let in_degree := foldl (λ d node, <[node := 0]> d) ∅ order in
  foldl
    (λ d node,
       foldl (λ d neighbor, <[neighbor := int_get d neighbor + 1]> d)
         d (graph_get g node))
    in_degree g.*1.

Definition topological_sort (order : list string) (self : t)
  : result (list string) :=
  let in_degree := initial_in_degree order (graph self) in
  let queue := filter (λ node, int_get in_degree node = 0) order in
  kahn_loop (length order) (graph self) in_degree queue [].

(** The variables shared by the calls of [strongconnect].  [stack] is only
    pushed to and popped from; its top, the end of the Python list, is
    the head here.  [on_stack] is a [defaultdict(bool)]. *)
Record tarjan : Type := Tarjan {
  index_counter : Z;
  stack : list string;
  lowlinks : gmap string Z;
  index : gmap string Z;
  on_stack : gmap string bool;
  sccs : list (list string)
}.

Definition tarjan_init : tarjan :=
  {| index_counter := 0; stack := []; lowlinks := ∅; index := ∅;
     on_stack := ∅; sccs := [] |}.

Definition bool_get (d : gmap string bool) (key : string) : bool :=
  default false (d !! key).

Definition set_lowlink (node : string) (v : Z) (st : tarjan) : tarjan :=
  {| index_counter := index_counter st; stack := stack st;
     lowlinks := <[node := v]> (lowlinks st); index := index st;
     on_stack := on_stack st; sccs := sccs st |}.

(** The first five statements of [strongconnect]. *)
Definition enter (node : string) (st : tarjan) : tarjan :=
  {| index_counter := index_counter st + 1;
     stack := node :: stack st;
     lowlinks := <[node := index_counter st]> (lowlinks st);
     index := <[node := index_counter st]> (index st);
     on_stack := <[node := true]> (on_stack st);
     sccs := sccs st |}.

(** The [while True] loop that pops the component of [node]. *)
Fixpoint pop_component (node : string) (stack : list string)
    (on_stack : gmap string bool) (component : list string)
  : result (list string * gmap string bool * list string) :=
  match stack with
  | [] => Raise IndexError
  | successor :: stack =>
      let on_stack := <[successor := false]> on_stack in
      let component := component ++ [successor] in
      if decide (successor = node) then Ok (stack, on_stack, component)
      else pop_component node stack on_stack component
  end.

(** The statements after the [for successor] loop. *)
Definition leave (node : string) (st : tarjan) : result tarjan :=
  low ← subscript (lowlinks st) node;
  idx ← subscript (index st) node;
  if decide (low = idx) then
    '(stack', on_stack', component) ←
      pop_component node (stack st) (on_stack st) [];
    let sccs' :=
      if decide (Z.of_nat (length component) > 1) then sccs st ++ [component]
      else sccs st in
    Ok {| index_counter := index_counter st; stack := stack';
          lowlinks := lowlinks st; index := index st;
          on_stack := on_stack'; sccs := sccs' |}
  else Ok st.

(** The body of the [for successor] loop of [strongconnect node];
    [recurse] is the recursive call. *)
Definition visit (recurse : string → tarjan → result tarjan)
    (node : string) (st : tarjan) (successor : string) : result tarjan :=
  if decide (index st !! successor = None) then
    st ← recurse successor st;
    low ← subscript (lowlinks st) node;
    low' ← subscript (lowlinks st) successor;
    Ok (set_lowlink node (low `min` low') st)
  else if bool_get (on_stack st) successor then
    low ← subscript (lowlinks st) node;
    idx ← subscript (index st) successor;
    Ok (set_lowlink node (low `min` idx) st)
  else Ok st.

(** [strongconnect]; [frames] is the number of nested calls of it that
    the interpreter still admits, as for [_dfs_helper]. *)
Fixpoint strongconnect (frames : nat) (g : list (string * list string))
    (node : string) (st : tarjan) : result tarjan :=
  match frames with
  | O => Raise RecursionError
  | S frames' =>
      st ← for_each (visit (strongconnect frames' g) node) (graph_get g node)
             (enter node st);
      leave node st
  end.

(** [detect_cycles], called when the interpreter admits [frames] nested
    calls inside it. *)
Definition detect_cycles (frames : nat) (order : list string) (self : t)
  : result (list (list string)) :=
  st ← for_each
    (λ st node,
       if decide (index st !! node = None) then
         strongconnect frames (graph self) node st
       else Ok st)
    order tarjan_init;
  Ok (sccs st).

End CallGraphBuilder.

(** * Loops *)

(** A [for] loop whose body returns and keeps [P] whenever it is started
    in a state satisfying [P] returns, in a state satisfying [P]. *)
Lemma for_each_invariant {A St} (P : St → Prop) (body : St → A → result St)
    (l : list A) (s : St) :
  (∀ s x, x ∈ l → P s → ∃ s', body s x = Ok s' ∧ P s') →
  P s → ∃ s', for_each body l s = Ok s' ∧ P s'.
Proof.
  revert s. induction l as [|x l IH]; intros s Hbody Hs; cbn.
  - by exists s.
  - destruct (Hbody s x) as (s1 & -> & Hs1); [by left|done|]. cbn.
    apply IH; [|done]. intros s2 y Hy. apply Hbody. by right.
Qed.

(** A [for] loop that returns: [P] relates the items already handled to
    the state, and each turn of the body extends it by one item. *)
Lemma for_each_prefix_invariant {A St} (P : list A → St → Prop)
    (body : St → A → result St) (l : list A) (s s' : St) :
  for_each body l s = Ok s' →
  P [] s →
  (∀ handled x s s',
     x ∈ l → P handled s → body s x = Ok s' → P (handled ++ [x]) s') →
  P l s'.
Proof.
  intros Hloop Hstart Hbody.
  enough (∀ rest handled s,
            (∀ x, x ∈ rest → x ∈ l) → P handled s →
            for_each body rest s = Ok s' → P (handled ++ rest) s') as Hgen.
  { apply (Hgen l [] s); auto. }
  clear s Hloop Hstart.
  induction rest as [|x rest IH]; intros handled s Hin Hs Hloop; cbn in Hloop.
  - rewrite app_nil_r. by simplify_eq.
  - destruct (body s x) as [s1|e] eqn:Hx; [|done]. cbn in Hloop.
    rewrite cons_middle, app_assoc. apply (IH _ s1); [| |done].
    + intros y Hy. apply Hin. by right.
    + apply (Hbody handled x s); [apply Hin; by left|done|done].
Qed.

(** * The limit on recursion *)

(** [overflows_or r r']: [r] is the result [r'], or [RecursionError].  It
    relates a call made with fewer frames to the same call made with
    more. *)
Definition overflows_or {A} (r r' : result A) : Prop :=
  r = Raise RecursionError ∨ r = r'.

Lemma overflows_or_refl {A} (r : result A) : overflows_or r r.
Proof. by right. Qed.

Lemma overflows_or_bind {A B} (r r' : result A) (k k' : A → result B) :
  overflows_or r r' → (∀ a, overflows_or (k a) (k' a)) →
  overflows_or (r ≫= k) (r' ≫= k').
Proof.
  intros [Hr|Hr] Hk; subst r; [by left|]. destruct r' as [a|e]; cbn; [apply Hk|by right].
Qed.

Lemma overflows_or_for_each {A St} (body body' : St → A → result St)
    (l : list A) (s : St) :
  (∀ s x, overflows_or (body s x) (body' s x)) →
  overflows_or (for_each body l s) (for_each body' l s).
Proof.
  intros Hbody. revert s. induction l as [|x l IH]; intros s; cbn.
  - by right.
  - by apply overflows_or_bind.
Qed.

(** A call that returns with some frames returns the same with more, and
    a call that returns with enough frames can only overflow with
    fewer. *)
Lemma overflows_or_Ok {A} (r r' : result A) (a : A) :
  overflows_or r r' → r = Ok a → r' = Ok a.
Proof. intros [Hr|Hr] Hok; subst r; [done|done]. Qed.

Lemma overflows_or_Raise {A} (r : result A) (a : A) (e : exn) :
  overflows_or r (Ok a) → r = Raise e → e = RecursionError.
Proof. intros [Hr|Hr] Hraise; subst r; congruence. Qed.

(** * The allocation registry *)

Section AllocationRegistry.
Context {Time : Type}.
Implicit Types (self : HashTableAllocator.t Time) (now : Time).

Lemma track_lookup_same self obj_id sz now stk :
  HashTableAllocator.allocations
    (HashTableAllocator.track obj_id sz now stk self) !! obj_id
  = Some (HashTableAllocator.Allocation obj_id sz stk now).
Proof. apply lookup_insert_eq. Qed.

Lemma track_lookup_other self obj_id other sz now stk :
  other ≠ obj_id →
  HashTableAllocator.allocations
    (HashTableAllocator.track obj_id sz now stk self) !! other
  = HashTableAllocator.allocations self !! other.
Proof. intros Hne. by apply lookup_insert_ne. Qed.

Lemma track_count_fresh self obj_id sz now stk :
  HashTableAllocator.allocations self !! obj_id = None →
  HashTableAllocator.count
    (HashTableAllocator.get_stats
       (HashTableAllocator.track obj_id sz now stk self))
  = HashTableAllocator.count (HashTableAllocator.get_stats self) + 1.
Proof.
  intros Hfresh. cbn. rewrite map_size_insert_None by done. lia.
Qed.

Lemma track_count_known self obj_id sz now stk :
  is_Some (HashTableAllocator.allocations self !! obj_id) →
  HashTableAllocator.count
    (HashTableAllocator.get_stats
       (HashTableAllocator.track obj_id sz now stk self))
  = HashTableAllocator.count (HashTableAllocator.get_stats self).
Proof.
  intros Hknown. cbn. by rewrite map_size_insert_Some.
Qed.

(** C7.  Tracking the same identity a second time leaves [count] as it
    was after the first call, adds one to [total_allocated] at each of the
    two calls, and replaces the record: the identity now maps to the
    second call's size, call stack and timestamp, and the whole mapping
    is the one obtained had the first call never happened. *)
Theorem track_twice_same_identity self obj_id sz1 now1 stk1 sz2 now2 stk2 :
  let once := HashTableAllocator.track obj_id sz1 now1 stk1 self in
  let twice := HashTableAllocator.track obj_id sz2 now2 stk2 once in
  HashTableAllocator.count (HashTableAllocator.get_stats twice)
    = HashTableAllocator.count (HashTableAllocator.get_stats once)
  ∧ HashTableAllocator.stats_total_allocated (HashTableAllocator.get_stats once)
    = HashTableAllocator.stats_total_allocated
        (HashTableAllocator.get_stats self) + 1
  ∧ HashTableAllocator.stats_total_allocated (HashTableAllocator.get_stats twice)
    = HashTableAllocator.stats_total_allocated
        (HashTableAllocator.get_stats once) + 1
  ∧ HashTableAllocator.allocations twice !! obj_id
    = Some (HashTableAllocator.Allocation obj_id sz2 stk2 now2)
  ∧ HashTableAllocator.allocations twice
    = HashTableAllocator.allocations
        (HashTableAllocator.track obj_id sz2 now2 stk2 self).
Proof.
  intros once twice. subst once twice. repeat split.
  - apply track_count_known. rewrite track_lookup_same. by eexists.
  - apply track_lookup_same.
  - cbn. apply insert_insert_eq.
Qed.

End AllocationRegistry.

(** * The disjoint-set forest *)

Section DisjointSetForest.
Context `{Countable K}.
Implicit Types (p q : gmap K K) (s : UnionFind.t K) (x y z r : K)
  (path : list K).

(** [climbs p path x r]: following the parent links of [p] from [x] visits
    the elements of [path] in turn, none of them a root, and then stops at
    the root [r]. *)
Inductive climbs p : list K → K → K → Prop :=
  | climbs_root r :
      p !! r = Some r → climbs p [] r r
  | climbs_link x y path r :
      p !! x = Some y → y ≠ x → climbs p path y r → climbs p (x :: path) x r.

Definition root_of s x r : Prop := ∃ path, climbs (UnionFind.parent s) path x r.

Definition registered s x : Prop := is_Some (UnionFind.parent s !! x).

(** Path compression: every element of [path] is re-pointed to [r]. *)
Definition repoint (path : list K) (r : K) (p : gmap K K) : gmap K K :=
  foldr (λ z q, <[z := r]> q) p path.

(** The forest invariant of the data model: from every registered
    element the parent links lead to a root in finitely many steps, and an
    element has a rank exactly when it has a parent. *)
Record forest s : Prop := Forest {
  forest_rooted : ∀ x, registered s x → ∃ r, root_of s x r;
  forest_ranked : ∀ x, registered s x ↔ is_Some (UnionFind.rank s !! x)
}.

Lemma climbs_det p path path' x r r' :
  climbs p path x r → climbs p path' x r' → path = path' ∧ r = r'.
Proof.
  intros Hc. revert path' r'.
  induction Hc as [r Hr|x y path r Hx Hne _ IH]; intros path' r' Hc';
    inversion Hc' as [|? y' path0 ? Hx' Hne' Hy']; simplify_eq; auto.
  destruct (IH _ _ Hy') as [-> ->]. done.
Qed.

Lemma climbs_ends_at_root p path x r : climbs p path x r → p !! r = Some r.
Proof. induction 1; auto. Qed.

Lemma climbs_registered p path x r : climbs p path x r → is_Some (p !! x).
Proof. destruct 1; eauto. Qed.

Lemma climbs_from_root p path x r :
  p !! x = Some x → climbs p path x r → path = [] ∧ r = x.
Proof. intros Hx Hc. inversion Hc; simplify_eq; auto. Qed.

Lemma climbs_path_registered p path x r z :
  climbs p path x r → z ∈ path → is_Some (p !! z).
Proof.
  induction 1 as [|x y path r Hx Hne Hc IH]; intros Hz.
  - by apply elem_of_nil in Hz.
  - apply elem_of_cons in Hz as [->|Hz]; eauto.
Qed.

(** An element of the path starts a strictly shorter climb to the same
    root. *)
Lemma climbs_suffix p path x r z :
  climbs p path x r → z ∈ path →
  ∃ path', climbs p path' z r ∧ (length path' ≤ length path)%nat.
Proof.
  induction 1 as [|x y path r Hx Hne Hc IH]; intros Hz.
  - by apply elem_of_nil in Hz.
  - apply elem_of_cons in Hz as [->|Hz].
    + exists (x :: path). split; [by apply climbs_link with y|done].
    + destruct (IH Hz) as (path' & Hc' & Hlen). exists path'. split; [done|].
      cbn. lia.
Qed.

Lemma climbs_no_repeat p path x y r :
  climbs p (x :: path) x r → p !! x = Some y → (x ∉ path) ∧ x ≠ r.
Proof.
  intros Hc Hx. split.
  - intros Hin. inversion Hc as [|? y' ? ? Hx' Hne Hc']; simplify_eq.
    destruct (climbs_suffix _ _ _ _ _ Hc' Hin) as (path' & Hc'' & Hlen).
    destruct (climbs_det _ _ _ _ _ _ Hc Hc'') as [<- _]. cbn in Hlen. lia.
  - intros ->. inversion Hc as [|? y' ? ? Hx' Hne Hc']; simplify_eq.
    apply climbs_ends_at_root in Hc'. congruence.
Qed.

Lemma climbs_delete p path y r x :
  climbs p path y r → x ∉ path → x ≠ r → climbs (delete x p) path y r.
Proof.
  induction 1 as [r Hr|z y path r Hz Hne Hc IH]; intros Hnin Hxr.
  - constructor. by rewrite lookup_delete_ne.
  - apply not_elem_of_cons in Hnin as [Hxz Hnin].
    apply climbs_link with y; [|done|by apply IH].
    by rewrite lookup_delete_ne.
Qed.

(** A climb is shorter than the number of registered elements: this is
    the recursion budget [find] passes to [find_rec]. *)
Lemma climbs_bound p path x r : climbs p path x r → (length path < size p)%nat.
Proof.
  revert p x. induction path as [|z path IH]; intros p x Hc.
  - apply climbs_registered in Hc as [v Hv].
    assert (size p ≠ 0%nat); [|cbn; lia].
    intros Hsz. apply map_size_empty_inv in Hsz. by simplify_map_eq.
  - inversion Hc as [|? y ? ? Hx Hne Hc']; simplify_eq.
    destruct (climbs_no_repeat _ _ _ _ _ Hc Hx) as [Hnin Hxr].
    apply (climbs_delete _ _ _ _ x) in Hc'; [|done..].
    apply IH in Hc'. rewrite map_size_delete_Some in Hc' by eauto.
    cbn. lia.
Qed.

(** ** Updates of the parent map that keep every root *)

Lemma climbs_insert_fresh p path z r x v :
  p !! x = None → climbs p path z r → climbs (<[x := v]> p) path z r.
Proof.
  intros Hx. induction 1 as [r Hr|z y path r Hz Hne Hc IH].
  - constructor. rewrite lookup_insert_ne; [done|congruence].
  - apply climbs_link with y; [|done|done].
    rewrite lookup_insert_ne; [done|congruence].
Qed.

Lemma climbs_insert_root p path x r path' z r' :
  climbs p path x r → climbs p path' z r' →
  ∃ path'', climbs (<[x := r]> p) path'' z r'.
Proof.
  intros Hx. induction 1 as [r' Hr'|z y path' r' Hz Hne Hc IH].
  - exists []. constructor. destruct (decide (x = r')) as [->|Hne].
    + destruct (climbs_from_root _ _ _ _ Hr' Hx) as [_ ->].
      by rewrite lookup_insert_eq.
    + by rewrite lookup_insert_ne.
  - destruct IH as (path'' & IH). destruct (decide (x = z)) as [->|Hxz].
    + assert (r = r') as <-.
      { eapply climbs_det; [exact Hx|]. by apply climbs_link with y. }
      pose proof (climbs_ends_at_root _ _ _ _ Hx) as Hr.
      destruct (decide (r = z)) as [->|Hrz]; [congruence|].
      exists [z]. apply climbs_link with r; [by rewrite lookup_insert_eq|done|].
      constructor. by rewrite lookup_insert_ne.
    + exists (z :: path''). apply climbs_link with y; [|done|done].
      by rewrite lookup_insert_ne.
Qed.

Lemma climbs_repoint p path x r path' z r' :
  climbs p path x r → climbs p path' z r' →
  ∃ path'', climbs (repoint path r p) path'' z r'.
Proof.
  intros Hx. revert path' z r'.
  induction Hx as [r Hr|x y path r Hxy Hne Hy IH]; intros path' z r' Hz.
  - by exists path'.
  - cbn. destruct (IH _ _ _ Hz) as (pz & Hz').
    destruct (IH _ _ _ (climbs_link _ _ _ _ _ Hxy Hne Hy)) as (px & Hx').
    eapply climbs_insert_root; eauto.
Qed.

Lemma climbs_attach p a b path z r :
  p !! a = Some a → p !! b = Some b → a ≠ b → climbs p path z r →
  ∃ path', climbs (<[a := b]> p) path' z (if decide (r = a) then b else r).
Proof.
  intros Ha Hb Hab. induction 1 as [r Hr|z y path r Hz Hne Hc IH].
  - case_decide as Hra.
    + subst r. exists [a].
      apply climbs_link with b; [by rewrite lookup_insert_eq|done|].
      constructor. by rewrite lookup_insert_ne.
    + exists []. constructor. by rewrite lookup_insert_ne.
  - destruct IH as (path' & IH). exists (z :: path').
    apply climbs_link with y; [|done|done].
    rewrite lookup_insert_ne; [done|congruence].
Qed.

Lemma repoint_lookup_path p path r z :
  z ∈ path → repoint path r p !! z = Some r.
Proof.
  induction path as [|x path IH]; intros Hz; [by apply elem_of_nil in Hz|].
  cbn. destruct (decide (x = z)) as [->|Hne]; [by rewrite lookup_insert_eq|].
  rewrite lookup_insert_ne by done. apply elem_of_cons in Hz as [?|?]; [congruence|auto].
Qed.

Lemma repoint_lookup_other p path r z :
  z ∉ path → repoint path r p !! z = p !! z.
Proof.
  induction path as [|x path IH]; intros Hz; [done|].
  apply not_elem_of_cons in Hz as [Hne Hz]. cbn.
  rewrite lookup_insert_ne by done. auto.
Qed.

Lemma repoint_is_Some p path x r z :
  climbs p path x r → is_Some (repoint path r p !! z) ↔ is_Some (p !! z).
Proof.
  intros Hc. destruct (decide (z ∈ path)) as [Hin|Hnin].
  - rewrite repoint_lookup_path by done.
    split; [intros _; by eapply climbs_path_registered|by eauto].
  - by rewrite repoint_lookup_other.
Qed.


(** ** [find] *)

Lemma find_rec_climbs fuel s path x r :
  climbs (UnionFind.parent s) path x r → (length path < fuel)%nat →
  UnionFind.find_rec fuel x s
  = (Ok r, UnionFind.Make (repoint path r (UnionFind.parent s))
             (UnionFind.rank s)).
Proof.
  intros Hc. revert fuel.
  induction Hc as [r Hr|x y path r Hx Hne Hc IH]; intros [|fuel] Hlt;
    cbn in Hlt; try lia.
  - cbn. unfold mbind, stateful_bind, UnionFind.read_parent, subscript.
    rewrite Hr. rewrite decide_False by auto. rewrite Hr. by destruct s.
  - cbn. unfold mbind, stateful_bind, UnionFind.read_parent, subscript.
    rewrite Hx. rewrite decide_True by done. rewrite IH by lia.
    cbn. by rewrite lookup_insert_eq.
Qed.

Lemma find_rec_unregistered fuel s x :
  UnionFind.parent s !! x = None →
  UnionFind.find_rec (S fuel) x s = (Raise KeyError, s).
Proof.
  intros Hx. cbn. unfold mbind, stateful_bind, UnionFind.read_parent, subscript.
  by rewrite Hx.
Qed.

Lemma find_climbs s path x r :
  climbs (UnionFind.parent s) path x r →
  UnionFind.find x s
  = (Ok r, UnionFind.Make (repoint path r (UnionFind.parent s))
             (UnionFind.rank s)).
Proof.
  intros Hc. unfold UnionFind.find. apply find_rec_climbs; [done|].
  apply climbs_bound in Hc. lia.
Qed.

Lemma find_unregistered s x :
  ¬ registered s x → UnionFind.find x s = (Raise KeyError, s).
Proof.
  intros Hx. apply find_rec_unregistered.
  by apply eq_None_not_Some.
Qed.

(** ** Invariant preservation *)

Lemma root_of_det s x r r' : root_of s x r → root_of s x r' → r = r'.
Proof. intros [? Hc] [? Hc']. by destruct (climbs_det _ _ _ _ _ _ Hc Hc'). Qed.

Lemma root_of_registered s x r : root_of s x r → registered s x.
Proof. intros [? Hc]. by eapply climbs_registered. Qed.

Lemma root_of_is_root s x r : root_of s x r → UnionFind.parent s !! r = Some r.
Proof. intros [? Hc]. by eapply climbs_ends_at_root. Qed.

Lemma root_of_root s r : UnionFind.parent s !! r = Some r → root_of s r r.
Proof. intros Hr. exists []. by constructor. Qed.

(** A change of the parent map that registers nothing new and sends the
    root [r] of every element to [f r]. *)
Lemma forest_reroot s s' (f : K → K) :
  forest s →
  (∀ z, registered s' z ↔ registered s z) →
  (∀ z, is_Some (UnionFind.rank s' !! z) ↔ is_Some (UnionFind.rank s !! z)) →
  (∀ z r, root_of s z r → root_of s' z (f r)) →
  forest s' ∧ ∀ z r, root_of s' z r ↔ ∃ r0, root_of s z r0 ∧ r = f r0.
Proof.
  intros [Hroot Hrank] Hreg Hrk Hf. split; [split|].
  - intros z Hz. apply Hreg in Hz. destruct (Hroot z Hz) as [r Hr]. eauto.
  - intros z. by rewrite Hreg, Hrk.
  - intros z r. split.
    + intros Hr. pose proof (root_of_registered _ _ _ Hr) as Hz.
      apply Hreg in Hz. destruct (Hroot z Hz) as [r0 Hr0]. exists r0.
      split; [done|]. eapply root_of_det; eauto.
    + intros (r0 & Hr0 & ->). auto.
Qed.

Lemma forest_init : forest (UnionFind.init (K := K)).
Proof.
  split.
  - intros x [v Hv]. cbn in Hv. by rewrite lookup_empty in Hv.
  - intros x. unfold registered. cbn. by rewrite !lookup_empty.
Qed.

Lemma make_set_known s x : registered s x → UnionFind.make_set x s = s.
Proof. intros [v Hv]. unfold UnionFind.make_set. by rewrite Hv. Qed.

Lemma make_set_fresh s x :
  ¬ registered s x →
  UnionFind.make_set x s
  = UnionFind.Make (<[x := x]> (UnionFind.parent s))
      (<[x := 0]> (UnionFind.rank s)).
Proof.
  intros Hx. apply eq_None_not_Some in Hx. unfold UnionFind.make_set.
  by rewrite Hx.
Qed.

Lemma make_set_root_of s x z r :
  forest s →
  root_of (UnionFind.make_set x s) z r
  ↔ root_of s z r ∨ (¬ registered s x ∧ z = x ∧ r = x).
Proof.
  intros Hs. destruct (decide (registered s x)) as [Hx|Hx].
  { rewrite make_set_known by done. naive_solver. }
  rewrite make_set_fresh by done. pose proof Hx as Hnone.
  apply eq_None_not_Some in Hnone. split.
  - intros [pz Hz]. cbn in Hz. destruct (decide (z = x)) as [->|Hne].
    + right. eapply climbs_from_root in Hz as [_ ->]; [done|].
      by rewrite lookup_insert_eq.
    + left. assert (registered s z) as Hreg.
      { apply climbs_registered in Hz. by rewrite lookup_insert_ne in Hz. }
      destruct (forest_rooted _ Hs z Hreg) as [r' [pz' Hz']].
      pose proof (climbs_insert_fresh _ _ _ _ x x Hnone Hz') as Hz''.
      destruct (climbs_det _ _ _ _ _ _ Hz Hz'') as [_ ->]. by exists pz'.
  - intros [[pz Hz]|(_ & -> & ->)].
    + exists pz. cbn. by apply climbs_insert_fresh.
    + exists []. constructor. cbn. by rewrite lookup_insert_eq.
Qed.

Lemma make_set_registered s x z :
  registered (UnionFind.make_set x s) z ↔ registered s z ∨ z = x.
Proof.
  destruct (decide (registered s x)) as [Hx|Hx].
  { rewrite make_set_known by done. naive_solver. }
  rewrite make_set_fresh by done. unfold registered. cbn.
  rewrite lookup_insert_is_Some. naive_solver.
Qed.

Lemma make_set_forest s x : forest s → forest (UnionFind.make_set x s).
Proof.
  intros Hs. split.
  - intros z Hz. apply make_set_registered in Hz.
    destruct (decide (registered s z)) as [Hreg|Hreg].
    + destruct (forest_rooted _ Hs z Hreg) as [r Hr]. exists r.
      apply make_set_root_of; auto.
    + destruct Hz as [?| ->]; [done|]. exists x.
      apply make_set_root_of; auto.
  - intros z. rewrite make_set_registered.
    destruct (decide (registered s x)) as [Hx|Hx].
    + rewrite make_set_known by done. rewrite <- (forest_ranked _ Hs).
      naive_solver.
    + rewrite make_set_fresh by done. cbn. rewrite lookup_insert_is_Some.
      rewrite <- (forest_ranked _ Hs).
      destruct (decide (x = z)); naive_solver.
Qed.

(** Path compression keeps the root of every element and registers
    nothing. *)
Lemma repoint_forest s path x r :
  forest s → climbs (UnionFind.parent s) path x r →
  let s' := UnionFind.Make (repoint path r (UnionFind.parent s))
              (UnionFind.rank s) in
  forest s' ∧ (∀ z, registered s' z ↔ registered s z)
  ∧ ∀ z r', root_of s' z r' ↔ root_of s z r'.
Proof.
  intros Hs Hc s'.
  assert (∀ z, registered s' z ↔ registered s z) as Hreg.
  { intros z. by eapply repoint_is_Some. }
  destruct (forest_reroot s s' id Hs Hreg) as [Hs' Hroots].
  - done.
  - intros z r' [pz Hz].
    destruct (climbs_repoint _ _ _ _ _ _ _ Hc Hz) as (pz' & Hz').
    by exists pz'.
  - split; [done|]. split; [done|]. intros z r'. rewrite Hroots. naive_solver.
Qed.

(** Attaching the root [a] under the root [b] merges their two sets. *)
Lemma attach_forest s a b (rk : gmap K Z) :
  forest s →
  UnionFind.parent s !! a = Some a → UnionFind.parent s !! b = Some b →
  a ≠ b →
  (∀ z, is_Some (rk !! z) ↔ is_Some (UnionFind.rank s !! z)) →
  let s' := UnionFind.Make (<[a := b]> (UnionFind.parent s)) rk in
  forest s' ∧ (∀ z, registered s' z ↔ registered s z)
  ∧ ∀ z r, root_of s' z r
           ↔ ∃ r0, root_of s z r0 ∧ r = if decide (r0 = a) then b else r0.
Proof.
  intros Hs Ha Hb Hab Hrk s'.
  assert (∀ z, registered s' z ↔ registered s z) as Hreg.
  { intros z. unfold registered. cbn. rewrite lookup_insert_is_Some.
    split; [intros [<-|[_ ?]]; eauto|].
    intros Hz. destruct (decide (a = z)); auto. }
  destruct (forest_reroot s s' (λ r0, if decide (r0 = a) then b else r0)
              Hs Hreg) as [Hs' Hroots]; [done| |done].
  intros z r [pz Hz].
  destruct (climbs_attach _ _ _ _ _ _ Ha Hb Hab Hz) as (pz' & Hz').
  by exists pz'.
Qed.

(** [find] on a registered element of a forest. *)
Lemma find_ok s x :
  forest s → registered s x →
  ∃ path r,
    climbs (UnionFind.parent s) path x r
    ∧ UnionFind.find x s
      = (Ok r, UnionFind.Make (repoint path r (UnionFind.parent s))
                 (UnionFind.rank s)).
Proof.
  intros Hs Hx. destruct (forest_rooted _ Hs x Hx) as [r [path Hc]].
  exists path, r. split; [done|]. by apply find_climbs.
Qed.

(** The rank of every element is at least what it was. *)
Definition rank_le s s' : Prop :=
  ∀ z k, UnionFind.rank s !! z = Some k →
         ∃ k', UnionFind.rank s' !! z = Some k' ∧ k ≤ k'.

Lemma rank_le_refl s : rank_le s s.
Proof. intros z k Hz. exists k. split; [done|lia]. Qed.

Lemma rank_le_same s s' : UnionFind.rank s' = UnionFind.rank s → rank_le s s'.
Proof. intros Heq z k Hz. exists k. rewrite Heq. split; [done|lia]. Qed.

(** What [union] does, stated on the forest [s2] left by its two calls of
    [find]. *)
Definition linked (s2 : UnionFind.t K) (root_x root_y : K) (kx ky : Z)
  : UnionFind.t K :=
  if decide (root_x = root_y) then s2
  else if decide (kx < ky) then
    UnionFind.Make (<[root_x := root_y]> (UnionFind.parent s2))
      (UnionFind.rank s2)
  else if decide (kx > ky) then
    UnionFind.Make (<[root_y := root_x]> (UnionFind.parent s2))
      (UnionFind.rank s2)
  else
    UnionFind.Make (<[root_y := root_x]> (UnionFind.parent s2))
      (<[root_x := kx + 1]> (UnionFind.rank s2)).

Lemma union_ok s x y :
  forest s → registered s x → registered s y →
  ∃ root_x root_y s1 s2 kx ky,
    UnionFind.find x s = (Ok root_x, s1)
    ∧ UnionFind.find y s1 = (Ok root_y, s2)
    ∧ root_of s x root_x ∧ root_of s y root_y
    ∧ forest s2
    ∧ (∀ z, registered s2 z ↔ registered s z)
    ∧ (∀ z r, root_of s2 z r ↔ root_of s z r)
    ∧ UnionFind.rank s2 = UnionFind.rank s
    ∧ UnionFind.rank s2 !! root_x = Some kx
    ∧ UnionFind.rank s2 !! root_y = Some ky
    ∧ UnionFind.union x y s = (Ok (), linked s2 root_x root_y kx ky).
Proof.
  intros Hs Hx Hy.
  destruct (find_ok s x Hs Hx) as (px & rx & Hcx & Hfx).
  destruct (repoint_forest s px x rx Hs Hcx) as (Hs1 & Hreg1 & Hroot1).
  set (s1 := UnionFind.Make (repoint px rx (UnionFind.parent s))
               (UnionFind.rank s)) in *.
  assert (registered s1 y) as Hy1 by by apply Hreg1.
  destruct (find_ok s1 y Hs1 Hy1) as (py & ry & Hcy & Hfy).
  destruct (repoint_forest s1 py y ry Hs1 Hcy) as (Hs2 & Hreg2 & Hroot2).
  set (s2 := UnionFind.Make (repoint py ry (UnionFind.parent s1))
               (UnionFind.rank s1)) in *.
  assert (root_of s x rx) as Hrx by by exists px.
  assert (root_of s y ry) as Hry by (apply Hroot1; by exists py).
  assert (is_Some (UnionFind.rank s2 !! rx)) as [kx Hkx].
  { apply (forest_ranked _ Hs), (root_of_registered s rx rx).
    apply root_of_root. by eapply root_of_is_root. }
  assert (is_Some (UnionFind.rank s2 !! ry)) as [ky Hky].
  { apply (forest_ranked _ Hs), (root_of_registered s ry ry).
    apply root_of_root. by eapply root_of_is_root. }
  exists rx, ry, s1, s2, kx, ky. split_and!; try done.
  - intros z. by rewrite Hreg2, Hreg1.
  - intros z r. by rewrite Hroot2, Hroot1.
  - clearbody s1 s2.
    unfold UnionFind.union, mbind, stateful_bind. rewrite Hfx, Hfy.
    unfold linked. destruct (decide (rx = ry)) as [Heq|Hne]; [done|].
    unfold UnionFind.read_rank, subscript. rewrite Hkx, Hky.
    destruct (decide (kx < ky)); [done|].
    destruct (decide (kx > ky)); [done|].
    unfold UnionFind.write_parent. cbn. by rewrite Hkx.
Qed.

(** The forest after [union]: the two sets are merged under one of the
    two roots, every other set is as it was. *)
Lemma linked_forest s2 rx ry kx ky :
  forest s2 →
  UnionFind.parent s2 !! rx = Some rx → UnionFind.parent s2 !! ry = Some ry →
  UnionFind.rank s2 !! rx = Some kx →
  let s' := linked s2 rx ry kx ky in
  forest s' ∧ (∀ z, registered s' z ↔ registered s2 z) ∧ rank_le s2 s'
  ∧ ∃ top, (top = rx ∨ top = ry)
      ∧ ∀ z r, root_of s' z r
               ↔ ∃ r0, root_of s2 z r0
                       ∧ r = if decide (r0 = rx ∨ r0 = ry) then top else r0.
Proof.
  intros Hs Hrx Hry Hkx s'. subst s'. unfold linked.
  destruct (decide (rx = ry)) as [->|Hne].
  { split; [done|]. split; [done|]. split; [apply rank_le_refl|].
    exists ry. split; [by left|]. intros z r. split.
    - intros Hr. exists r. split; [done|]. case_decide; naive_solver.
    - intros (r0 & Hr0 & ->). case_decide; naive_solver. }
  destruct (decide (kx < ky)); [|destruct (decide (kx > ky))].
  - destruct (attach_forest s2 rx ry (UnionFind.rank s2) Hs Hrx Hry Hne)
      as (Hs' & Hreg & Hroots); [done|].
    split; [done|]. split; [done|]. split; [by apply rank_le_same|].
    exists ry. split; [by right|]. intros z r. rewrite Hroots.
    apply exist_proper; intros r0. repeat case_decide; naive_solver.
  - destruct (attach_forest s2 ry rx (UnionFind.rank s2) Hs Hry Hrx)
      as (Hs' & Hreg & Hroots); [done|done|].
    split; [done|]. split; [done|]. split; [by apply rank_le_same|].
    exists rx. split; [by left|]. intros z r. rewrite Hroots.
    apply exist_proper; intros r0. repeat case_decide; naive_solver.
  - destruct (attach_forest s2 ry rx (<[rx := kx + 1]> (UnionFind.rank s2))
                Hs Hry Hrx) as (Hs' & Hreg & Hroots); [done| |].
    { intros z. rewrite lookup_insert_is_Some.
      split; [intros [<-|[_ ?]]; eauto|].
      intros Hz. destruct (decide (rx = z)); auto. }
    split; [done|]. split; [done|]. split.
    { intros z k Hz. cbn. destruct (decide (rx = z)) as [->|Hzne].
      - rewrite lookup_insert_eq. exists (kx + 1). split; [done|].
        simplify_eq. lia.
      - rewrite lookup_insert_ne by done. exists k. split; [done|lia]. }
    exists rx. split; [by left|]. intros z r. rewrite Hroots.
    apply exist_proper; intros r0. repeat case_decide; naive_solver.
Qed.

(** ** Sequences of operations *)

Inductive op : Type :=
  | MakeSet (x : K)
  | Find (x : K)
  | Union (x y : K).

Definition step (o : op) : stateful (UnionFind.t K) () :=
  match o with
  | MakeSet x => λ s, (Ok (), UnionFind.make_set x s)
  | Find x => _ ← UnionFind.find x; mret ()
  | Union x y => UnionFind.union x y
  end.

Fixpoint run (ops : list op) : stateful (UnionFind.t K) () :=
  match ops with
  | [] => mret ()
  | o :: ops => _ ← step o; run ops
  end.

(** The arguments of [find] and [union] were registered before. *)
Fixpoint well_formed (seen : gset K) (ops : list op) : Prop :=
  match ops with
  | [] => True
  | MakeSet x :: ops => well_formed ({[x]} ∪ seen) ops
  | Find x :: ops => x ∈ seen ∧ well_formed seen ops
  | Union x y :: ops => x ∈ seen ∧ y ∈ seen ∧ well_formed seen ops
  end.

(** Connected by the union history: the reflexive, symmetric and
    transitive closure of the pairs given to [union]. *)
Definition connected (ops : list op) : relation K :=
  rtsc (λ a b, Union a b ∈ ops).

(** The forest agrees with a history: the two elements of every past
    [union] have one root, and every element is connected to its root. *)
Definition agrees s (ops : list op) : Prop :=
  (∀ a b, Union a b ∈ ops → ∃ r, root_of s a r ∧ root_of s b r)
  ∧ (∀ x r, root_of s x r → connected ops x r).

Lemma connected_mono ops ops' x y :
  ops ⊆ ops' → connected ops x y → connected ops' x y.
Proof.
  intros Hsub. apply (rtsc_congruence id). intros a b Hab. by apply Hsub.
Qed.

Lemma agrees_same_root s ops x y rx ry :
  agrees s ops → connected ops x y → root_of s x rx → root_of s y ry →
  rx = ry.
Proof.
  intros [Hedge _] Hxy. revert rx ry.
  induction Hxy as [x|x z y Hxz _ IH]; intros rx ry Hrx Hry.
  - by eapply root_of_det.
  - assert (∃ r, root_of s x r ∧ root_of s z r) as (r & Hr1 & Hr2).
    { destruct Hxz as [Hxz|Hzx].
      - by apply Hedge.
      - destruct (Hedge _ _ Hzx) as (r & ? & ?). eauto. }
    rewrite (root_of_det _ _ _ _ Hrx Hr1). by apply IH.
Qed.

Lemma agrees_connected s ops x y r :
  agrees s ops → root_of s x r → root_of s y r → connected ops x y.
Proof.
  intros [_ Hroot] Hx Hy. unfold connected.
  trans r; [by apply Hroot|]. symmetry. by apply Hroot.
Qed.

Lemma agrees_same_roots s s' ops o :
  (∀ z r, root_of s' z r ↔ root_of s z r) →
  (∀ a b, o ≠ Union a b) →
  agrees s ops → agrees s' (ops ++ [o]).
Proof.
  intros Hroots Ho [Hedge Hroot]. split.
  - intros a b Hab. apply elem_of_app in Hab as [Hab|Hab].
    + destruct (Hedge _ _ Hab) as (r & ? & ?). exists r.
      by rewrite !Hroots.
    + apply list_elem_of_singleton in Hab. by destruct (Ho a b).
  - intros x r Hr. apply Hroots, Hroot in Hr.
    eapply connected_mono; [|done]. by apply sublist_subseteq, sublist_inserts_r.
Qed.

Lemma union_merges s x y :
  forest s → registered s x → registered s y →
  ∃ s' root_x root_y top,
    UnionFind.union x y s = (Ok (), s')
    ∧ forest s' ∧ (∀ z, registered s' z ↔ registered s z) ∧ rank_le s s'
    ∧ root_of s x root_x ∧ root_of s y root_y
    ∧ (top = root_x ∨ top = root_y)
    ∧ ∀ z r, root_of s' z r
             ↔ ∃ r0, root_of s z r0
                     ∧ r = if decide (r0 = root_x ∨ r0 = root_y) then top
                           else r0.
Proof.
  intros Hs Hx Hy.
  destruct (union_ok s x y Hs Hx Hy)
    as (rx & ry & s1 & s2 & kx & ky & _ & _ & Hrx & Hry & Hs2 & Hreg
        & Hroots & Hrank & Hkx & Hky & Hunion).
  assert (UnionFind.parent s2 !! rx = Some rx) as Hrx2.
  { apply (root_of_is_root s2 x), Hroots, Hrx. }
  assert (UnionFind.parent s2 !! ry = Some ry) as Hry2.
  { apply (root_of_is_root s2 y), Hroots, Hry. }
  destruct (linked_forest s2 rx ry kx ky Hs2 Hrx2 Hry2 Hkx)
    as (Hs' & Hreg' & Hle & top & Htop & Hroots').
  exists (linked s2 rx ry kx ky), rx, ry, top. split_and!; try done.
  - intros z. by rewrite Hreg', Hreg.
  - intros z k Hz. apply Hle. by rewrite Hrank.
  - intros z r. rewrite Hroots'. apply exist_proper; intros r0.
    by rewrite Hroots.
Qed.

(** ** Every operation keeps the invariant, whether it returns or raises *)

Lemma step_forest s o :
  forest s →
  forest (step o s).2 ∧ rank_le s (step o s).2
  ∧ ∀ z, registered s z → registered (step o s).2 z.
Proof.
  intros Hs. destruct o as [x|x|x y]; cbn.
  - split; [by apply make_set_forest|]. split.
    + destruct (decide (registered s x)) as [Hx|Hx].
      * rewrite make_set_known by done. apply rank_le_refl.
      * rewrite make_set_fresh by done. intros z k Hz. cbn.
        assert (x ≠ z) as Hne.
        { intros ->. apply Hx, (forest_ranked _ Hs). eauto. }
        rewrite lookup_insert_ne by done. exists k. split; [done|lia].
    + intros z Hz. apply make_set_registered. auto.
  - unfold mbind, stateful_bind.
    destruct (decide (registered s x)) as [Hx|Hx].
    + destruct (find_ok s x Hs Hx) as (path & r & Hc & ->). cbn.
      destruct (repoint_forest s path x r Hs Hc) as (Hs' & Hreg & _).
      split; [done|]. split; [by apply rank_le_same|].
      intros z Hz. by apply Hreg.
    + rewrite find_unregistered by done. cbn.
      split; [done|]. split; [apply rank_le_refl|done].
  - destruct (decide (registered s x)) as [Hx|Hx].
    + destruct (find_ok s x Hs Hx) as (px & rx & Hcx & Hfx).
      destruct (repoint_forest s px x rx Hs Hcx) as (Hs1 & Hreg1 & _).
      destruct (decide (registered s y)) as [Hy|Hy].
      * destruct (union_merges s x y Hs Hx Hy)
          as (s' & ? & ? & ? & -> & Hs' & Hreg & Hle & _). cbn.
        split; [done|]. split; [done|]. intros z Hz. by apply Hreg.
      * unfold UnionFind.union, mbind, stateful_bind. rewrite Hfx.
        rewrite find_unregistered by (by rewrite Hreg1). cbn.
        split; [done|]. split; [by apply rank_le_same|].
        intros z Hz. by apply Hreg1.
    + unfold UnionFind.union, mbind, stateful_bind.
      rewrite find_unregistered by done. cbn.
      split; [done|]. split; [apply rank_le_refl|done].
Qed.

(** ** Operations on registered elements follow the union history *)

Lemma step_agrees s past o :
  forest s → agrees s past →
  well_formed (dom (UnionFind.parent s)) [o] →
  ∃ s', step o s = (Ok (), s') ∧ forest s' ∧ agrees s' (past ++ [o])
        ∧ ∀ z, registered s' z ↔ registered s z ∨ o = MakeSet z.
Proof.
  intros Hs Hag Hwf. destruct o as [x|x|x y]; cbn in Hwf.
  - exists (UnionFind.make_set x s). split; [done|].
    split; [by apply make_set_forest|]. split.
    + destruct Hag as [Hedge Hroot]. split.
      * intros a b Hab. apply elem_of_app in Hab as [Hab|Hab].
        -- destruct (Hedge _ _ Hab) as (r & ? & ?). exists r.
           rewrite !make_set_root_of by done. auto.
        -- by apply list_elem_of_singleton in Hab.
      * intros z r Hr. apply make_set_root_of in Hr; [|done].
        destruct Hr as [Hr|(_ & -> & ->)]; [|done].
        eapply connected_mono; [|by apply Hroot].
        by apply sublist_subseteq, sublist_inserts_r.
    + intros z. rewrite make_set_registered. naive_solver.
  - destruct Hwf as [Hx _]. apply elem_of_dom in Hx.
    destruct (find_ok s x Hs Hx) as (path & r & Hc & Hf).
    destruct (repoint_forest s path x r Hs Hc) as (Hs' & Hreg & Hroots).
    eexists. split; [cbn; unfold mbind, stateful_bind; by rewrite Hf|].
    split; [done|]. split; [by apply (agrees_same_roots s)|].
    intros z. rewrite Hreg. naive_solver.
  - destruct Hwf as (Hx & Hy & _). apply elem_of_dom in Hx, Hy.
    destruct (union_merges s x y Hs Hx Hy)
      as (s' & rx & ry & top & Hu & Hs' & Hreg & _ & Hrx & Hry & Htop & Hroots).
    exists s'. split; [done|]. split; [done|]. split.
    + destruct Hag as [Hedge Hroot]. split.
      * intros a b Hab. apply elem_of_app in Hab as [Hab|Hab].
        -- destruct (Hedge _ _ Hab) as (r & ? & ?).
           exists (if decide (r = rx ∨ r = ry) then top else r).
           rewrite !Hroots. split; by exists r.
        -- apply list_elem_of_singleton in Hab. simplify_eq.
           exists top. rewrite !Hroots. split.
           ++ exists rx. split; [done|]. rewrite decide_True; auto.
           ++ exists ry. split; [done|]. rewrite decide_True; auto.
      * intros z r Hr. apply Hroots in Hr as (r0 & Hr0 & ->).
        assert (connected (past ++ [Union x y]) z r0) as Hz.
        { eapply connected_mono; [|by apply Hroot].
          by apply sublist_subseteq, sublist_inserts_r. }
        case_decide as Hcase; [|done].
        assert (connected (past ++ [Union x y]) rx ry) as Hxy.
        { trans x.
          { symmetry. eapply connected_mono; [|by apply Hroot].
            by apply sublist_subseteq, sublist_inserts_r. }
          trans y.
          { apply rtsc_lr. apply elem_of_app. right. by left. }
          eapply connected_mono; [|by apply Hroot].
          by apply sublist_subseteq, sublist_inserts_r. }
        unfold connected in *.
        destruct Hcase as [->| ->], Htop as [->| ->]; try done.
        -- by trans rx.
        -- trans ry; [done|by symmetry].
    + intros z. rewrite Hreg. naive_solver.
Qed.

Lemma well_formed_mono seen seen' ops :
  seen ⊆ seen' → well_formed seen ops → well_formed seen' ops.
Proof.
  revert seen seen'. induction ops as [|[x|x|x y] ops IH]; intros seen seen' Hsub;
    cbn; [done|..].
  - apply IH. set_solver.
  - intros [? ?]. split; [set_solver|by eapply IH].
  - intros (? & ? & ?). split_and!; [set_solver..|by eapply IH].
Qed.

Lemma run_agrees ops s past :
  forest s → agrees s past → well_formed (dom (UnionFind.parent s)) ops →
  ∃ s', run ops s = (Ok (), s') ∧ forest s' ∧ agrees s' (past ++ ops)
        ∧ ∀ z, registered s' z ↔ registered s z ∨ MakeSet z ∈ ops.
Proof.
  revert s past. induction ops as [|o ops IH]; intros s past Hs Hag Hwf.
  - exists s. rewrite app_nil_r. split_and!; try done.
    intros z. split; [auto|]. intros [?|Hin]; [done|].
    by apply elem_of_nil in Hin.
  - assert (well_formed (dom (UnionFind.parent s)) [o]) as Hwf1.
    { destruct o; cbn in *; naive_solver. }
    destruct (step_agrees s past o Hs Hag Hwf1) as (s1 & Hstep & Hs1 & Hag1 & Hreg1).
    assert (well_formed (dom (UnionFind.parent s1)) ops) as Hwf'.
    { assert (∀ z, z ∈ dom (UnionFind.parent s1)
                   ↔ z ∈ dom (UnionFind.parent s) ∨ o = MakeSet z) as Hdom.
      { intros z. rewrite !elem_of_dom. apply Hreg1. }
      destruct o as [x|x|x y]; cbn in Hwf.
      - eapply well_formed_mono; [|exact Hwf]. intros z Hz.
        apply Hdom. set_solver.
      - destruct Hwf as [_ Hwf]. eapply well_formed_mono; [|exact Hwf].
        intros z Hz. apply Hdom. auto.
      - destruct Hwf as (_ & _ & Hwf). eapply well_formed_mono; [|exact Hwf].
        intros z Hz. apply Hdom. auto. }
    destruct (IH s1 (past ++ [o]) Hs1 Hag1 Hwf') as (s' & Hrun & Hs' & Hag' & Hreg').
    exists s'. split.
    { cbn. unfold mbind, stateful_bind. by rewrite Hstep. }
    split; [done|]. split.
    { by rewrite <- app_assoc in Hag'. }
    intros z. rewrite Hreg', Hreg1, elem_of_cons. naive_solver.
Qed.

Lemma agrees_init : agrees (UnionFind.init (K := K)) [].
Proof.
  split.
  - intros a b Hab. by apply elem_of_nil in Hab.
  - intros x r [path Hc]. apply climbs_registered in Hc as [v Hv].
    cbn in Hv. by rewrite lookup_empty in Hv.
Qed.

Lemma climbs_NoDup p path x r : climbs p path x r → NoDup (path ++ [r]).
Proof.
  induction 1 as [r Hr|x y path r Hx Hne Hc IH]; cbn.
  - apply NoDup_singleton.
  - destruct (climbs_no_repeat p path x y r) as [Hnin Hxr];
      [by apply climbs_link with y|done|].
    apply NoDup_cons. split; [|done].
    rewrite elem_of_app, list_elem_of_singleton. naive_solver.
Qed.

(** C9.  Every operation, whether it returns or raises, maps a forest to
    a forest: afterwards the parent links from each registered element
    still lead to a root, along a path without repetition that is shorter
    than the number of registered elements; no element is forgotten; and
    no rank has decreased. *)
Theorem forest_invariant_preserved s o :
  forest s →
  let s' := (step o s).2 in
  forest s'
  ∧ (∀ x, registered s x → registered s' x)
  ∧ (∀ x, registered s' x →
       ∃ path r, climbs (UnionFind.parent s') path x r
                 ∧ UnionFind.parent s' !! r = Some r
                 ∧ NoDup (path ++ [r])
                 ∧ (length path < size (UnionFind.parent s'))%nat)
  ∧ rank_le s s'.
Proof.
  intros Hs s'. destruct (step_forest s o Hs) as (Hs' & Hle & Hreg).
  split; [done|]. split; [done|]. split; [|done].
  intros x Hx. destruct (forest_rooted _ Hs' x Hx) as [r [path Hc]].
  exists path, r. split; [done|]. split; [by eapply climbs_ends_at_root|].
  split; [by eapply climbs_NoDup|by eapply climbs_bound].
Qed.

(** [find] on a forest: an unregistered argument raises [KeyError] and
    changes nothing; a registered one yields its root and compresses the
    path to it. *)
Lemma find_on_forest s x :
  forest s →
  (¬ registered s x → UnionFind.find x s = (Raise KeyError, s))
  ∧ (registered s x →
       ∃ path r s',
         UnionFind.find x s = (Ok r, s')
         ∧ climbs (UnionFind.parent s) path x r
         ∧ (∀ z, z ∈ path ++ [r] → UnionFind.parent s' !! z = Some r)
         ∧ (∀ z, z ∉ path → UnionFind.parent s' !! z = UnionFind.parent s !! z)
         ∧ UnionFind.rank s' = UnionFind.rank s
         ∧ forest s').
Proof.
  intros Hs. split; [apply find_unregistered|].
  intros Hx. destruct (find_ok s x Hs Hx) as (path & r & Hc & Hf).
  destruct (repoint_forest s path x r Hs Hc) as (Hs' & _ & _).
  exists path, r. eexists. split; [exact Hf|]. cbn. split_and!; try done.
  - intros z Hz. apply elem_of_app in Hz as [Hz|Hz].
    + by apply repoint_lookup_path.
    + apply list_elem_of_singleton in Hz as ->.
      destruct (decide (r ∈ path)) as [Hin|Hnin].
      * by apply repoint_lookup_path.
      * rewrite repoint_lookup_other by done. by eapply climbs_ends_at_root.
  - intros z Hz. by apply repoint_lookup_other.
Qed.

(** The forest after a sequence of operations, each applied to what the
    one before left, whether that one returned or raised. *)
Definition after (ops : list op) : UnionFind.t K :=
  foldl (λ s o, (step o s).2) UnionFind.init ops.

Lemma step_registered s o z :
  forest s → registered (step o s).2 z ↔ registered s z ∨ o = MakeSet z.
Proof.
  intros Hs. destruct o as [x|x|x y]; cbn.
  - rewrite make_set_registered. naive_solver.
  - unfold mbind, stateful_bind.
    destruct (decide (registered s x)) as [Hx|Hx].
    + destruct (find_ok s x Hs Hx) as (path & r & Hc & ->). cbn.
      destruct (repoint_forest s path x r Hs Hc) as (_ & Hreg & _).
      rewrite Hreg. naive_solver.
    + rewrite find_unregistered by done. cbn. naive_solver.
  - destruct (decide (registered s x)) as [Hx|Hx].
    + destruct (find_ok s x Hs Hx) as (px & rx & Hcx & Hfx).
      destruct (repoint_forest s px x rx Hs Hcx) as (Hs1 & Hreg1 & _).
      destruct (decide (registered s y)) as [Hy|Hy].
      * destruct (union_merges s x y Hs Hx Hy)
          as (s' & ? & ? & ? & -> & _ & Hreg & _). cbn.
        rewrite Hreg. naive_solver.
      * unfold UnionFind.union, mbind, stateful_bind. rewrite Hfx.
        rewrite find_unregistered by (by rewrite Hreg1). cbn.
        rewrite Hreg1. naive_solver.
    + unfold UnionFind.union, mbind, stateful_bind.
      rewrite find_unregistered by done. cbn. naive_solver.
Qed.

Lemma after_forest ops :
  forest (after ops) ∧ ∀ z, registered (after ops) z ↔ MakeSet z ∈ ops.
Proof.
  induction ops as [|o ops [IHf IHr]] using rev_ind.
  - split; [apply forest_init|]. intros z. split.
    + intros [v Hv]. cbn in Hv. by rewrite lookup_empty in Hv.
    + by intros ?%elem_of_nil.
  - unfold after in *. rewrite foldl_app. cbn. split.
    + by apply step_forest.
    + intros z. rewrite step_registered by done.
      rewrite IHr, elem_of_app, list_elem_of_singleton. naive_solver.
Qed.

(** C6.  After any sequence of operations, [find x] raises [KeyError] and
    leaves the forest untouched when [make_set x] was never called.  When
    it was, [find x] returns the root [r] that the parent links lead to
    from [x], and afterwards every element visited on the way has [r] as
    its parent, every other parent link and every rank is as before. *)
Theorem find_registered_or_raises ops x :
  let s := after ops in
  (MakeSet x ∉ ops → UnionFind.find x s = (Raise KeyError, s))
  ∧ (MakeSet x ∈ ops →
       ∃ path r s',
         UnionFind.find x s = (Ok r, s')
         ∧ climbs (UnionFind.parent s) path x r
         ∧ UnionFind.parent s !! r = Some r
         ∧ (∀ z, z ∈ path ++ [r] → UnionFind.parent s' !! z = Some r)
         ∧ (∀ z, z ∉ path → UnionFind.parent s' !! z = UnionFind.parent s !! z)
         ∧ UnionFind.rank s' = UnionFind.rank s
         ∧ forest s').
Proof.
  intros s. destruct (after_forest ops) as [Hs Hreg]. fold s in Hs, Hreg.
  destruct (find_on_forest s x Hs) as [Hraise Hok]. split.
  - intros Hx. apply Hraise. by rewrite Hreg.
  - intros Hx. destruct Hok as (path & r & s' & Hfind & Hclimb & Hrest).
    { by apply Hreg. }
    exists path, r, s'. split; [done|]. split; [done|].
    split; [by eapply climbs_ends_at_root|done].
Qed.

(** C5.  [union x y] on registered elements of a forest first finds the
    two roots, which leaves the forest [s2] with the same roots as
    before.  If the roots are equal nothing else happens.  Otherwise the
    root of lower rank gets the other root as parent, and on equal ranks
    the root of [y] gets the root of [x] as parent and the rank of the
    root of [x] grows by one. *)
Theorem union_by_rank s x y :
  forest s → registered s x → registered s y →
  ∃ root_x root_y s1 s2 kx ky s',
    UnionFind.find x s = (Ok root_x, s1)
    ∧ UnionFind.find y s1 = (Ok root_y, s2)
    ∧ root_of s x root_x ∧ root_of s y root_y
    ∧ (∀ z r, root_of s2 z r ↔ root_of s z r)
    ∧ UnionFind.rank s2 = UnionFind.rank s
    ∧ UnionFind.rank s2 !! root_x = Some kx
    ∧ UnionFind.rank s2 !! root_y = Some ky
    ∧ UnionFind.union x y s = (Ok (), s')
    ∧ (root_x = root_y → s' = s2)
    ∧ (root_x ≠ root_y → kx < ky →
         s' = UnionFind.Make (<[root_x := root_y]> (UnionFind.parent s2))
                (UnionFind.rank s2))
    ∧ (root_x ≠ root_y → kx > ky →
         s' = UnionFind.Make (<[root_y := root_x]> (UnionFind.parent s2))
                (UnionFind.rank s2))
    ∧ (root_x ≠ root_y → kx = ky →
         s' = UnionFind.Make (<[root_y := root_x]> (UnionFind.parent s2))
                (<[root_x := kx + 1]> (UnionFind.rank s2))).
Proof.
  intros Hs Hx Hy.
  destruct (union_ok s x y Hs Hx Hy)
    as (rx & ry & s1 & s2 & kx & ky & Hfx & Hfy & Hrx & Hry & Hs2 & Hreg
        & Hroots & Hrank & Hkx & Hky & Hunion).
  exists rx, ry, s1, s2, kx, ky, (linked s2 rx ry kx ky).
  split_and!; try done; unfold linked.
  - intros ->. by rewrite decide_True.
  - intros Hne Hlt. by rewrite decide_False, decide_True.
  - intros Hne Hgt. rewrite decide_False, decide_False, decide_True; [done..|lia|done].
  - intros Hne Heq. rewrite decide_False, decide_False, decide_False; [done|lia..|done].
Qed.

End DisjointSetForest.

Arguments op K : clear implicits.
Arguments MakeSet {K} x.
Arguments Find {K} x.
Arguments Union {K} x y.

(** The test of [tests/test_algorithms.py]: five sets, two unions, and the
    six calls of [find] made by its three assertions, in their order. *)
Definition test_union_find : stateful (UnionFind.t Z) (Z * Z * Z * Z * Z * Z) :=
  _ ← run (MakeSet <$> [0; 1; 2; 3; 4]);
  _ ← UnionFind.union 0 1;
  _ ← UnionFind.union 2 3;
  a ← UnionFind.find 0; b ← UnionFind.find 1;
  c ← UnionFind.find 2; d ← UnionFind.find 3;
  e ← UnionFind.find 0; f ← UnionFind.find 2;
  mret (a, b, c, d, e, f).

(** C3.  After any sequence of operations whose [find] and [union]
    arguments were registered beforehand, no operation has raised, and for
    registered [x] and [y] the two calls [find x], [find y] return the
    same root exactly when [x] and [y] are connected by the unions made.
    A further [union] of two connected elements returns without changing
    the root of any element.  In the test scenario [find 0 = find 1],
    [find 2 = find 3] and [find 0 ≠ find 2]. *)
Theorem find_follows_union_history :
  (∀ `{Countable K} (ops : list (op K)) (x y : K),
     well_formed ∅ ops → MakeSet x ∈ ops → MakeSet y ∈ ops →
     ∃ s root_x root_y s1 s2,
       run ops UnionFind.init = (Ok (), s)
       ∧ UnionFind.find x s = (Ok root_x, s1)
       ∧ UnionFind.find y s1 = (Ok root_y, s2)
       ∧ (root_x = root_y ↔ connected ops x y)
       ∧ (connected ops x y →
            ∃ s', UnionFind.union x y s = (Ok (), s')
                  ∧ forest s'
                  ∧ ∀ z r, root_of s' z r ↔ root_of s z r))
  ∧ ∃ a b c d e f s,
      test_union_find UnionFind.init = (Ok (a, b, c, d, e, f), s)
      ∧ a = b ∧ c = d ∧ e ≠ f.
Proof.
  split.
  - intros K ? ? ops x y Hwf Hx Hy.
    destruct (run_agrees ops UnionFind.init [] forest_init agrees_init)
      as (s & Hrun & Hs & Hag & Hreg); [done|].
    cbn in Hag.
    assert (registered s x) as Hrx by (apply Hreg; auto).
    assert (registered s y) as Hry by (apply Hreg; auto).
    destruct (union_ok s x y Hs Hrx Hry)
      as (rx & ry & s1 & s2 & kx & ky & Hfx & Hfy & Hroot_x & Hroot_y & Hs2
          & _ & Hroots & _ & _ & _ & Hunion).
    exists s, rx, ry, s1, s2. split_and!; try done.
    + split.
      * intros ->. by eapply agrees_connected.
      * intros Hxy. by eapply agrees_same_root.
    + intros Hxy. exists s2. split_and!; try done.
      rewrite Hunion. unfold linked. rewrite decide_True; [done|].
      by eapply agrees_same_root.
  - by vm_compute; eexists _, _, _, _, _, _, _.
Qed.

(** Concrete instances: the forest of the test after its five [make_set]
    calls, and the operations of the test. *)
Definition five_sets : UnionFind.t Z :=
  foldl (λ s x, UnionFind.make_set x s) UnionFind.init [0; 1; 2; 3; 4].

Lemma five_sets_forest : forest five_sets.
Proof. unfold five_sets. cbn. repeat apply make_set_forest. apply forest_init. Qed.

Lemma five_sets_registered x : x ∈ [0; 1; 2; 3; 4] → registered five_sets x.
Proof.
  intros Hx. unfold five_sets. cbn. rewrite !make_set_registered.
  set_solver.
Qed.

Lemma forest_invariant_preserved_witness :
  forest five_sets
  ∧ forest (step (Union 0 1) five_sets).2
  ∧ rank_le five_sets (step (Union 0 1) five_sets).2.
Proof.
  split; [apply five_sets_forest|].
  pose proof (forest_invariant_preserved five_sets (Union 0 1) five_sets_forest)
    as (Hforest & _ & _ & Hrank).
  split; [exact Hforest|exact Hrank].
Defined.

Lemma find_registered_or_raises_witness :
  (MakeSet 7 ∉ (MakeSet <$> [0; 1; 2; 3; 4]))
  ∧ (MakeSet 3 ∈ (MakeSet <$> [0; 1; 2; 3; 4]))
  ∧ UnionFind.find 7 (after (MakeSet <$> [0; 1; 2; 3; 4]))
    = (Raise KeyError, after (MakeSet <$> [0; 1; 2; 3; 4]))
  ∧ ∃ r s', UnionFind.find 3 (after (MakeSet <$> [0; 1; 2; 3; 4])) = (Ok r, s').
Proof.
  assert (MakeSet 7 ∉ (MakeSet <$> [0; 1; 2; 3; 4])) as Hnot.
  { cbn. intros Hin.
    repeat (apply elem_of_cons in Hin as [Heq|Hin]; [discriminate|]).
    by apply elem_of_nil in Hin. }
  assert (MakeSet 3 ∈ (MakeSet <$> [0; 1; 2; 3; 4])) as Hin.
  { cbn. set_solver. }
  split; [done|]. split; [done|].
  destruct (find_registered_or_raises (MakeSet <$> [0; 1; 2; 3; 4]) 7)
    as [Hraise _].
  destruct (find_registered_or_raises (MakeSet <$> [0; 1; 2; 3; 4]) 3)
    as [_ Hok].
  split; [by apply Hraise|].
  destruct (Hok Hin) as (path & r & s' & Hfind & _). by exists r, s'.
Defined.

Lemma union_by_rank_witness :
  forest five_sets ∧ registered five_sets 0 ∧ registered five_sets 1
  ∧ ∃ s', UnionFind.union 0 1 five_sets = (Ok (), s').
Proof.
  assert (registered five_sets 0) as H0 by (apply five_sets_registered; set_solver).
  assert (registered five_sets 1) as H1 by (apply five_sets_registered; set_solver).
  split; [apply five_sets_forest|]. split; [done|]. split; [done|].
  destruct (union_by_rank five_sets 0 1 five_sets_forest H0 H1)
    as (? & ? & ? & ? & ? & ? & s' & _ & _ & _ & _ & _ & _ & _ & _ & Hunion & _).
  by exists s'.
Defined.

Definition test_operations : list (op Z) :=
  (MakeSet <$> [0; 1; 2; 3; 4]) ++ [Union 0 1; Union 2 3].

Lemma find_follows_union_history_witness :
  well_formed ∅ test_operations
  ∧ MakeSet 0 ∈ test_operations ∧ MakeSet 1 ∈ test_operations
  ∧ ∃ s root_x root_y s1 s2,
      run test_operations UnionFind.init = (Ok (), s)
      ∧ UnionFind.find 0 s = (Ok root_x, s1)
      ∧ UnionFind.find 1 s1 = (Ok root_y, s2)
      ∧ (root_x = root_y ↔ connected test_operations 0 1).
Proof.
  assert (well_formed (K := Z) ∅ test_operations) as Hwf.
  { cbn. split_and!; [set_solver..|done]. }
  assert (MakeSet 0 ∈ test_operations) as H0 by (cbn; set_solver).
  assert (MakeSet 1 ∈ test_operations) as H1 by (cbn; set_solver).
  split; [done|]. split; [done|]. split; [done|].
  destruct (proj1 find_follows_union_history Z _ _ test_operations 0 1 Hwf H0 H1)
    as (s & rx & ry & s1 & s2 & Hrun & Hfx & Hfy & Hiff & _).
  by exists s, rx, ry, s1, s2.
Defined.

(** * The traversals *)

Section ObjectGraph.
Variable heap : gmap Z GraphTraverser.pyobj.
Variable max_depth : Z.
Implicit Types (x y root current : Z) (visited : gset Z)
  (queue : list (Z * Z)).

(** [reach_in root n x]: [x] is reached from [root] by following [n]
    references. *)
Inductive reach_in root : nat → Z → Prop :=
  | reach_here : reach_in root 0 root
  | reach_next n y z :
      reach_in root n y → z ∈ GraphTraverser.references heap y →
      reach_in root (S n) z.

Definition reachable_within (bound : Z) root x : Prop :=
  ∃ n, reach_in root n x ∧ Z.of_nat n ≤ bound.

(** ** [dfs] *)

Lemma dfs_helper_unfold fuel current depth visited :
  GraphTraverser._dfs_helper (S fuel) heap max_depth current depth visited
  = if bool_decide (depth > max_depth ∨ current ∈ visited) then Ok visited
    else for_each
           (λ visited attr_value,
              GraphTraverser._dfs_helper fuel heap max_depth attr_value
                (depth + 1) visited)
           (GraphTraverser.references heap current) ({[current]} ∪ visited).
Proof. done. Qed.

(** [_dfs_helper] returns when given [max_depth + 2 - depth] levels of
    recursion, it only adds to [visited], and what it adds is within
    [max_depth] references of the root. *)
Lemma dfs_helper_sound root fuel current (n : nat) visited :
  (Z.to_nat (max_depth + 1 - Z.of_nat n) < fuel)%nat →
  reach_in root n current →
  (∀ x, x ∈ visited → reachable_within max_depth root x) →
  ∃ visited',
    GraphTraverser._dfs_helper fuel heap max_depth current (Z.of_nat n) visited
    = Ok visited'
    ∧ visited ⊆ visited'
    ∧ ∀ x, x ∈ visited' → reachable_within max_depth root x.
Proof.
  revert current n visited.
  induction fuel as [|fuel IH]; intros current n visited Hfuel Hreach Hvis;
    [lia|].
  rewrite dfs_helper_unfold. case_bool_decide as Hstop.
  { by exists visited. }
  assert (Z.of_nat n ≤ max_depth ∧ current ∉ visited) as [Hle Hnew].
  { split; [|tauto]. destruct (decide (Z.of_nat n ≤ max_depth)); [done|].
    exfalso. apply Hstop. left. lia. }
  set (P := λ v : gset Z,
         visited ⊆ v ∧ ∀ x, x ∈ v → reachable_within max_depth root x).
  destruct (for_each_invariant P
              (λ v attr_value,
                 GraphTraverser._dfs_helper fuel heap max_depth attr_value
                   (Z.of_nat n + 1) v)
              (GraphTraverser.references heap current) ({[current]} ∪ visited))
    as (v' & Hv' & Hsub & Hall).
  - intros v child Hchild [Hsub Hall].
    replace (Z.of_nat n + 1) with (Z.of_nat (S n)) by lia.
    destruct (IH child (S n) v) as (v' & Hv' & Hsub' & Hall').
    + lia.
    + by apply reach_next with current.
    + done.
    + exists v'. split; [done|]. split; [set_solver|done].
  - split; [set_solver|]. intros x Hx.
    apply elem_of_union in Hx as [Hx|Hx]; [|by apply Hvis].
    apply elem_of_singleton in Hx as ->. by exists n.
  - exists v'. by rewrite Hv'.
Qed.

(** More frames change nothing but an overflow. *)
Lemma dfs_helper_frames fuel fuel' current depth visited :
  (fuel ≤ fuel')%nat →
  overflows_or
    (GraphTraverser._dfs_helper fuel heap max_depth current depth visited)
    (GraphTraverser._dfs_helper fuel' heap max_depth current depth visited).
Proof.
  revert fuel' current depth visited.
  induction fuel as [|fuel IH]; intros fuel' current depth visited Hle;
    [by left|].
  destruct fuel' as [|fuel']; [lia|]. rewrite !dfs_helper_unfold.
  case_bool_decide; [by right|].
  apply overflows_or_for_each. intros v child. apply IH. lia.
Qed.

Lemma dfs_frames frames frames' root :
  (frames ≤ frames')%nat →
  overflows_or (GraphTraverser.dfs frames heap root max_depth)
    (GraphTraverser.dfs frames' heap root max_depth).
Proof. apply dfs_helper_frames. Qed.

Lemma dfs_negative_depth frames root :
  max_depth < 0 → GraphTraverser.dfs (S frames) heap root max_depth = Ok ∅.
Proof.
  intros Hneg. unfold GraphTraverser.dfs. rewrite dfs_helper_unfold.
  rewrite bool_decide_true; [done|]. left. lia.
Qed.

(** ** [bfs] *)

(** The children that one pass of the [for] loop of [bfs] enqueues: those
    not visited yet, each once, in the order of the references. *)
Fixpoint fresh visited (children : list Z) : list Z :=
  match children with
  | [] => []
  | c :: children =>
      if decide (c ∈ visited) then fresh visited children
      else c :: fresh ({[c]} ∪ visited) children
  end.

Lemma foldl_discover depth children visited queue :
  foldl (GraphTraverser.discover depth) (visited, queue) children
  = (visited ∪ list_to_set children,
     queue ++ ((λ c, (c, depth + 1)) <$> fresh visited children)).
Proof.
  revert visited queue.
  induction children as [|c children IH]; intros visited queue; cbn.
  - rewrite app_nil_r. f_equal. set_solver.
  - unfold GraphTraverser.discover at 2. cbn.
    destruct (decide (c ∈ visited)) as [Hc|Hc].
    + rewrite IH. f_equal. set_solver.
    + rewrite IH. rewrite <- app_assoc. f_equal. set_solver.
Qed.

Lemma elem_of_fresh visited children c :
  c ∈ fresh visited children ↔ c ∈ children ∧ c ∉ visited.
Proof.
  revert visited. induction children as [|c' children IH]; intros visited; cbn.
  - set_solver.
  - destruct (decide (c' ∈ visited)) as [Hc|Hc].
    + rewrite IH. set_solver.
    + rewrite !elem_of_cons, IH, not_elem_of_union, not_elem_of_singleton.
      destruct (decide (c = c')) as [->|Hne]; naive_solver.
Qed.

Lemma NoDup_fresh visited children : NoDup (fresh visited children).
Proof.
  revert visited. induction children as [|c children IH]; intros visited; cbn.
  - constructor.
  - destruct (decide (c ∈ visited)); [done|]. constructor; [|done].
    rewrite elem_of_fresh. set_solver.
Qed.

(** The queue holds at most two consecutive depths, the smaller one
    first, and nothing dequeued before was deeper. *)
Definition levels (d : Z) (finished queue : list (Z * Z)) : Prop :=
  ∃ front back,
    queue = front ++ back
    ∧ Forall (λ e, e.2 ≤ d) finished
    ∧ Forall (λ e, e.2 = d) front
    ∧ Forall (λ e, e.2 = d + 1) back.

(** The invariant of the [while] loop.  [finished] lists the entries
    dequeued so far, so that [finished ++ queue] lists every object
    discovered so far with the depth recorded at its discovery. *)
Record bfs_invariant root (finished : list (Z * Z))
    (st : gset Z * list (Z * Z)) : Prop := BfsInvariant {
  inv_visited : ∀ x, x ∈ st.1 ↔ x ∈ (finished ++ st.2).*1;
  inv_once : NoDup (finished ++ st.2).*1;
  inv_root : (root, 0) ∈ finished ++ st.2;
  inv_levels : ∃ d, levels d finished st.2;
  inv_closed : ∀ u du c,
    (u, du) ∈ finished → du < max_depth →
    c ∈ GraphTraverser.references heap u →
    ∃ dc, (c, dc) ∈ finished ++ st.2 ∧ dc ≤ du + 1;
  inv_sound : ∀ x dx,
    (x, dx) ∈ finished ++ st.2 →
    ∃ n, dx = Z.of_nat n ∧ reach_in root n x ∧ dx ≤ max_depth `max` 0;
  inv_discovered : ∀ x dx,
    (x, dx) ∈ finished ++ st.2 →
    (x = root ∧ dx = 0)
    ∨ ∃ u du, (u, du) ∈ finished ∧ du < max_depth
              ∧ x ∈ GraphTraverser.references heap u ∧ dx = du + 1
}.

Lemma bfs_invariant_init root :
  bfs_invariant root [] ({[root]}, [(root, 0)]).
Proof.
  split; cbn.
  - intros x. rewrite elem_of_singleton, list_elem_of_singleton. done.
  - apply NoDup_singleton.
  - by left.
  - exists 0, [(root, 0)], []. split_and!; try done.
    by repeat constructor.
  - intros u du c Hu. by apply elem_of_nil in Hu.
  - intros x dx Hx. apply list_elem_of_singleton in Hx. simplify_eq.
    exists 0%nat. split_and!; [done|constructor|lia].
  - intros x dx Hx. apply list_elem_of_singleton in Hx. simplify_eq. by left.
Qed.

Lemma levels_head d finished u du queue :
  levels d finished ((u, du) :: queue) →
  levels du (finished ++ [(u, du)]) queue
  ∧ ∀ e, e ∈ finished ++ (u, du) :: queue → e.2 ≤ du + 1.
Proof.
  intros (front & back & Hq & Hfin & Hfront & Hback).
  rewrite Forall_forall in Hfin. rewrite Forall_forall in Hfront.
  rewrite Forall_forall in Hback.
  destruct front as [|e front]; cbn in Hq.
  - subst back. assert (du = d + 1) as Hdu by (apply (Hback (u, du)); by left).
    split.
    + exists queue, []. rewrite app_nil_r. split_and!; try done.
      * apply Forall_forall. intros e He.
        apply elem_of_app in He as [He|He].
        -- apply Hfin in He. lia.
        -- apply list_elem_of_singleton in He as ->. cbn. lia.
      * apply Forall_forall. intros e He. rewrite Hdu. apply Hback. by right.
    + intros e He. apply elem_of_app in He as [He|He].
      * apply Hfin in He. lia.
      * apply Hback in He. lia.
  - simplify_eq. assert (du = d) as Hdu by (apply (Hfront (u, du)); by left).
    split.
    + exists front, back. split_and!; try done.
      * apply Forall_forall. intros e He.
        apply elem_of_app in He as [He|He].
        -- apply Hfin in He. lia.
        -- apply list_elem_of_singleton in He as ->. cbn. lia.
      * apply Forall_forall. intros e He. rewrite Hdu. apply Hfront. by right.
      * apply Forall_forall. intros e He. rewrite Hdu. by apply Hback.
    + intros e He. apply elem_of_app in He as [He|He].
      * apply Hfin in He. lia.
      * apply elem_of_cons in He as [->|He]; [cbn; lia|].
        apply elem_of_app in He as [He|He].
        -- assert (e.2 = d) by (apply Hfront; by right). lia.
        -- apply Hback in He. lia.
Qed.

Lemma levels_enqueue d finished queue new :
  levels d finished queue → Forall (λ e, e.2 = d + 1) new →
  levels d finished (queue ++ new).
Proof.
  intros (front & back & -> & Hfin & Hfront & Hback) Hnew.
  exists front, (back ++ new). rewrite app_assoc. split_and!; try done.
  by apply Forall_app.
Qed.

Lemma bfs_iteration_eq current depth visited queue :
  GraphTraverser.bfs_iteration heap max_depth current depth (visited, queue)
  = if decide (depth >= max_depth) then (visited, queue)
    else
      let children := GraphTraverser.references heap current in
      (visited ∪ list_to_set children,
       queue ++ ((λ c, (c, depth + 1)) <$> fresh visited children)).
Proof.
  unfold GraphTraverser.bfs_iteration. case_decide; [done|].
  apply foldl_discover.
Qed.

Lemma fst_enqueued depth (l : list Z) : ((λ c, (c, depth + 1)) <$> l).*1 = l.
Proof. rewrite <- list_fmap_compose. apply list_fmap_id. Qed.

Lemma elem_of_entries (l : list (Z * Z)) x : x ∈ l.*1 ↔ ∃ d, (x, d) ∈ l.
Proof.
  rewrite list_elem_of_fmap. split.
  - intros ([y d] & -> & Hin). by exists d.
  - intros [d Hin]. by exists (x, d).
Qed.

Lemma bfs_invariant_step root finished visited u du queue :
  bfs_invariant root finished (visited, (u, du) :: queue) →
  bfs_invariant root (finished ++ [(u, du)])
    (GraphTraverser.bfs_iteration heap max_depth u du (visited, queue)).
Proof.
  intros [Hvis Honce Hroot [d Hlev] Hclosed Hsound Hdisc]. cbn in *.
  destruct (levels_head _ _ _ _ _ Hlev) as [Hlev' Hbound].
  rewrite bfs_iteration_eq. case_decide as Hdeep.
  - split; cbn; rewrite <- ?app_assoc; cbn; try done.
    + by exists du.
    + intros u' du' c Hu' Hlt Hc. apply elem_of_app in Hu' as [Hu'|Hu'].
      * by eapply Hclosed.
      * apply list_elem_of_singleton in Hu'. simplify_eq. lia.
    + intros x dx Hx. destruct (Hdisc x dx Hx) as [?|(u' & du' & ? & ?)];
        [by left|].
      right. exists u', du'. rewrite elem_of_app. tauto.
  - set (children := GraphTraverser.references heap u).
    set (new := (λ c, (c, du + 1)) <$> fresh visited children).
    assert (∀ e, e ∈ finished ++ (u, du) :: queue →
                 e ∈ finished ++ (u, du) :: queue ++ new) as Hold.
    { intros e. rewrite !elem_of_app, !elem_of_cons, !elem_of_app. tauto. }
    split; cbn; rewrite <- ?app_assoc; cbn.
    + intros x. rewrite app_comm_cons, app_assoc, fmap_app.
      rewrite elem_of_app, <- Hvis. unfold new.
      rewrite fst_enqueued, elem_of_fresh, elem_of_union, elem_of_list_to_set.
      destruct (decide (x ∈ visited)); tauto.
    + rewrite app_comm_cons, app_assoc, fmap_app. apply NoDup_app.
      split; [done|]. unfold new. rewrite fst_enqueued.
      split; [|apply NoDup_fresh].
      intros x Hx. rewrite elem_of_fresh. apply Hvis in Hx. tauto.
    + by apply Hold.
    + exists du. apply levels_enqueue; [done|].
      apply Forall_forall. intros e He. unfold new in He.
      apply list_elem_of_fmap in He as (c & -> & _). done.
    + intros u' du' c Hu' Hlt Hc. apply elem_of_app in Hu' as [Hu'|Hu'].
      * destruct (Hclosed u' du' c Hu' Hlt Hc) as (dc & Hin & Hle).
        exists dc. split; [by apply Hold|done].
      * apply list_elem_of_singleton in Hu'. simplify_eq.
        destruct (decide (c ∈ visited)) as [Hseen|Hnew].
        -- apply Hvis, elem_of_entries in Hseen as [dc Hin].
           exists dc. split; [by apply Hold|]. by apply (Hbound (c, dc)).
        -- exists (du + 1). split; [|lia].
           rewrite app_comm_cons, app_assoc, elem_of_app. right.
           unfold new. apply list_elem_of_fmap. exists c. split; [done|].
           by apply elem_of_fresh.
    + intros x dx Hx. rewrite app_comm_cons, app_assoc, elem_of_app in Hx.
      destruct Hx as [Hx|Hx]; [by apply Hsound|].
      unfold new in Hx. apply list_elem_of_fmap in Hx as (c & Heq & Hc).
      simplify_eq. apply elem_of_fresh in Hc as [Hc _].
      destruct (Hsound u du) as (n & -> & Hreach & _).
      { rewrite elem_of_app. right. by left. }
      exists (S n). split_and!; [lia| |lia].
      by apply reach_next with u.
    + intros x dx Hx. rewrite app_comm_cons, app_assoc, elem_of_app in Hx.
      destruct Hx as [Hx|Hx].
      * destruct (Hdisc x dx Hx) as [?|(u' & du' & ? & ?)]; [by left|].
        right. exists u', du'. rewrite elem_of_app. tauto.
      * unfold new in Hx. apply list_elem_of_fmap in Hx as (c & Heq & Hc).
        simplify_eq. apply elem_of_fresh in Hc as [Hc _].
        right. exists u, du. rewrite elem_of_app, list_elem_of_singleton.
        split_and!; [by right|lia|done|done].
Qed.

(** The states of the [while] loop of [bfs root max_depth], each with the
    entries dequeued before it. *)
Inductive bfs_run root : list (Z * Z) → gset Z * list (Z * Z) → Prop :=
  | bfs_run_start : bfs_run root [] ({[root]}, [(root, 0)])
  | bfs_run_iteration finished visited current depth queue :
      bfs_run root finished (visited, (current, depth) :: queue) →
      bfs_run root (finished ++ [(current, depth)])
        (GraphTraverser.bfs_iteration heap max_depth current depth
           (visited, queue)).

Lemma bfs_run_invariant root finished st :
  bfs_run root finished st → bfs_invariant root finished st.
Proof.
  induction 1; [apply bfs_invariant_init|by apply bfs_invariant_step].
Qed.

(** ** Termination of the [while] loop *)

Lemma references_in_heap current c :
  c ∈ GraphTraverser.references heap current →
  c ∈ GraphTraverser.heap_references heap.
Proof.
  unfold GraphTraverser.references, GraphTraverser.heap_references.
  destruct (heap !! current) as [o|] eqn:Ho; [|by intros ?%elem_of_nil].
  intros Hc. apply list_elem_of_join. exists (GraphTraverser.obj_references o).
  split; [done|]. apply list_elem_of_fmap. exists (current, o).
  split; [done|]. by apply elem_of_map_to_list.
Qed.

Lemma size_list_to_set_le (l : list Z) :
  (size (list_to_set l : gset Z) ≤ length l)%nat.
Proof.
  induction l as [|x l IH]; cbn.
  - by rewrite size_empty.
  - rewrite size_union_alt, size_singleton.
    pose proof (subseteq_size (list_to_set l ∖ {[x]}) (list_to_set l : gset Z)
                  ltac:(set_solver)).
    lia.
Qed.

(** Entries still in the queue, plus reference slots whose object is not
    visited yet: each iteration lowers this by one. *)
Definition pending (st : gset Z * list (Z * Z)) : nat :=
  (length st.2
   + size (list_to_set (GraphTraverser.heap_references heap) ∖ st.1))%nat.

Lemma pending_iteration u du visited queue :
  (pending (GraphTraverser.bfs_iteration heap max_depth u du (visited, queue))
   ≤ pending (visited, queue))%nat.
Proof.
  rewrite bfs_iteration_eq. case_decide; [done|]. unfold pending. cbn.
  set (children := GraphTraverser.references heap u).
  set (slots := list_to_set (GraphTraverser.heap_references heap) : gset Z).
  rewrite length_app, length_fmap.
  rewrite <- (size_list_to_set (C := gset Z) (fresh visited children))
    by apply NoDup_fresh.
  assert (list_to_set (fresh visited children)
          ## slots ∖ (visited ∪ list_to_set children)) as Hdisj.
  { intros x Hx Hx'. apply elem_of_list_to_set, elem_of_fresh in Hx.
    set_solver. }
  assert (list_to_set (fresh visited children)
          ∪ slots ∖ (visited ∪ list_to_set children) ⊆ slots ∖ visited) as Hsub.
  { intros x Hx. apply elem_of_union in Hx as [Hx|Hx]; [|set_solver].
    apply elem_of_list_to_set, elem_of_fresh in Hx as [Hx Hnew].
    apply elem_of_difference. split; [|done].
    apply elem_of_list_to_set. by eapply references_in_heap. }
  apply subseteq_size in Hsub. rewrite size_union in Hsub by done. lia.
Qed.

Lemma bfs_loop_run root fuel finished st :
  bfs_run root finished st → (pending st ≤ fuel)%nat →
  ∃ visited finished',
    GraphTraverser.bfs_loop fuel heap max_depth st = Ok visited
    ∧ bfs_run root finished' (visited, []).
Proof.
  revert finished st.
  induction fuel as [|fuel IH]; intros finished [visited queue] Hrun Hfuel;
    destruct queue as [|[u du] queue].
  - by exists visited, finished.
  - unfold pending in Hfuel. cbn in Hfuel. lia.
  - by exists visited, finished.
  - cbn. apply (IH (finished ++ [(u, du)])).
    + by constructor.
    + pose proof (pending_iteration u du visited queue) as Hle.
      unfold pending in Hfuel, Hle |- *. cbn in Hfuel, Hle. lia.
Qed.

Lemma bfs_runs root :
  ∃ visited finished,
    GraphTraverser.bfs heap root max_depth = Ok visited
    ∧ bfs_run root finished (visited, []).
Proof.
  apply (bfs_loop_run root _ []); [constructor|].
  unfold pending. cbn.
  pose proof (size_list_to_set_le (GraphTraverser.heap_references heap)).
  pose proof (subseteq_size
    (list_to_set (GraphTraverser.heap_references heap) ∖ {[root]})
    (list_to_set (GraphTraverser.heap_references heap) : gset Z)
    ltac:(set_solver)).
  lia.
Qed.

(** [bfs] visits the root and exactly the objects within [max_depth]
    references of it. *)
Lemma bfs_visits root :
  ∃ visited,
    GraphTraverser.bfs heap root max_depth = Ok visited
    ∧ ∀ x, x ∈ visited ↔ x = root ∨ reachable_within max_depth root x.
Proof.
  destruct (bfs_runs root) as (visited & finished & Hbfs & Hrun).
  apply bfs_run_invariant in Hrun
    as [Hvis _ Hroot _ Hclosed Hsound _]. cbn in *.
  rewrite app_nil_r in *.
  exists visited. split; [done|]. intros x. split.
  - intros Hx. apply Hvis, elem_of_entries in Hx as [dx Hx].
    destruct (Hsound x dx Hx) as (n & -> & Hreach & Hle).
    destruct (decide (0 ≤ max_depth)).
    + right. exists n. split; [done|lia].
    + left. assert (n = 0%nat) as -> by lia. by inversion Hreach.
  - assert (∀ n y, reach_in root n y → Z.of_nat n ≤ max_depth →
              ∃ dy, (y, dy) ∈ finished ∧ dy ≤ Z.of_nat n) as Hcomplete.
    { induction 1 as [|n y z Hreach IH Hz]; intros Hle.
      - exists 0. split; [done|lia].
      - destruct IH as (dy & Hy & Hdy); [lia|].
        destruct (Hclosed y dy z Hy) as (dz & Hz' & Hdz); [lia|done|].
        exists dz. split; [done|lia]. }
    intros [->|(n & Hreach & Hle)].
    + apply Hvis, elem_of_entries. by exists 0.
    + destruct (Hcomplete n x Hreach Hle) as (dx & Hx & _).
      apply Hvis, elem_of_entries. by exists dx.
Qed.

(** ** [dfs] with a depth bound that is never met

    When [max_depth] is at least the number of objects in the heap, the
    recursion of [_dfs_helper] cannot get deeper than [max_depth]: the
    objects under traversal are distinct objects of the heap.  Then the
    visited set is closed under references. *)

Definition closed_outside (stack : list Z) visited : Prop :=
  ∀ x c, x ∈ visited → x ∉ stack →
         c ∈ GraphTraverser.references heap x → c ∈ visited.

Lemma references_in_dom current c :
  c ∈ GraphTraverser.references heap current → current ∈ dom heap.
Proof.
  unfold GraphTraverser.references. intros Hc. apply elem_of_dom.
  destruct (heap !! current); [done|]. by apply elem_of_nil in Hc.
Qed.

Lemma stack_length (stack : list Z) :
  NoDup stack → (∀ x, x ∈ stack → x ∈ dom heap) →
  (length stack ≤ size heap)%nat.
Proof.
  intros Hnd Hdom. rewrite <- (size_list_to_set (C := gset Z)) by done.
  rewrite <- (size_dom (D := gset Z) heap).
  apply subseteq_size. intros x Hx. apply Hdom. by apply elem_of_list_to_set in Hx.
Qed.

Lemma dfs_helper_closed fuel current stack visited visited' :
  Z.of_nat (size heap) ≤ max_depth →
  GraphTraverser._dfs_helper fuel heap max_depth current
    (Z.of_nat (length stack)) visited = Ok visited' →
  NoDup stack →
  (∀ x, x ∈ stack → x ∈ dom heap ∧ x ∈ visited) →
  closed_outside stack visited →
  visited ⊆ visited' ∧ current ∈ visited' ∧ closed_outside stack visited'.
Proof.
  intros Hbig. revert current stack visited visited'.
  induction fuel as [|fuel IH];
    intros current stack visited visited' Hdfs Hnd Hstack Hclosed; [done|].
  rewrite dfs_helper_unfold in Hdfs.
  pose proof (stack_length stack Hnd (λ x Hx, proj1 (Hstack x Hx))) as Hlen.
  case_bool_decide as Hstop.
  { simplify_eq. destruct Hstop as [?|?]; [lia|done]. }
  assert (current ∉ visited) as Hnew by tauto.
  assert (current ∉ stack) as Hnotin.
  { intros Hin. by apply Hstack in Hin as [_ ?]. }
  set (P := λ (handled : list Z) (v : gset Z),
         {[current]} ∪ visited ⊆ v
         ∧ closed_outside (current :: stack) v
         ∧ ∀ c, c ∈ handled → c ∈ v).
  assert (P (GraphTraverser.references heap current) visited')
    as (Hsub & Hclosed' & Hchildren).
  { eapply (for_each_prefix_invariant P); [exact Hdfs| |].
    - split; [done|]. split; [|by intros c ?%elem_of_nil].
      intros x c Hx Hx' Hc. apply not_elem_of_cons in Hx' as [Hne Hx'].
      apply elem_of_union_r. apply (Hclosed x c); [set_solver|done|done].
    - intros handled child v v' Hchild (Hsub & Hcl & Hhandled) Hcall.
      replace (Z.of_nat (length stack) + 1)
        with (Z.of_nat (length (current :: stack))) in Hcall by (cbn; lia).
      apply IH in Hcall as (Hsub' & Hin' & Hcl'); [| | |done].
      + split; [set_solver|]. split; [done|].
        intros c Hc. apply elem_of_app in Hc as [Hc|Hc]; [set_solver|].
        by apply list_elem_of_singleton in Hc as ->.
      + by constructor.
      + intros x Hx. apply elem_of_cons in Hx as [->|Hx].
        * split; [by eapply references_in_dom|set_solver].
        * destruct (Hstack x Hx). split; [done|set_solver]. }
  split; [set_solver|]. split; [set_solver|].
  intros x c Hx Hx' Hc. destruct (decide (x = current)) as [->|Hne].
  - by apply Hchildren.
  - apply (Hclosed' x c); [done| |done]. by apply not_elem_of_cons.
Qed.

(** ** [dfs] and the frames it needs

    The helper nests at most [max_depth + 2] calls: for the objects at
    depths 0 to [max_depth], and one more that returns at once.  And it
    nests at most one call more than there are objects in the heap: the
    objects under traversal are different objects of the heap, and the
    call below them is for an object that is visited already or that
    holds no reference. *)
Definition enough_frames (frames : nat) : Prop :=
  1 `max` (max_depth + 2) ≤ Z.of_nat frames ∨ (size heap < frames)%nat.

Lemma dfs_helper_returns fuel current depth stack visited :
  NoDup stack →
  (∀ x, x ∈ stack → x ∈ dom heap ∧ x ∈ visited) →
  (size heap < length stack + fuel)%nat →
  ∃ visited',
    GraphTraverser._dfs_helper fuel heap max_depth current depth visited
    = Ok visited'
    ∧ visited ⊆ visited'.
Proof.
  revert current depth stack visited.
  induction fuel as [|fuel IH]; intros current depth stack visited Hnd Hstack
    Hfuel.
  { pose proof (stack_length stack Hnd (λ x Hx, proj1 (Hstack x Hx))). lia. }
  rewrite dfs_helper_unfold. case_bool_decide as Hstop; [by exists visited|].
  assert (current ∉ visited) as Hnew by tauto.
  destruct (decide (current ∈ dom heap)) as [Hin|Hout].
  - destruct (for_each_invariant (λ v, {[current]} ∪ visited ⊆ v)
                (λ v attr_value,
                   GraphTraverser._dfs_helper fuel heap max_depth attr_value
                     (depth + 1) v)
                (GraphTraverser.references heap current)
                ({[current]} ∪ visited)) as (v' & Hv' & Hsub); [|done|].
    + intros v child _ Hv.
      destruct (IH child (depth + 1) (current :: stack) v)
        as (v' & Hcall & Hsub).
      * constructor; [|done]. intros Hc. by apply Hnew, Hstack.
      * intros x [->|Hx]%elem_of_cons; [set_solver|].
        destruct (Hstack x Hx). set_solver.
      * cbn. lia.
      * exists v'. split; [done|set_solver].
    + exists v'. split; [done|set_solver].
  - assert (GraphTraverser.references heap current = []) as ->.
    { unfold GraphTraverser.references.
      by rewrite (not_elem_of_dom_1 heap current Hout). }
    exists ({[current]} ∪ visited). split; [done|set_solver].
Qed.

Lemma dfs_sound_depth frames root :
  1 `max` (max_depth + 2) ≤ Z.of_nat frames →
  ∃ visited,
    GraphTraverser.dfs frames heap root max_depth = Ok visited
    ∧ ∀ x, x ∈ visited → reachable_within max_depth root x.
Proof.
  intros Hframes.
  destruct (dfs_helper_sound root frames root 0 ∅) as (v & Hv & _ & Hall).
  - lia.
  - constructor.
  - set_solver.
  - by exists v.
Qed.

(** With any number of frames, [dfs] returns what it returns with enough
    of them, or overflows. *)
Lemma dfs_returns_or_overflows frames root :
  ∃ visited,
    overflows_or (GraphTraverser.dfs frames heap root max_depth) (Ok visited)
    ∧ ∀ x, x ∈ visited → reachable_within max_depth root x.
Proof.
  set (enough := (frames `max` S (Z.to_nat (max_depth + 2)))%nat).
  destruct (dfs_sound_depth enough root) as (visited & Hdfs & Hsound).
  { unfold enough. lia. }
  exists visited. split; [|done].
  rewrite <- Hdfs. apply dfs_frames. unfold enough. lia.
Qed.

Lemma dfs_more_frames frames frames' root visited :
  (frames ≤ frames')%nat →
  GraphTraverser.dfs frames heap root max_depth = Ok visited →
  GraphTraverser.dfs frames' heap root max_depth = Ok visited.
Proof.
  intros Hle. apply overflows_or_Ok. by apply dfs_frames.
Qed.

Lemma dfs_returned frames root visited :
  GraphTraverser.dfs frames heap root max_depth = Ok visited →
  ∀ x, x ∈ visited → reachable_within max_depth root x.
Proof.
  intros Hdfs.
  destruct (dfs_returns_or_overflows frames root) as (v & Hv & Hsound).
  apply (overflows_or_Ok _ _ visited Hv) in Hdfs. by simplify_eq.
Qed.

Lemma dfs_sound frames root :
  enough_frames frames →
  ∃ visited,
    GraphTraverser.dfs frames heap root max_depth = Ok visited
    ∧ ∀ x, x ∈ visited → reachable_within max_depth root x.
Proof.
  intros [Hdepth|Hheap]; [by apply dfs_sound_depth|].
  destruct (dfs_helper_returns frames root 0 [] ∅) as (visited & Hdfs & _).
  - constructor.
  - by intros x ?%elem_of_nil.
  - cbn. lia.
  - exists visited. split; [done|]. by apply (dfs_returned frames).
Qed.

Lemma dfs_raises frames root e :
  GraphTraverser.dfs frames heap root max_depth = Raise e →
  e = RecursionError ∧ ¬ enough_frames frames.
Proof.
  intros Hdfs.
  destruct (dfs_returns_or_overflows frames root) as (v & Hv & _).
  split; [by eapply overflows_or_Raise|].
  intros Henough. destruct (dfs_sound frames root Henough) as (v' & Hv' & _).
  congruence.
Qed.

Lemma dfs_complete frames root visited :
  Z.of_nat (size heap) ≤ max_depth →
  GraphTraverser.dfs frames heap root max_depth = Ok visited →
  ∀ n x, reach_in root n x → x ∈ visited.
Proof.
  intros Hbig Hdfs.
  apply (dfs_helper_closed _ root [] ∅ visited Hbig) in Hdfs
    as (_ & Hroot & Hclosed).
  - induction 1 as [|n y z Hreach IH Hz]; [done|].
    apply (Hclosed y z); [done|by intros ?%elem_of_nil|done].
  - constructor.
  - by intros x ?%elem_of_nil.
  - by intros x c ?%elem_of_empty.
Qed.

End ObjectGraph.

Arguments reach_in heap root n x : assert.
Arguments reachable_within heap bound root x : assert.
Arguments enough_frames heap max_depth frames : assert.
Arguments bfs_run heap max_depth root finished st : assert.

(** A list [0] holding the lists [1] and [2], where [1] holds [2] again,
    [2] holds the list [3], and [3] is empty. *)
Definition shared_child_heap : gmap Z GraphTraverser.pyobj :=
  list_to_map
    [(0, GraphTraverser.PyObj None (GraphTraverser.PyList [1; 2]));
     (1, GraphTraverser.PyObj None (GraphTraverser.PyList [2]));
     (2, GraphTraverser.PyObj None (GraphTraverser.PyList [3]));
     (3, GraphTraverser.PyObj None (GraphTraverser.PyList []))].

(** With [max_depth = 2], [dfs] first meets [2] at depth 2, through [1],
    and does not descend to [3]; [bfs] meets [2] at depth 1 and visits
    [3].  The helper nests four calls, for [0], [1], [2] and [3]. *)
Lemma dfs_bfs_differ :
  (∀ frames, (4 ≤ frames)%nat →
     GraphTraverser.dfs frames shared_child_heap 0 2 = Ok {[0; 1; 2]})
  ∧ GraphTraverser.bfs shared_child_heap 0 2 = Ok {[0; 1; 2; 3]}
  ∧ ∀ frames,
      GraphTraverser.dfs frames shared_child_heap 0 2
      ≠ GraphTraverser.bfs shared_child_heap 0 2.
Proof.
  assert (GraphTraverser.dfs 4 shared_child_heap 0 2 = Ok {[0; 1; 2]}) as Hd
    by (by vm_compute).
  assert (GraphTraverser.bfs shared_child_heap 0 2 = Ok {[0; 1; 2; 3]}) as Hb
    by (by vm_compute).
  split; [|split; [done|]].
  - intros frames Hframes. by apply (dfs_more_frames _ _ 4).
  - intros frames. rewrite Hb. intros Heq.
    apply (dfs_more_frames _ _ _ (frames `max` 4)) in Heq; [|lia].
    rewrite (dfs_more_frames _ _ 4 (frames `max` 4) _ _ ltac:(lia) Hd) in Heq.
    assert (({[0; 1; 2]} : gset Z) = {[0; 1; 2; 3]}) as Hsets by congruence.
    assert (3 ∈ ({[0; 1; 2]} : gset Z)) as Hin.
    { rewrite Hsets. set_unfold. lia. }
    set_unfold. lia.
Qed.

(** C2, amended.  [bfs] returns.  [dfs] returns when the interpreter
    admits [max_depth + 2] nested calls, or more nested calls than there
    are objects in the heap; with fewer frames it returns or raises
    [RecursionError].  Whenever [dfs]
    returns, every object it visits is visited by [bfs]; and when
    [max_depth] is at least the number of objects in the heap, the two
    visited sets are equal. *)
Theorem dfs_visits_within_bfs frames heap root max_depth :
  ∃ by_bfs,
    GraphTraverser.bfs heap root max_depth = Ok by_bfs
    ∧ (enough_frames heap max_depth frames →
         ∃ by_dfs, GraphTraverser.dfs frames heap root max_depth = Ok by_dfs)
    ∧ (∀ e, GraphTraverser.dfs frames heap root max_depth = Raise e →
            e = RecursionError)
    ∧ ∀ by_dfs,
        GraphTraverser.dfs frames heap root max_depth = Ok by_dfs →
        by_dfs ⊆ by_bfs
        ∧ (Z.of_nat (size heap) ≤ max_depth → by_dfs = by_bfs).
Proof.
  destruct (bfs_visits heap max_depth root) as (by_bfs & Hbfs & Hvisits).
  exists by_bfs. split; [done|]. split_and!.
  - intros Hframes.
    destruct (dfs_sound heap max_depth frames root Hframes) as (v & Hv & _).
    by exists v.
  - intros e He. by destruct (dfs_raises heap max_depth frames root e He).
  - intros by_dfs Hdfs.
    pose proof (dfs_returned heap max_depth frames root by_dfs Hdfs) as Hsound.
    assert (by_dfs ⊆ by_bfs) as Hsub.
    { intros x Hx. apply Hvisits. right. by apply Hsound. }
    split; [done|]. intros Hbig. apply set_eq. intros x. split; [apply Hsub|].
    intros Hx. apply Hvisits in Hx as [->|(n & Hreach & _)].
    + apply (dfs_complete heap max_depth frames root by_dfs Hbig Hdfs 0).
      constructor.
    + by apply (dfs_complete heap max_depth frames root by_dfs Hbig Hdfs n).
Qed.

Lemma dfs_visits_within_bfs_witness :
  enough_frames shared_child_heap 4 6
  ∧ Z.of_nat (size shared_child_heap) ≤ 4
  ∧ GraphTraverser.dfs 6 shared_child_heap 0 4
    = GraphTraverser.bfs shared_child_heap 0 4.
Proof.
  assert (enough_frames shared_child_heap 4 6) as Hframes by (left; lia).
  assert (Z.of_nat (size shared_child_heap) ≤ 4) as Hbig by (by vm_compute).
  split; [done|]. split; [done|].
  destruct (dfs_visits_within_bfs 6 shared_child_heap 0 4)
    as (by_bfs & -> & Hreturns & _ & Hwithin).
  destruct (Hreturns Hframes) as (by_dfs & Hdfs).
  destruct (Hwithin by_dfs Hdfs) as [_ Heq].
  by rewrite Hdfs, Heq.
Defined.

(** C10.  [bfs] returns a set that contains the root, whatever
    [max_depth] is.  When [max_depth] is negative [dfs] returns the empty
    set, the interpreter admitting the one call of the helper, so the
    root is in the result of [bfs] and not in that of [dfs]; with no
    frame left [dfs] raises, and again differs from [bfs]. *)
Theorem bfs_keeps_root_dfs_drops_it frames heap root max_depth :
  (∃ by_bfs, GraphTraverser.bfs heap root max_depth = Ok by_bfs
             ∧ root ∈ by_bfs)
  ∧ (max_depth < 0 →
       ((0 < frames)%nat →
          GraphTraverser.dfs frames heap root max_depth = Ok ∅)
       ∧ GraphTraverser.dfs frames heap root max_depth
         ≠ GraphTraverser.bfs heap root max_depth).
Proof.
  destruct (bfs_visits heap max_depth root) as (by_bfs & Hbfs & Hvisits).
  assert (root ∈ by_bfs) as Hroot by (apply Hvisits; by left).
  split; [by exists by_bfs|]. intros Hneg.
  destruct frames as [|frames].
  - split; [lia|]. by rewrite Hbfs.
  - rewrite dfs_negative_depth by done. split; [done|].
    rewrite Hbfs. intros Heq. assert (by_bfs = ∅) as -> by congruence.
    set_solver.
Qed.

Lemma bfs_keeps_root_dfs_drops_it_witness :
  -1 < 0
  ∧ GraphTraverser.dfs 1 shared_child_heap 0 (-1) = Ok ∅
  ∧ ∃ by_bfs, GraphTraverser.bfs shared_child_heap 0 (-1) = Ok by_bfs
              ∧ 0 ∈ by_bfs.
Proof.
  assert (-1 < 0) as Hneg by lia. split; [done|].
  destruct (bfs_keeps_root_dfs_drops_it 1 shared_child_heap 0 (-1))
    as [Hbfs Hdfs].
  split; [apply Hdfs; [done|lia]|exact Hbfs].
Defined.

(** C8.  [bfs] returns after a run of its [while] loop, and in every
    state of that run: each visited object has exactly one entry among
    those dequeued and those still queued, made when it was discovered;
    the entry of the root has depth 0 and any other entry was made by a
    dequeued object of depth below [max_depth] that refers to it, with
    that object's depth plus one.  Dequeuing an entry leaves the other
    entries as they are and appends new ones: none when the entry's depth
    is [max_depth] or more, and otherwise one for each reference of the
    object that is not visited yet, one level deeper; the objects of the
    new entries are what is added to the visited set. *)
Theorem bfs_depth_bookkeeping heap max_depth root :
  (∃ visited finished,
     GraphTraverser.bfs heap root max_depth = Ok visited
     ∧ bfs_run heap max_depth root finished (visited, []))
  ∧ ∀ finished visited queue,
      bfs_run heap max_depth root finished (visited, queue) →
      NoDup (finished ++ queue).*1
      ∧ (∀ x, x ∈ visited ↔ x ∈ (finished ++ queue).*1)
      ∧ (∀ x dx, (x, dx) ∈ finished ++ queue →
           (x = root ∧ dx = 0)
           ∨ ∃ u du, (u, du) ∈ finished ∧ du < max_depth
                     ∧ x ∈ GraphTraverser.references heap u
                     ∧ dx = du + 1)
      ∧ ∀ current depth rest, queue = (current, depth) :: rest →
          ∃ new,
            GraphTraverser.bfs_iteration heap max_depth current depth
              (visited, rest)
            = (visited ∪ list_to_set new.*1, rest ++ new)
            ∧ current ∈ visited
            ∧ (depth >= max_depth → new = [])
            ∧ (depth < max_depth →
                 new = (λ c, (c, depth + 1))
                       <$> fresh visited
                             (GraphTraverser.references heap current)).
Proof.
  split; [apply bfs_runs|].
  intros finished visited queue Hrun.
  apply bfs_run_invariant in Hrun as [Hvis Honce _ _ _ _ Hdisc]. cbn in *.
  split; [done|]. split; [done|]. split; [done|].
  intros current depth rest ->.
  assert (current ∈ visited) as Hcurrent.
  { apply Hvis. rewrite fmap_app, elem_of_app. right. cbn. by left. }
  rewrite bfs_iteration_eq. case_decide as Hdeep.
  - exists []. rewrite app_nil_r. split_and!; [|done|done|lia].
    f_equal. set_solver.
  - exists ((λ c, (c, depth + 1))
            <$> fresh visited (GraphTraverser.references heap current)).
    split_and!; [|done|lia|done]. cbn. f_equal.
    rewrite fst_enqueued. apply set_eq. intros x.
    rewrite !elem_of_union, !elem_of_list_to_set, elem_of_fresh.
    destruct (decide (x ∈ visited)); tauto.
Qed.

Lemma bfs_depth_bookkeeping_witness :
  bfs_run shared_child_heap 2 0 [(0, 0)] ({[0; 1; 2]}, [(1, 1); (2, 1)])
  ∧ NoDup ([(0, 0)] ++ [(1, 1); (2, 1)]).*1.
Proof.
  assert (bfs_run shared_child_heap 2 0 [(0, 0)]
            ({[0; 1; 2]}, [(1, 1); (2, 1)])) as Hrun.
  { replace ({[0; 1; 2]}, [(1, 1); (2, 1)])
      with (GraphTraverser.bfs_iteration shared_child_heap 2 0 0 ({[0]}, []))
      by (by vm_compute).
    apply (bfs_run_iteration shared_child_heap 2 0 []). constructor. }
  split; [done|].
  by destruct (proj2 (bfs_depth_bookkeeping shared_child_heap 2 0) _ _ _ Hrun)
    as [Hnodup _].
Defined.

(** * The call graph *)

Section CallGraph.
Implicit Types (g : list (string * list string)) (b : CallGraphBuilder.t)
  (u v node : string) (calls : list (string * string)).

(** [node] calls [v]: [v] is in the adjacency list of [node]. *)
Definition calls_to g : relation string :=
  λ u v, v ∈ CallGraphBuilder.graph_get g u.

(** The builder after a sequence of [add_call (caller, callee)]. *)
Definition build calls : CallGraphBuilder.t :=
  foldl (λ b c, CallGraphBuilder.add_call c.1 c.2 b) CallGraphBuilder.init calls.

(** What [add_call] maintains: a key occurs once in the dictionary, and
    both ends of every edge are known functions. *)
Record well_formed_builder b : Prop := WellFormedBuilder {
  wf_keys : NoDup (CallGraphBuilder.graph b).*1;
  wf_functions : ∀ u v,
    calls_to (CallGraphBuilder.graph b) u v →
    u ∈ CallGraphBuilder.functions b ∧ v ∈ CallGraphBuilder.functions b
}.

Lemma graph_get_append g key x k :
  CallGraphBuilder.graph_get (CallGraphBuilder.graph_append g key x) k
  = if decide (k = key) then CallGraphBuilder.graph_get g key ++ [x]
    else CallGraphBuilder.graph_get g k.
Proof.
  induction g as [|[k' vs] g IH]; cbn.
  - destruct (decide (key = k)), (decide (k = key)); congruence.
  - destruct (decide (k' = key)) as [->|Hne]; cbn.
    + destruct (decide (key = k)), (decide (k = key)); congruence.
    + destruct (decide (k' = k)) as [->|Hne'].
      * by rewrite decide_False.
      * done.
Qed.

Lemma graph_append_keys g key x :
  (CallGraphBuilder.graph_append g key x).*1
  = if decide (key ∈ g.*1) then g.*1 else g.*1 ++ [key].
Proof.
  induction g as [|[k' vs] g IH]; cbn.
  - rewrite decide_False; [done|]. by intros ?%elem_of_nil.
  - destruct (decide (k' = key)) as [->|Hne]; cbn.
    + rewrite decide_True; [done|]. by left.
    + rewrite IH. destruct (decide (key ∈ g.*1)) as [Hin|Hnin].
      * rewrite decide_True; [done|]. by right.
      * rewrite decide_False; [done|].
        intros [?|?]%elem_of_cons; congruence.
Qed.

Lemma graph_get_not_key g k : k ∉ g.*1 → CallGraphBuilder.graph_get g k = [].
Proof.
  induction g as [|[k' vs] g IH]; cbn; [done|].
  intros [Hne Hnin]%not_elem_of_cons. rewrite decide_False by done. auto.
Qed.

Lemma graph_get_key g k : CallGraphBuilder.graph_get g k ≠ [] → k ∈ g.*1.
Proof.
  intros Hne. destruct (decide (k ∈ g.*1)); [done|].
  by rewrite graph_get_not_key in Hne.
Qed.

Lemma build_snoc calls c :
  build (calls ++ [c]) = CallGraphBuilder.add_call c.1 c.2 (build calls).
Proof. unfold build. by rewrite foldl_app. Qed.

Lemma build_calls_to calls u v :
  calls_to (CallGraphBuilder.graph (build calls)) u v ↔ (u, v) ∈ calls.
Proof.
  induction calls as [|[caller callee] calls IH] using rev_ind.
  - unfold calls_to. cbn. split; by intros ?%elem_of_nil.
  - rewrite build_snoc. unfold calls_to in *. cbn.
    rewrite graph_get_append, elem_of_app, list_elem_of_singleton.
    case_decide as Hu.
    + subst u. rewrite elem_of_app, list_elem_of_singleton, IH. naive_solver.
    + rewrite IH. naive_solver.
Qed.

Lemma build_functions calls f :
  f ∈ CallGraphBuilder.functions (build calls)
  ↔ ∃ c, c ∈ calls ∧ (f = c.1 ∨ f = c.2).
Proof.
  induction calls as [|[caller callee] calls IH] using rev_ind.
  - cbn. split; [by intros ?%elem_of_empty|].
    by intros (? & ?%elem_of_nil & _).
  - rewrite build_snoc. cbn. rewrite !elem_of_union, !elem_of_singleton, IH.
    split.
    + intros [->|[->|(c & Hc & Hf)]].
      * exists (caller, callee). rewrite elem_of_app, list_elem_of_singleton. auto.
      * exists (caller, callee). rewrite elem_of_app, list_elem_of_singleton. auto.
      * exists c. rewrite elem_of_app. auto.
    + intros (c & Hc & Hf). apply elem_of_app in Hc as [Hc|Hc].
      * right. right. by exists c.
      * apply list_elem_of_singleton in Hc as ->. cbn in Hf. tauto.
Qed.

Lemma build_well_formed calls : well_formed_builder (build calls).
Proof.
  split.
  - induction calls as [|[caller callee] calls IH] using rev_ind.
    + constructor.
    + rewrite build_snoc. cbn. rewrite graph_append_keys.
      case_decide as Hin; [done|]. apply NoDup_app. split; [done|].
      split; [|apply NoDup_singleton].
      intros x Hx ->%list_elem_of_singleton. done.
  - intros u v Huv%build_calls_to. rewrite !build_functions.
    split; exists (u, v); auto.
Qed.

(** ** Counting incoming edges *)

(** How often [n] occurs in an adjacency list. *)
Definition occurrences (n : string) (vs : list string) : Z :=
  Z.of_nat (length (filter (λ v, v = n) vs)).

(** The number of edges into [n] whose source is a key among [keys] and
    is not in [out]. *)
Fixpoint incoming_from g (keys out : list string) (n : string) : Z :=
  match keys with
  | [] => 0
  | k :: keys =>
      (if decide (k ∈ out) then 0
       else occurrences n (CallGraphBuilder.graph_get g k))
      + incoming_from g keys out n
  end.

Definition incoming g (out : list string) (n : string) : Z :=
  incoming_from g g.*1 out n.

Lemma occurrences_nonneg n vs : 0 ≤ occurrences n vs.
Proof. unfold occurrences. lia. Qed.

Lemma occurrences_cons n v vs :
  occurrences n (v :: vs) = (if decide (v = n) then 1 else 0) + occurrences n vs.
Proof.
  unfold occurrences. rewrite filter_cons. case_decide; cbn [length]; lia.
Qed.

Lemma occurrences_zero n vs : occurrences n vs = 0 ↔ n ∉ vs.
Proof.
  induction vs as [|v vs IH].
  - split; [by intros _ ?%elem_of_nil|done].
  - rewrite occurrences_cons, not_elem_of_cons.
    pose proof (occurrences_nonneg n vs). case_decide; [|naive_solver lia].
    split; [lia|]. intros [? _]. congruence.
Qed.

Lemma incoming_from_nonneg g keys out n : 0 ≤ incoming_from g keys out n.
Proof.
  induction keys as [|k keys IH]; cbn; [done|].
  pose proof (occurrences_nonneg n (CallGraphBuilder.graph_get g k)).
  case_decide; lia.
Qed.

Lemma incoming_from_zero g keys out n :
  incoming_from g keys out n = 0
  ↔ ∀ u, u ∈ keys → calls_to g u n → u ∈ out.
Proof.
  induction keys as [|k keys IH]; cbn.
  - split; [by intros _ u ?%elem_of_nil|done].
  - pose proof (incoming_from_nonneg g keys out n).
    pose proof (occurrences_nonneg n (CallGraphBuilder.graph_get g k)).
    split.
    + intros Hzero u [<-|Hu]%elem_of_cons Hcall.
      * destruct (decide (u ∈ out)) as [|Hout]; [done|].
        assert (occurrences n (CallGraphBuilder.graph_get g u) = 0) as Hocc
          by lia.
        by apply occurrences_zero in Hocc.
      * apply IH; [|done..]. case_decide; lia.
    + intros Hall.
      assert (incoming_from g keys out n = 0) as ->.
      { apply IH. intros u Hu. apply Hall. by right. }
      case_decide as Hk; [done|].
      rewrite Z.add_0_r. apply occurrences_zero. intros Hcall.
      apply Hk, Hall; [by left|done].
Qed.

Lemma incoming_zero g out n :
  incoming g out n = 0 ↔ ∀ u, calls_to g u n → u ∈ out.
Proof.
  unfold incoming. rewrite incoming_from_zero. split.
  - intros Hall u Hcall. apply Hall; [|done].
    apply graph_get_key. intros Hnil. unfold calls_to in Hcall.
    rewrite Hnil in Hcall. by apply elem_of_nil in Hcall.
  - intros Hall u _. apply Hall.
Qed.

Lemma incoming_from_pending g keys out n :
  incoming_from g keys out n ≠ 0 → ∃ u, calls_to g u n ∧ u ∉ out.
Proof.
  induction keys as [|k keys IH]; cbn; [done|].
  destruct (decide (incoming_from g keys out n = 0)) as [Hrest|Hrest]; [|auto].
  rewrite Hrest, Z.add_0_r. case_decide as Hk; [done|].
  intros Hocc. exists k. split; [|done].
  destruct (decide (n ∈ CallGraphBuilder.graph_get g k)) as [|Hnot]; [done|].
  by apply occurrences_zero in Hnot.
Qed.

Lemma incoming_pending g out n :
  incoming g out n ≠ 0 → ∃ u, calls_to g u n ∧ u ∉ out.
Proof. apply incoming_from_pending. Qed.

Lemma incoming_from_snoc g keys out u n :
  NoDup keys → u ∉ out →
  incoming_from g keys (out ++ [u]) n
  = incoming_from g keys out n
    - (if decide (u ∈ keys) then occurrences n (CallGraphBuilder.graph_get g u)
       else 0).
Proof.
  intros Hnd Hu. induction keys as [|k keys IH]; cbn; [done|].
  apply NoDup_cons in Hnd as [Hk Hnd]. rewrite IH by done.
  destruct (decide (k = u)) as [->|Hne].
  - rewrite (decide_True (P := u ∈ out ++ [u])) by set_solver.
    rewrite (decide_False (P := u ∈ out)) by done.
    rewrite (decide_True (P := u ∈ u :: keys)) by set_solver.
    rewrite (decide_False (P := u ∈ keys)) by done. lia.
  - destruct (decide (k ∈ out)) as [Hin|Hnin].
    + rewrite (decide_True (P := k ∈ out ++ [u])) by set_solver.
      destruct (decide (u ∈ keys)).
      * rewrite (decide_True (P := u ∈ k :: keys)) by set_solver. lia.
      * rewrite (decide_False (P := u ∈ k :: keys)) by set_solver. lia.
    + rewrite (decide_False (P := k ∈ out ++ [u])) by set_solver.
      destruct (decide (u ∈ keys)).
      * rewrite (decide_True (P := u ∈ k :: keys)) by set_solver. lia.
      * rewrite (decide_False (P := u ∈ k :: keys)) by set_solver. lia.
Qed.

Lemma incoming_snoc g out u n :
  NoDup g.*1 → u ∉ out →
  incoming g (out ++ [u]) n
  = incoming g out n - occurrences n (CallGraphBuilder.graph_get g u).
Proof.
  intros Hnd Hu. unfold incoming. rewrite incoming_from_snoc by done.
  case_decide as Hkey; [done|].
  rewrite graph_get_not_key by done. done.
Qed.

(** The dictionary [in_degree] before the [while] loop. *)
Lemma int_get_insert (d : gmap string Z) k (z : Z) n :
  CallGraphBuilder.int_get (<[k := z]> d) n
  = if decide (k = n) then z else CallGraphBuilder.int_get d n.
Proof.
  unfold CallGraphBuilder.int_get. rewrite lookup_insert.
  by case_decide.
Qed.

Lemma count_neighbors (d : gmap string Z) vs n :
  CallGraphBuilder.int_get
    (foldl (λ d neighbor,
              <[neighbor := CallGraphBuilder.int_get d neighbor + 1]> d) d vs) n
  = CallGraphBuilder.int_get d n + occurrences n vs.
Proof.
  revert d. induction vs as [|w vs IH]; intros d; cbn.
  - unfold occurrences. cbn. lia.
  - rewrite IH, int_get_insert, occurrences_cons.
    case_decide; [subst; lia|lia].
Qed.

Lemma count_keys g (d : gmap string Z) keys n :
  CallGraphBuilder.int_get
    (foldl
       (λ d node,
          foldl (λ d neighbor,
                   <[neighbor := CallGraphBuilder.int_get d neighbor + 1]> d)
            d (CallGraphBuilder.graph_get g node))
       d keys) n
  = CallGraphBuilder.int_get d n + incoming_from g keys [] n.
Proof.
  revert d. induction keys as [|k keys IH]; intros d; cbn; [lia|].
  rewrite IH, count_neighbors.
  rewrite decide_False by (by intros ?%elem_of_nil). lia.
Qed.

Lemma zero_in_degree (d : gmap string Z) order n :
  CallGraphBuilder.int_get d n = 0 →
  CallGraphBuilder.int_get (foldl (λ d node, <[node := 0]> d) d order) n = 0.
Proof.
  revert d. induction order as [|k order IH]; intros d Hd; cbn; [done|].
  apply IH. rewrite int_get_insert. by case_decide.
Qed.

Lemma initial_in_degree_incoming order g n :
  CallGraphBuilder.int_get (CallGraphBuilder.initial_in_degree order g) n
  = incoming g [] n.
Proof.
  unfold CallGraphBuilder.initial_in_degree, incoming.
  rewrite count_keys, zero_in_degree; done.
Qed.

(** ** Kahn's algorithm *)

(** Every caller of a listed function is listed before it. *)
Definition callers_first g (out : list string) : Prop :=
  ∀ before n after,
    out = before ++ n :: after → ∀ u, calls_to g u n → u ∈ before.

Section Kahn.
Variable g : list (string * list string).
Variable order : list string.
Hypothesis keys_once : NoDup g.*1.
Hypothesis targets_known : ∀ u v, calls_to g u v → v ∈ order.

(** The invariant of the [while] loop: [in_degree] counts the edges from
    functions not yet in [out]; the functions with count zero are those in
    [out] or in the queue; none is there twice. *)
Record kahn_invariant (in_degree : gmap string Z) (queue out : list string)
  : Prop := KahnInvariant {
  k_degree : ∀ n, CallGraphBuilder.int_get in_degree n = incoming g out n;
  k_ready : ∀ n, n ∈ order →
    (n ∈ out ++ queue ↔ CallGraphBuilder.int_get in_degree n = 0);
  k_once : NoDup (out ++ queue);
  k_known : ∀ n, n ∈ out ++ queue → n ∈ order;
  k_sorted : callers_first g out
}.

(** The inner [for neighbor] loop, started with [vs] still to handle. *)
Lemma release_all out vs (d : gmap string Z) (q : list string) :
  (∀ n, CallGraphBuilder.int_get d n = incoming g out n + occurrences n vs) →
  (∀ n, n ∈ order → (n ∈ out ++ q ↔ CallGraphBuilder.int_get d n = 0)) →
  NoDup (out ++ q) →
  (∀ n, n ∈ out ++ q → n ∈ order) →
  (∀ n, n ∈ vs → n ∈ order) →
  ∃ d' q',
    foldl CallGraphBuilder.release (d, q) vs = (d', q')
    ∧ (∀ n, CallGraphBuilder.int_get d' n = incoming g out n)
    ∧ (∀ n, n ∈ order → (n ∈ out ++ q' ↔ CallGraphBuilder.int_get d' n = 0))
    ∧ NoDup (out ++ q')
    ∧ (∀ n, n ∈ out ++ q' → n ∈ order).
Proof.
  revert d q. induction vs as [|nb vs IH]; intros d q Hdeg Hready Hnd Hknown Hvs.
  - exists d, q. split; [done|]. split; [|done].
    intros n. rewrite Hdeg. unfold occurrences. cbn. lia.
  - cbn [foldl]. unfold CallGraphBuilder.release at 2. cbn [fst snd].
    set (d1 := <[nb := CallGraphBuilder.int_get d nb - 1]> d).
    assert (∀ n, CallGraphBuilder.int_get d1 n
                 = incoming g out n + occurrences n vs) as Hdeg1.
    { intros n. unfold d1. rewrite int_get_insert.
      pose proof (Hdeg n) as Hn. rewrite occurrences_cons in Hn.
      case_decide as Heq; [subst n|]; lia. }
    assert (CallGraphBuilder.int_get d nb
            = CallGraphBuilder.int_get d1 nb + 1) as Hnb.
    { unfold d1. rewrite int_get_insert, decide_True by done. lia. }
    assert (0 ≤ CallGraphBuilder.int_get d1 nb) as Hpos.
    { rewrite Hdeg1. pose proof (occurrences_nonneg nb vs).
      pose proof (incoming_from_nonneg g g.*1 out nb). unfold incoming. lia. }
    assert (nb ∈ order) as Hnb_known by (apply Hvs; by left).
    assert (nb ∉ out ++ q) as Hfresh.
    { intros Hin. apply Hready in Hin; [|done]. lia. }
    assert (∀ n, n ≠ nb →
              CallGraphBuilder.int_get d1 n = CallGraphBuilder.int_get d n)
      as Hother.
    { intros n Hne. unfold d1. rewrite int_get_insert.
      by rewrite decide_False. }
    case_decide as Hzero.
    + apply IH; [done| | | |].
      * intros n Hn. destruct (decide (n = nb)) as [->|Hne].
        -- split; [done|]. intros _. set_solver.
        -- rewrite Hother by done. rewrite <- Hready by done. set_solver.
      * rewrite app_assoc. apply NoDup_app. split; [done|].
        split; [|apply NoDup_singleton].
        intros x Hx ->%list_elem_of_singleton. done.
      * intros n Hn. rewrite app_assoc in Hn.
        apply elem_of_app in Hn as [Hn|Hn]; [auto|].
        by apply list_elem_of_singleton in Hn as ->.
      * intros n Hn. apply Hvs. by right.
    + apply IH; [done| |done|done|].
      * intros n Hn. destruct (decide (n = nb)) as [->|Hne].
        -- split; [done|]. intros ?. done.
        -- rewrite Hother by done. by apply Hready.
      * intros n Hn. apply Hvs. by right.
Qed.

Lemma callers_first_snoc out u :
  callers_first g out → (∀ p, calls_to g p u → p ∈ out) →
  callers_first g (out ++ [u]).
Proof.
  intros Hsorted Hu before n after Heq p Hp.
  destruct after as [|a after _] using rev_ind.
  - apply app_inj_tail in Heq as [<- <-]. by apply Hu.
  - rewrite app_comm_cons, app_assoc in Heq.
    apply app_inj_tail in Heq as [Heq _]. by eapply Hsorted.
Qed.

Lemma kahn_loop_invariant fuel (d : gmap string Z) (q out : list string) :
  NoDup order →
  kahn_invariant d q out →
  (length order ≤ fuel + length out)%nat →
  ∃ d' sorted,
    CallGraphBuilder.kahn_loop fuel g d q out = Ok sorted
    ∧ kahn_invariant d' [] sorted.
Proof.
  intros Horder. revert d q out.
  induction fuel as [|fuel IH]; intros d q out Hinv Hfuel;
    destruct q as [|u q].
  - by exists d, out.
  - exfalso. destruct Hinv as [_ _ Hnd Hknown _].
    pose proof (submseteq_length _ _ (NoDup_submseteq _ _ Hnd Hknown)) as Hlen.
    rewrite length_app in Hlen. cbn in Hlen, Hfuel. lia.
  - by exists d, out.
  - cbn [CallGraphBuilder.kahn_loop].
    destruct Hinv as [Hdeg Hready Hnd Hknown Hsorted].
    assert (u ∉ out) as Hu.
    { apply NoDup_app in Hnd as (_ & Hdisj & _). intros Hin.
      apply (Hdisj u Hin). by left. }
    assert (∀ n, n ∈ (out ++ [u]) ++ q ↔ n ∈ out ++ u :: q) as Hsame.
    { intros n. by rewrite <- app_assoc. }
    destruct (release_all (out ++ [u]) (CallGraphBuilder.graph_get g u) d q)
      as (d' & q' & -> & Hdeg' & Hready' & Hnd' & Hknown').
    + intros n. rewrite Hdeg, incoming_snoc by done. lia.
    + intros n Hn. rewrite Hsame. by apply Hready.
    + by rewrite <- app_assoc.
    + intros n Hn. apply Hknown. by apply Hsame.
    + intros n Hn. by eapply targets_known.
    + apply IH.
      * split; try done. apply callers_first_snoc; [done|].
        apply incoming_zero. rewrite <- Hdeg. apply Hready.
        -- apply Hknown. set_solver.
        -- set_solver.
      * rewrite length_app. cbn. lia.
Qed.

End Kahn.

(** An enumeration of the set [self.functions]. *)
Definition enumerates (order : list string) b : Prop :=
  NoDup order ∧ ∀ f, f ∈ order ↔ f ∈ CallGraphBuilder.functions b.

Lemma enumerates_elements b : enumerates (elements (CallGraphBuilder.functions b)) b.
Proof. split; [apply NoDup_elements|]. intros f. apply elem_of_elements. Qed.

Lemma enumerates_length order b :
  enumerates order b → length order = size (CallGraphBuilder.functions b).
Proof.
  intros [Hnd Hin]. unfold size, set_size. cbn. apply Permutation_length.
  apply NoDup_Permutation; [done|apply NoDup_elements|].
  intros f. by rewrite Hin, elem_of_elements.
Qed.

(** [topological_sort] returns; its result lists functions, none twice,
    every caller before its callees; and a function is listed exactly when
    all its callers are. *)
Lemma topological_sort_returns b order :
  well_formed_builder b → enumerates order b →
  ∃ sorted,
    CallGraphBuilder.topological_sort order b = Ok sorted
    ∧ NoDup sorted
    ∧ (∀ n, n ∈ sorted → n ∈ order)
    ∧ callers_first (CallGraphBuilder.graph b) sorted
    ∧ (∀ n, n ∈ order →
         (n ∈ sorted ↔ ∀ u, calls_to (CallGraphBuilder.graph b) u n → u ∈ sorted))
    ∧ ∀ n, n ∈ order → n ∉ sorted →
        ∃ u, calls_to (CallGraphBuilder.graph b) u n ∧ u ∉ sorted.
Proof.
  intros [Hkeys Hfun] [Hnd Horder].
  unfold CallGraphBuilder.topological_sort.
  set (g := CallGraphBuilder.graph b).
  set (d := CallGraphBuilder.initial_in_degree order g).
  destruct (kahn_loop_invariant g order Hkeys) with
    (fuel := length order) (d := d) (out := @nil string)
    (q := filter (λ node, CallGraphBuilder.int_get d node = 0) order)
    as (d' & sorted & Hloop & [Hdeg Hready Hnd' Hknown Hsorted]).
  - intros u v Huv. apply Horder. by apply (Hfun u v).
  - done.
  - split.
    + intros n. apply initial_in_degree_incoming.
    + intros n Hn. cbn. rewrite list_elem_of_filter. tauto.
    + cbn. by apply NoDup_filter.
    + intros n Hn. cbn in Hn. by apply list_elem_of_filter in Hn as [_ ?].
    + intros before n after Heq. by destruct before.
  - cbn. lia.
  - rewrite app_nil_r in *. exists sorted. split_and!; try done.
    + intros n Hn. by rewrite (Hready n Hn), Hdeg, incoming_zero.
    + intros n Hn Hnot. apply incoming_pending.
      rewrite <- Hdeg. intros Hzero. by apply Hnot, Hready.
Qed.

(** ** Cycles *)

Lemma callers_first_path g out u n before after :
  callers_first g out → tc (calls_to g) u n →
  out = before ++ n :: after → u ∈ before.
Proof.
  intros Hsorted Hpath. revert before after.
  induction Hpath as [u n Hcall|u m n Hcall Hpath IH]; intros before after Heq.
  - by eapply Hsorted.
  - pose proof (IH before after Heq) as Hm.
    apply list_elem_of_split in Hm as (l1 & l2 & ->).
    rewrite <- app_assoc in Heq. cbn in Heq.
    apply elem_of_app. left. by eapply Hsorted.
Qed.

(** A function that can reach itself through calls is never listed. *)
Lemma callers_first_no_cycle g out c :
  callers_first g out → NoDup out → tc (calls_to g) c c → c ∉ out.
Proof.
  intros Hsorted Hnd Hcycle Hin.
  apply list_elem_of_split in Hin as (before & after & ->).
  pose proof (callers_first_path g _ c c before after Hsorted Hcycle eq_refl).
  apply NoDup_app in Hnd as (_ & Hdisj & _). apply (Hdisj c); [done|by left].
Qed.

(** ** Tarjan's algorithm: the state of a run *)

Section Tarjan.
Import CallGraphBuilder.
Variable g : list (string * list string).
Variable known : gset string.
Hypothesis targets_known : ∀ u v, calls_to g u v → v ∈ known.
Implicit Types (st s : tarjan) (ext : list string).

(** What holds of the shared variables between any two statements of a
    run.  [on_stack] is the characteristic function of [stack]; a function
    with an index has a low-link, which is at most the index; indices are
    below the counter; and only components of two or more functions have
    been reported. *)
Record consistent st : Prop := Consistent {
  c_on_stack : ∀ x, bool_get (on_stack st) x = true ↔ x ∈ stack st;
  c_stack_indexed : ∀ x, x ∈ stack st → is_Some (index st !! x);
  c_lowlinks : ∀ x, is_Some (index st !! x) → is_Some (lowlinks st !! x);
  c_counter : ∀ x i, index st !! x = Some i → i < index_counter st;
  c_low_le : ∀ x i l,
    index st !! x = Some i → lowlinks st !! x = Some l → l ≤ i;
  c_nodup : NoDup (stack st);
  c_known : ∀ x, is_Some (index st !! x) → x ∈ known;
  c_sccs : Forall (λ c, (2 ≤ length c)%nat) (sccs st)
}.

(** [st'] is a later state than [st]: indices are kept, the low-link of
    a function indexed in [st] is kept, reports are only added. *)
Record extends st st' : Prop := Extends {
  e_index : ∀ x i, index st !! x = Some i → index st' !! x = Some i;
  e_counter : index_counter st ≤ index_counter st';
  e_lowlinks : ∀ x, is_Some (index st !! x) → lowlinks st' !! x = lowlinks st !! x;
  e_sccs : sccs st `prefix_of` sccs st'
}.

Lemma extends_refl st : extends st st.
Proof. by split. Qed.

Lemma extends_trans st1 st2 st3 :
  extends st1 st2 → extends st2 st3 → extends st1 st3.
Proof.
  intros [Hi1 Hc1 Hl1 Hs1] [Hi2 Hc2 Hl2 Hs2]. split.
  - auto.
  - lia.
  - intros x [i Hx]. rewrite Hl2 by eauto. apply Hl1. eauto.
  - by etrans.
Qed.

(** The functions without an index: the recursion of [strongconnect] is
    at most this deep. *)
Definition unindexed st : nat := size (known ∖ dom (index st)).

Lemma unindexed_extends st st' : extends st st' → (unindexed st' ≤ unindexed st)%nat.
Proof.
  intros [Hi _ _ _]. unfold unindexed. apply subseteq_size. intros x.
  rewrite !elem_of_difference, !elem_of_dom. intros [? Hx]. split; [done|].
  intros [i Hi']. apply Hx. eauto.
Qed.

Lemma unindexed_enter node st s :
  index st !! node = None → node ∈ known →
  extends st s → is_Some (index s !! node) →
  (S (unindexed s) ≤ unindexed st)%nat.
Proof.
  intros Hnew Hknown [Hi _ _ _] Hnode. unfold unindexed.
  assert (known ∖ dom (index s) ⊂ known ∖ dom (index st)) as Hsub.
  { split.
    - intros x. rewrite !elem_of_difference, !elem_of_dom.
      intros [? Hx]. split; [done|]. intros [i Hi']. apply Hx. eauto.
    - intros Hsub. specialize (Hsub node).
      rewrite !elem_of_difference, !elem_of_dom in Hsub.
      destruct Hsub as [_ Hsub]; [|done]. split; [done|].
      rewrite Hnew. by intros [? ?]. }
  apply subset_size in Hsub. lia.
Qed.

(** ** The steps of [strongconnect] *)

Lemma bool_get_insert (d : gmap string bool) k (v : bool) x :
  bool_get (<[k := v]> d) x = if decide (k = x) then v else bool_get d x.
Proof. unfold bool_get. rewrite lookup_insert. by case_decide. Qed.

Lemma consistent_init : consistent tarjan_init.
Proof.
  split; cbn.
  - intros x. unfold bool_get. rewrite lookup_empty. cbn.
    split; [done|by intros ?%elem_of_nil].
  - by intros x ?%elem_of_nil.
  - intros x [? Hx]. by rewrite lookup_empty in Hx.
  - intros x i Hx. by rewrite lookup_empty in Hx.
  - intros x i l Hx. by rewrite lookup_empty in Hx.
  - constructor.
  - intros x [? Hx]. by rewrite lookup_empty in Hx.
  - constructor.
Qed.

Lemma consistent_enter node st :
  consistent st → index st !! node = None → node ∈ known →
  consistent (enter node st) ∧ extends st (enter node st).
Proof.
  intros [Hos Hsi Hlow Hcnt Hle Hnd Hknown Hsccs] Hnew Hnode. split; split; cbn.
  - intros x. rewrite bool_get_insert, elem_of_cons. case_decide.
    + naive_solver.
    + rewrite Hos. naive_solver.
  - intros x [->|Hx]%elem_of_cons.
    + rewrite lookup_insert_eq. eauto.
    + rewrite lookup_insert_ne; [auto|]. intros ->.
      apply Hsi in Hx as [? Hx]. congruence.
  - intros x. rewrite !lookup_insert_is_Some.
    intros [->|[Hne Hx]]; [by left|]. right. auto.
  - intros x i. rewrite lookup_insert_Some.
    intros [[_ <-]|[_ Hx]]; [lia|]. apply Hcnt in Hx. lia.
  - intros x i l. rewrite !lookup_insert_Some.
    intros [[<- <-]|[Hne Hx]] [[? <-]|[? Hl]]; try done; try lia.
    by eapply Hle.
  - apply NoDup_cons. split; [|done]. intros Hin.
    apply Hsi in Hin as [? Hin]. congruence.
  - intros x. rewrite lookup_insert_is_Some.
    intros [<-|[_ Hx]]; auto.
  - done.
  - intros x i Hx. rewrite lookup_insert_ne; [done|]. congruence.
  - lia.
  - intros x [i Hx]. rewrite lookup_insert_ne; [done|]. congruence.
  - done.
Qed.

Lemma consistent_set_lowlink node (v : Z) st i :
  consistent st → index st !! node = Some i → v ≤ i →
  consistent (set_lowlink node v st).
Proof.
  intros [Hos Hsi Hlow Hcnt Hle Hnd Hknown Hsccs] Hnode Hv. split; cbn; try done.
  - intros x Hx. rewrite lookup_insert_is_Some.
    destruct (decide (node = x)); auto.
  - intros x j l Hx. rewrite lookup_insert_Some.
    intros [[<- <-]|[_ Hl]]; [|by eapply Hle].
    simplify_eq. done.
Qed.

Definition clear_flags (os : gmap string bool) (popped : list string)
  : gmap string bool :=
  foldl (λ os x, <[x := false]> os) os popped.

Lemma bool_get_clear_flags os popped x :
  bool_get (clear_flags os popped) x
  = if decide (x ∈ popped) then false else bool_get os x.
Proof.
  revert os. induction popped as [|y popped IH]; intros os; cbn.
  - rewrite decide_False; [done|]. by intros ?%elem_of_nil.
  - unfold clear_flags in IH. rewrite IH, bool_get_insert.
    destruct (decide (x ∈ popped)) as [Hin|Hnin].
    + rewrite decide_True; [done|]. by right.
    + destruct (decide (y = x)) as [->|Hne].
      * rewrite decide_True; [done|]. by left.
      * rewrite decide_False; [done|]. by intros [?|?]%elem_of_cons.
Qed.

(** The [while True] loop pops the stack down to and including [node]. *)
Lemma pop_component_spec node ext rest os component :
  node ∉ ext →
  pop_component node (ext ++ node :: rest) os component
  = Ok (rest, clear_flags os (ext ++ [node]), component ++ ext ++ [node]).
Proof.
  revert os component. induction ext as [|x ext IH]; intros os component Hnode; cbn.
  - by rewrite decide_True.
  - apply not_elem_of_cons in Hnode as [Hne Hnode].
    rewrite decide_False by done. rewrite IH by done.
    by rewrite <- app_assoc.
Qed.

(** The state during the [for successor] loop of [strongconnect node],
    called in state [st]: [node] has the index it was given, and the stack
    is the stack of [st], then [node], then what the calls made so far
    have left on it. *)
Record in_loop node st s : Prop := InLoop {
  l_consistent : consistent s;
  l_extends : extends st s;
  l_index : index s !! node = Some (index_counter st);
  l_stack : ∃ ext, stack s = ext ++ node :: stack st
                   ∧ ∀ x, x ∈ ext → index st !! x = None
}.

Lemma in_loop_enter node st :
  consistent st → index st !! node = None → node ∈ known →
  in_loop node st (enter node st).
Proof.
  intros Hst Hnew Hnode.
  destruct (consistent_enter node st Hst Hnew Hnode) as [Hc He].
  split; [done|done|apply lookup_insert_eq|].
  exists []. split; [done|]. by intros x ?%elem_of_nil.
Qed.

Lemma in_loop_set_lowlink node st s (v : Z) :
  in_loop node st s → index st !! node = None → v ≤ index_counter st →
  in_loop node st (set_lowlink node v s).
Proof.
  intros [Hc [Hi Hcnt Hl Hs] Hidx Hstack] Hnew Hv. split.
  - by eapply consistent_set_lowlink.
  - split; cbn; try done.
    intros x [i Hx]. rewrite lookup_insert_ne; [eauto|]. congruence.
  - done.
  - done.
Qed.

(** The statements after the loop. *)
Lemma leave_spec node st s ext :
  in_loop node st s → index st !! node = None →
  stack s = ext ++ node :: stack st →
  ∃ low s',
    lowlinks s !! node = Some low
    ∧ leave node s = Ok s'
    ∧ consistent s' ∧ extends st s'
    ∧ index s' = index s ∧ lowlinks s' = lowlinks s
    ∧ if decide (low = index_counter st) then
        stack s' = stack st
        ∧ sccs s' = if decide (ext = []) then sccs s
                    else sccs s ++ [ext ++ [node]]
      else s' = s.
Proof.
  intros [Hc He Hidx _] Hnew Hstack.
  destruct (c_lowlinks s Hc node) as [low Hlow]; [eauto|].
  exists low. unfold leave, subscript. rewrite Hlow, Hidx. cbn.
  destruct (decide (low = index_counter st)) as [->|Hne]; [|by exists s].
  assert (NoDup (ext ++ node :: stack st)) as Hnd.
  { rewrite <- Hstack. by apply c_nodup. }
  assert (node ∉ ext) as Hnode.
  { apply NoDup_app in Hnd as (_ & Hdisj & _). intros Hin.
    apply (Hdisj node Hin). by left. }
  rewrite Hstack, pop_component_spec by done. cbn.
  eexists. split; [done|]. split; [reflexivity|].
  destruct Hc as [Hos Hsi Hlw Hcnt Hle _ Hknown Hsccs].
  destruct He as [Hi Hcn Hl Hs].
  assert (∀ x, x ∈ stack st → x ∉ ext ++ [node]) as Hdisj.
  { intros x Hx Hin. apply NoDup_app in Hnd as (_ & Hd & Hnd').
    apply elem_of_app in Hin as [Hin|Hin].
    - apply (Hd x Hin). by right.
    - apply list_elem_of_singleton in Hin as ->.
      by apply NoDup_cons in Hnd' as [? _]. }
  split_and!; cbn; try done.
  - split; cbn; try done.
    + intros x. rewrite bool_get_clear_flags. case_decide as Hin.
      * split; [done|]. intros Hx. by apply Hdisj in Hx.
      * rewrite Hos, Hstack. rewrite elem_of_app, elem_of_cons.
        rewrite elem_of_app, list_elem_of_singleton in Hin. tauto.
    + intros x Hx. apply Hsi. rewrite Hstack. set_solver.
    + apply NoDup_app in Hnd as (_ & _ & Hnd).
      by apply NoDup_cons in Hnd as [_ ?].
    + rewrite length_app. cbn. case_decide; [|done].
      apply Forall_app. split; [done|]. constructor; [|done].
      rewrite length_app. cbn. lia.
  - split; cbn; try done.
    rewrite length_app. cbn. case_decide; [|done].
    by apply prefix_app_r.
  - rewrite length_app. cbn.
    destruct ext as [|x ext]; cbn.
    + by rewrite decide_False by lia.
    + by rewrite decide_True by lia.
Qed.

(** ** [strongconnect] returns *)

(** What a call [strongconnect node], made in state [st], has done when it
    returns in state [st']. *)
Record returned node st st' : Prop := Returned {
  r_consistent : consistent st';
  r_extends : extends st st';
  r_index : index st' !! node = Some (index_counter st);
  r_stack : ∃ ext, stack st' = ext ++ stack st
                   ∧ ∀ x, x ∈ ext → index st !! x = None
}.

Definition returns (recurse : string → tarjan → result tarjan) (fuel : nat)
  : Prop :=
  ∀ node st,
    consistent st → index st !! node = None → node ∈ known →
    (unindexed st ≤ fuel)%nat →
    ∃ st', recurse node st = Ok st' ∧ returned node st st'.

Lemma extends_unindexed_None st s x :
  extends st s → index s !! x = None → index st !! x = None.
Proof.
  intros [Hi _ _ _] Hx. destruct (index st !! x) as [i|] eqn:Hst; [|done].
  apply Hi in Hst. congruence.
Qed.

Lemma visit_in_loop recurse fuel node st s successor :
  returns recurse fuel →
  index st !! node = None →
  in_loop node st s → successor ∈ known → (unindexed s ≤ fuel)%nat →
  ∃ s', visit recurse node s successor = Ok s' ∧ in_loop node st s'.
Proof.
  intros Hrec Hnew Hs Hsucc Hfuel. unfold visit.
  pose proof Hs as [Hc He Hidx (ext & Hstack & Hext)].
  destruct (c_lowlinks s Hc node) as [low Hlow]; [eauto|].
  pose proof (c_low_le s Hc node _ _ Hidx Hlow) as Hle.
  destruct (decide (index s !! successor = None)) as [Hwhite|Hseen].
  - destruct (Hrec successor s Hc Hwhite Hsucc Hfuel)
      as (s1 & -> & [Hc1 He1 Hidx1 (ext1 & Hstack1 & Hext1)]). cbn.
    assert (index s1 !! node = Some (index_counter st)) as Hidx'.
    { by apply (e_index s s1 He1). }
    destruct (c_lowlinks s1 Hc1 node) as [low1 Hlow1]; [eauto|].
    destruct (c_lowlinks s1 Hc1 successor) as [low' Hlow']; [eauto|].
    unfold subscript. rewrite Hlow1, Hlow'. cbn.
    eexists. split; [done|]. apply in_loop_set_lowlink; [|done|].
    + split; [done|by eapply extends_trans|done|].
      exists (ext1 ++ ext). rewrite Hstack1, Hstack, <- app_assoc.
      split; [done|]. intros x [Hx|Hx]%elem_of_app; [|auto].
      eapply extends_unindexed_None; eauto.
    + pose proof (c_low_le s1 Hc1 node _ _ Hidx' Hlow1). lia.
  - destruct (bool_get (on_stack s) successor); [|by exists s].
    destruct (index s !! successor) as [idx|] eqn:Hidx_s; [|done].
    unfold subscript. rewrite Hlow, Hidx_s. cbn.
    eexists. split; [done|]. apply in_loop_set_lowlink; [done|done|lia].
Qed.

Lemma unindexed_pos node st :
  index st !! node = None → node ∈ known → (1 ≤ unindexed st)%nat.
Proof.
  intros Hnew Hnode. unfold unindexed.
  assert (size (known ∖ dom (index st)) ≠ 0%nat); [|lia].
  apply size_non_empty_iff. intros Hempty.
  assert (node ∈ known ∖ dom (index st)) as Hin; [|set_solver].
  apply elem_of_difference. split; [done|].
  rewrite elem_of_dom, Hnew. by intros [? ?].
Qed.

Lemma strongconnect_unfold fuel node st :
  strongconnect (S fuel) g node st
  = (s ← for_each (visit (strongconnect fuel g) node) (graph_get g node)
           (enter node st);
     leave node s).
Proof. done. Qed.

Lemma loop_in_loop fuel node st s vs :
  returns (strongconnect fuel g) fuel →
  index st !! node = None → node ∈ known → (unindexed st ≤ S fuel)%nat →
  (∀ v, v ∈ vs → v ∈ known) →
  in_loop node st s →
  ∃ s', for_each (visit (strongconnect fuel g) node) vs s = Ok s'
        ∧ in_loop node st s'.
Proof.
  intros Hrec Hnew Hnode Hfuel Hvs Hs.
  apply (for_each_invariant (in_loop node st)); [|done].
  intros s0 v Hv Hs0. eapply visit_in_loop; eauto.
  pose proof (unindexed_enter node st s0 Hnew Hnode (l_extends _ _ _ Hs0)
                ltac:(rewrite (l_index _ _ _ Hs0); eauto)).
  lia.
Qed.

Lemma strongconnect_returns fuel : returns (strongconnect fuel g) fuel.
Proof.
  induction fuel as [|fuel IH]; intros node st Hst Hnew Hnode Hfuel.
  { pose proof (unindexed_pos node st Hnew Hnode). lia. }
  rewrite strongconnect_unfold.
  destruct (loop_in_loop fuel node st (enter node st) (graph_get g node))
    as (s & -> & Hs); try done.
  { intros v Hv. by eapply targets_known. }
  { by apply in_loop_enter. }
  cbn. pose proof Hs as [Hc He Hidx (ext & Hstack & Hext)].
  destruct (leave_spec node st s ext Hs Hnew Hstack)
    as (low & s' & Hlow & -> & Hc' & He' & Hi' & Hl' & Hcase).
  exists s'. split; [done|]. split; [done|done|by rewrite Hi'|].
  case_decide.
  - destruct Hcase as [Hstack' _]. exists []. split; [done|].
    by intros x ?%elem_of_nil.
  - subst s'. exists (ext ++ [node]). rewrite Hstack, <- app_assoc.
    split; [done|]. intros x [Hx|Hx]%elem_of_app; [auto|].
    by apply list_elem_of_singleton in Hx as ->.
Qed.

Lemma strongconnect_returned fuel node st st' :
  strongconnect fuel g node st = Ok st' →
  consistent st → index st !! node = None → node ∈ known →
  (unindexed st ≤ fuel)%nat →
  returned node st st'.
Proof.
  intros Hcall Hst Hnew Hnode Hfuel.
  destruct (strongconnect_returns fuel node st Hst Hnew Hnode Hfuel)
    as (st'' & Hcall' & Hret).
  congruence.
Qed.

(** The three ways through the body of the loop. *)
Inductive visited_as (recurse : string → tarjan → result tarjan)
    (node : string) (s : tarjan) (successor : string) (s' : tarjan) : Prop :=
  | visited_new s1 low low' :
      index s !! successor = None →
      recurse successor s = Ok s1 →
      lowlinks s1 !! node = Some low →
      lowlinks s1 !! successor = Some low' →
      s' = set_lowlink node (low `min` low') s1 →
      visited_as recurse node s successor s'
  | visited_on_stack low idx :
      index s !! successor = Some idx →
      bool_get (on_stack s) successor = true →
      lowlinks s !! node = Some low →
      s' = set_lowlink node (low `min` idx) s →
      visited_as recurse node s successor s'
  | visited_done idx :
      index s !! successor = Some idx →
      bool_get (on_stack s) successor = false →
      s' = s →
      visited_as recurse node s successor s'.

Lemma visit_cases recurse node s successor s' :
  visit recurse node s successor = Ok s' →
  visited_as recurse node s successor s'.
Proof.
  unfold visit, subscript. intros Hvisit.
  destruct (decide (index s !! successor = None)) as [Hwhite|Hseen].
  - destruct (recurse successor s) as [s1|] eqn:Hrec; [|done]. cbn in Hvisit.
    destruct (lowlinks s1 !! node) as [low|] eqn:Hlow; [|done].
    destruct (lowlinks s1 !! successor) as [low'|] eqn:Hlow'; [|done].
    cbn in Hvisit. simplify_eq. by eapply visited_new.
  - destruct (index s !! successor) as [idx|] eqn:Hidx; [|done].
    destruct (bool_get (on_stack s) successor) eqn:Hos.
    + destruct (lowlinks s !! node) as [low|] eqn:Hlow; [|done].
      cbn in Hvisit. simplify_eq. by eapply visited_on_stack.
    + simplify_eq. by eapply visited_done.
Qed.

Lemma visit_in_loop_inv fuel node st s successor s' :
  visit (strongconnect fuel g) node s successor = Ok s' →
  index st !! node = None → node ∈ known → (unindexed st ≤ S fuel)%nat →
  in_loop node st s → calls_to g node successor →
  in_loop node st s'.
Proof.
  intros Hvisit Hnew Hnode Hfuel Hs Hcall.
  destruct (visit_in_loop (strongconnect fuel g) fuel node st s successor)
    as (s'' & Hvisit' & Hs''); try done.
  - apply strongconnect_returns.
  - by eapply targets_known.
  - pose proof (unindexed_enter node st s Hnew Hnode (l_extends _ _ _ Hs)
                  ltac:(rewrite (l_index _ _ _ Hs); eauto)).
    lia.
  - congruence.
Qed.

Lemma in_loop_fuel fuel node st s :
  index st !! node = None → node ∈ known → (unindexed st ≤ S fuel)%nat →
  in_loop node st s → (unindexed s ≤ fuel)%nat.
Proof.
  intros Hnew Hnode Hfuel Hs.
  pose proof (unindexed_enter node st s Hnew Hnode (l_extends _ _ _ Hs)
                ltac:(rewrite (l_index _ _ _ Hs); eauto)).
  lia.
Qed.

Lemma bind_Ok {A B} (m : result A) (k : A → result B) (b : B) :
  m ≫= k = Ok b → ∃ a, m = Ok a ∧ k a = Ok b.
Proof. destruct m as [a|e]; [|done]. intros Hk. by exists a. Qed.

(** ** Graphs without a cycle through two functions *)

(** Two different functions, each reachable from the other by calls. *)
Definition mutual (u v : string) : Prop :=
  u ≠ v ∧ rtc (calls_to g) u v ∧ rtc (calls_to g) v u.

(** Without such a pair, a call of [strongconnect] finds its own node on
    top of the stack when it returns, pops it alone and reports
    nothing. *)
Lemma strongconnect_alone fuel node st st' :
  (∀ u v, ¬ mutual u v) →
  strongconnect fuel g node st = Ok st' →
  consistent st → index st !! node = None → node ∈ known →
  (unindexed st ≤ fuel)%nat →
  (∀ x, x ∈ stack st → rtc (calls_to g) x node) →
  stack st' = stack st ∧ sccs st' = sccs st
  ∧ lowlinks st' !! node = Some (index_counter st).
Proof.
  intros Hacyclic. revert node st st'.
  induction fuel as [|fuel IH];
    intros node st st' Hcall Hst Hnew Hnode Hfuel Hreach; [done|].
  rewrite strongconnect_unfold in Hcall.
  apply bind_Ok in Hcall as (s & Hloop & Hleave).
  set (P := λ (_ : list string) s,
         in_loop node st s ∧ stack s = node :: stack st
         ∧ sccs s = sccs st
         ∧ lowlinks s !! node = Some (index_counter st)).
  assert (P (graph_get g node) s) as (Hs & Hstack & Hsccs & Hlow).
  { apply (for_each_prefix_invariant P _ _ _ _ Hloop).
    - split; [by apply in_loop_enter|]. split; [done|]. split; [done|].
      cbn. apply lookup_insert_eq.
    - intros handled v s0 s1 Hv (Hs0 & Hstack0 & Hsccs0 & Hlow0) Hvisit.
      pose proof (visit_in_loop_inv fuel node st s0 v s1 Hvisit Hnew Hnode
                    Hfuel Hs0 Hv) as Hs1.
      split; [done|].
      pose proof (l_consistent _ _ _ Hs0) as Hc0.
      pose proof (l_index _ _ _ Hs0) as Hidx0.
      destruct (visit_cases _ _ _ _ _ Hvisit)
        as [s2 low low' Hwhite Hrec Hl Hl' ->|low idx Hidx Hos Hl ->|idx Hidx Hos ->].
      + assert (v ∈ known) as Hvk by by eapply targets_known.
        pose proof (in_loop_fuel fuel node st s0 Hnew Hnode Hfuel Hs0) as Hf0.
        pose proof (strongconnect_returned fuel v s0 s2 Hrec Hc0 Hwhite Hvk Hf0)
          as [_ He2 _ _].
        destruct (IH v s0 s2 Hrec Hc0 Hwhite Hvk Hf0) as (Hst2 & Hsc2 & Hlv).
        { intros x. rewrite Hstack0. intros [->|Hx]%elem_of_cons.
          - by apply rtc_once.
          - eapply rtc_r; [by apply Hreach|done]. }
        cbn. split; [congruence|]. split; [congruence|].
        rewrite (e_lowlinks _ _ He2) in Hl by eauto.
        pose proof (c_counter _ Hc0 _ _ Hidx0).
        simplify_eq. rewrite lookup_insert_eq. f_equal. lia.
      + cbn. split; [done|]. split; [done|].
        rewrite lookup_insert_eq. simplify_eq. f_equal.
        apply (c_on_stack _ Hc0) in Hos. rewrite Hstack0 in Hos.
        apply elem_of_cons in Hos as [->|Hin].
        * simplify_eq. lia.
        * exfalso. apply (Hacyclic node v). split_and!.
          -- intros ->. pose proof (c_nodup _ Hc0) as Hnd.
             rewrite Hstack0 in Hnd. by apply NoDup_cons in Hnd as [? _].
          -- by apply rtc_once.
          -- by apply Hreach.
      + done. }
  destruct (leave_spec node st s [] Hs Hnew Hstack)
    as (low & s' & Hlow' & Hleave' & _ & _ & _ & Hl' & Hcase).
  assert (s' = st') as -> by congruence.
  assert (low = index_counter st) as -> by congruence.
  rewrite decide_True in Hcase by done.
  destruct Hcase as [Hstack' Hsccs']. rewrite decide_True in Hsccs' by done.
  split; [done|]. split; [congruence|]. by rewrite Hl'.
Qed.

(** ** Runs that report nothing *)

(** Functions in the order in which their calls returned, the latest
    first: every callee of a function, other than itself, returned
    before it. *)
Inductive finishing : list string → Prop :=
  | finishing_nil : finishing []
  | finishing_cons x fin :
      finishing fin →
      (∀ v, calls_to g x v → v ≠ x → v ∈ fin) →
      finishing (x :: fin).

(** [fin] lists the functions whose call has returned and that are off
    the stack. *)
Record finished (fin : list string) st : Prop := Finished {
  f_nodup : NoDup fin;
  f_finishing : finishing fin;
  f_members : ∀ x, x ∈ fin ↔ is_Some (index st !! x) ∧ x ∉ stack st
}.

(** No index and no low-link given since the counter was [base] is below
    [base], and nothing older is on the stack. *)
Record bounded (base : Z) st : Prop := Bounded {
  b_lowlinks : ∀ x i l,
    index st !! x = Some i → base ≤ i → lowlinks st !! x = Some l → base ≤ l;
  b_stack : ∀ x i, x ∈ stack st → index st !! x = Some i → base ≤ i
}.

Lemma bounded_set_lowlink base node (v : Z) st :
  bounded base st → base ≤ v → bounded base (set_lowlink node v st).
Proof.
  intros [Hl Hs] Hv. split; cbn; [|done].
  intros x i l Hx Hi. rewrite lookup_insert_Some.
  intros [[_ <-]|[_ Hlow]]; [done|by eapply Hl].
Qed.

Lemma finished_same fin st st' :
  index st' = index st → stack st' = stack st →
  finished fin st → finished fin st'.
Proof. intros Hi Hs [? ? Hm]. split; [done..|]. by rewrite Hi, Hs. Qed.

(** What a call that has returned leaves, when nothing was reported up to
    then: either the stack as it was, or its own node on the stack with a
    low-link below its index. *)
Definition outcome node st st' : Prop :=
  (stack st' = stack st ∧ ∃ fin, finished fin st')
  ∨ ∃ ext low,
      stack st' = ext ++ node :: stack st
      ∧ lowlinks st' !! node = Some low ∧ low < index_counter st.

Lemma strongconnect_silent fuel node st st' base fin :
  strongconnect fuel g node st = Ok st' →
  consistent st → index st !! node = None → node ∈ known →
  (unindexed st ≤ fuel)%nat →
  base ≤ index_counter st → bounded base st →
  bounded base st'
  ∧ (sccs st' = [] → finished fin st → outcome node st st').
Proof.
  revert node st st' base fin.
  induction fuel as [|fuel IH];
    intros node st st' base fin Hcall Hst Hnew Hnode Hfuel Hbase Hbound;
    [done|].
  rewrite strongconnect_unfold in Hcall.
  apply bind_Ok in Hcall as (s & Hloop & Hleave).
  set (idx := index_counter st).
  set (P := λ (handled : list string) s,
         in_loop node st s ∧ bounded base s
         ∧ (sccs s = [] → finished fin st →
              (∃ ext, ext ≠ [] ∧ stack s = ext ++ node :: stack st)
              ∨ (stack s = node :: stack st
                 ∧ ∃ fin', finished fin' s
                     ∧ (lowlinks s !! node = Some idx →
                          ∀ c, c ∈ handled → c ≠ node → c ∈ fin')))).
  assert (P (graph_get g node) s) as (Hs & Hbs & Hcases).
  { apply (for_each_prefix_invariant P _ _ _ _ Hloop).
    - split; [by apply in_loop_enter|]. split.
      + destruct Hbound as [Hl Hb]. split; cbn.
        * intros x i l. rewrite !lookup_insert_Some.
          intros [[<- <-]|[? Hx]] Hi [[? <-]|[? Hlow]]; try done.
          by eapply Hl.
        * intros x i [->|Hx]%elem_of_cons.
          -- rewrite lookup_insert_eq. intros [= <-]. done.
          -- rewrite lookup_insert_ne; [by apply Hb|]. intros ->.
             apply (c_stack_indexed _ Hst) in Hx as [? Hx]. congruence.
      + intros _ [Hnd Hfin Hmem]. right. split; [done|]. exists fin.
        split; [|by intros _ c ?%elem_of_nil].
        split; [done|done|]. intros x. rewrite Hmem. cbn.
        rewrite lookup_insert_is_Some, not_elem_of_cons.
        split.
        * intros [[i Hx] Hstk].
          assert (x ≠ node) as Hne by congruence.
          split_and!; [right; eauto|done|done].
        * intros [[->|[_ Hx]] [Hne Hstk]]; done.
    - intros handled v s0 s1 Hv (Hs0 & Hb0 & Hcases0) Hvisit.
      pose proof (visit_in_loop_inv fuel node st s0 v s1 Hvisit Hnew Hnode
                    Hfuel Hs0 Hv) as Hs1.
      split; [done|].
      pose proof (l_consistent _ _ _ Hs0) as Hc0.
      pose proof (l_index _ _ _ Hs0) as Hidx0. fold idx in Hidx0.
      pose proof (l_index _ _ _ Hs1) as Hidx1. fold idx in Hidx1.
      destruct (visit_cases _ _ _ _ _ Hvisit)
        as [s2 low low' Hwhite Hrec Hl Hl' ->|low idxv Hidxv Hos Hl ->|idxv Hidxv Hos ->].
      + assert (v ∈ known) as Hvk by by eapply targets_known.
        pose proof (in_loop_fuel fuel node st s0 Hnew Hnode Hfuel Hs0) as Hf0.
        pose proof (strongconnect_returned fuel v s0 s2 Hrec Hc0 Hwhite Hvk Hf0)
          as [Hc2 He2 Hidx2 (ext2 & Hstack2 & Hext2)].
        assert (base ≤ index_counter s0) as Hbase0.
        { pose proof (c_counter _ Hc0 _ _ Hidx0). unfold idx in *. lia. }
        assert (index s2 !! node = Some idx) as Hnode2
          by by apply (e_index _ _ He2).
        assert (lowlinks s2 !! node = lowlinks s0 !! node) as Hsame
          by (apply (e_lowlinks _ _ He2); eauto).
        assert (bounded base s2) as Hb2.
        { by destruct (IH v s0 s2 base [] Hrec Hc0 Hwhite Hvk Hf0 Hbase0 Hb0). }
        split.
        { apply bounded_set_lowlink; [done|].
          pose proof (b_lowlinks _ _ Hb2 node _ _ Hnode2 Hbase Hl).
          pose proof (b_lowlinks _ _ Hb2 v _ _ Hidx2 Hbase0 Hl'). lia. }
        cbn. intros Hnil Hdone.
        assert (sccs s0 = []) as Hnil0.
        { destruct (e_sccs _ _ He2) as [k Hk]. rewrite Hnil in Hk.
          symmetry in Hk. by apply app_eq_nil in Hk as [? _]. }
        destruct (Hcases0 Hnil0 Hdone)
          as [(ext & Hne & Hstack0)|(Hstack0 & fin0 & Hfin0 & Hin0)].
        * left. exists (ext2 ++ ext). split.
          -- intros [_ ?]%app_eq_nil. done.
          -- by rewrite Hstack2, Hstack0, <- app_assoc.
        * destruct (IH v s0 s2 base fin0 Hrec Hc0 Hwhite Hvk Hf0 Hbase0 Hb0)
            as [_ Hout].
          destruct (Hout Hnil Hfin0)
            as [(Hstack2' & fin2 & Hfin2)|(ext & lowv & Hstack2' & _)].
          -- right. split; [congruence|]. exists fin2. split.
             { by apply (finished_same _ s2). }
             rewrite lookup_insert_eq. intros [= Hmin] c Hc Hne.
             apply (f_members _ _ Hfin2).
             apply elem_of_app in Hc as [Hc|Hc].
             ++ assert (c ∈ fin0) as Hc0'.
                { apply Hin0; [|done..]. rewrite <- Hsame, Hl. f_equal.
                  pose proof (c_low_le _ Hc2 node _ _ Hnode2 Hl). lia. }
                apply (f_members _ _ Hfin0) in Hc0' as [[i Hi] Hstk].
                split; [|by rewrite Hstack2'].
                exists i. by apply (e_index _ _ He2).
             ++ apply list_elem_of_singleton in Hc as ->.
                split; [eauto|]. rewrite Hstack2'. intros Hin.
                apply (c_stack_indexed _ Hc0) in Hin as [? Hin]. congruence.
          -- left. exists (ext ++ [v]). split.
             { intros [_ ?]%app_eq_nil. done. }
             by rewrite Hstack2', Hstack0, <- app_assoc.
      + assert (v ∈ stack s0) as Hvstack by by apply (c_on_stack _ Hc0).
        pose proof (c_lowlinks _ Hc0 node ltac:(eauto)) as [? Hlow0].
        split.
        { apply bounded_set_lowlink; [done|].
          pose proof (b_lowlinks _ _ Hb0 node _ _ Hidx0 Hbase Hl).
          pose proof (b_stack _ _ Hb0 v _ Hvstack Hidxv). lia. }
        cbn. intros Hnil Hdone.
        destruct (Hcases0 Hnil Hdone)
          as [(ext & Hne & Hstack0)|(Hstack0 & fin0 & Hfin0 & Hin0)].
        * left. by exists ext.
        * right. split; [done|]. exists fin0. split.
          { by apply (finished_same _ s0). }
          rewrite lookup_insert_eq. intros [= Hmin] c Hc Hne.
          pose proof (c_low_le _ Hc0 node _ _ Hidx0 Hl).
          apply elem_of_app in Hc as [Hc|Hc].
          -- apply Hin0; [|done..]. rewrite Hl. f_equal. lia.
          -- apply list_elem_of_singleton in Hc as ->. exfalso.
             rewrite Hstack0 in Hvstack.
             apply elem_of_cons in Hvstack as [?|Hvst]; [done|].
             pose proof (c_stack_indexed _ Hst _ Hvst) as [i Hi].
             pose proof (c_counter _ Hst _ _ Hi).
             apply (e_index _ _ (l_extends _ _ _ Hs0)) in Hi.
             unfold idx in *. simplify_eq. lia.
      + split; [done|]. intros Hnil Hdone.
        destruct (Hcases0 Hnil Hdone)
          as [(ext & Hne & Hstack0)|(Hstack0 & fin0 & Hfin0 & Hin0)].
        * left. by exists ext.
        * right. split; [done|]. exists fin0. split; [done|].
          intros Hlow c Hc Hne. apply elem_of_app in Hc as [Hc|Hc]; [auto|].
          apply list_elem_of_singleton in Hc as ->.
          apply (f_members _ _ Hfin0). split; [eauto|].
          rewrite <- (c_on_stack _ Hc0). by rewrite Hos. }
  pose proof Hs as [Hc He Hidx (ext & Hstack & Hext)].
  destruct (leave_spec node st s ext Hs Hnew Hstack)
    as (low & s' & Hlow & Hleave' & Hc' & He' & Hi' & Hl' & Hcase).
  assert (s' = st') as -> by congruence.
  assert (∀ x, x ∈ stack st' → x ∈ stack s) as Hsub.
  { intros x Hx. case_decide; [|by subst].
    destruct Hcase as [Hst' _]. rewrite Hstack. rewrite Hst' in Hx.
    set_solver. }
  split.
  { destruct Hbs as [Hbl Hbst]. split.
    - rewrite Hi', Hl'. done.
    - intros x i Hx. rewrite Hi'. apply Hbst. by apply Hsub. }
  intros Hnil Hdone.
  pose proof (c_low_le _ Hc node _ _ Hidx Hlow) as Hle.
  destruct (decide (low = index_counter st)) as [->|Hne].
  - destruct Hcase as [Hstack' Hsccs'].
    assert (sccs s = []) as Hnil_s.
    { case_decide; [congruence|]. rewrite Hnil in Hsccs'.
      symmetry in Hsccs'. by apply app_eq_nil in Hsccs' as [? _]. }
    destruct (Hcases Hnil_s Hdone)
      as [(ext' & Hne & Hstack0)|(Hstack0 & fin0 & Hfin0 & Hin0)].
    + exfalso. rewrite Hstack in Hstack0.
      assert (ext = ext') as <-.
      { apply app_inj_2 in Hstack0 as [? _]; done. }
      rewrite decide_False in Hsccs' by done. rewrite Hnil in Hsccs'.
      symmetry in Hsccs'. by apply app_eq_nil in Hsccs' as [_ ?].
    + left. split; [done|]. exists (node :: fin0).
      destruct Hfin0 as [Hnd Hfin Hmem].
      assert (node ∉ fin0) as Hfresh.
      { intros [_ Hin]%Hmem. apply Hin. rewrite Hstack0. by left. }
      pose proof (c_nodup _ Hc) as Hnds. rewrite Hstack0 in Hnds.
      apply NoDup_cons in Hnds as [Hnode_st _].
      split.
      * by apply NoDup_cons.
      * constructor; [done|]. intros v Hv Hvne. by apply Hin0.
      * intros x. rewrite elem_of_cons, Hmem, Hi', Hstack', Hstack0.
        rewrite not_elem_of_cons. split.
        -- intros [->|[? [? ?]]]; [|done]. split; [eauto|done].
        -- intros [Hx Hxs]. destruct (decide (x = node)); [by left|].
           right. done.
  - subst st'. right. exists ext, low. split; [done|]. split; [done|].
    unfold idx in *. lia.
Qed.

(** ** The loop of [detect_cycles] over the known functions *)

Definition visit_root (fuel : nat) (st : tarjan) (node : string) : result tarjan :=
  if decide (index st !! node = None) then strongconnect fuel g node st
  else Ok st.

Lemma unindexed_le_known st : (unindexed st ≤ size known)%nat.
Proof. unfold unindexed. apply subseteq_size. set_solver. Qed.

Lemma visit_root_consistent fuel st node st' :
  (size known ≤ fuel)%nat → node ∈ known →
  visit_root fuel st node = Ok st' → consistent st →
  consistent st' ∧ extends st st' ∧ is_Some (index st' !! node).
Proof.
  intros Hfuel Hnode Hvisit Hst. unfold visit_root in Hvisit.
  case_decide as Hnew.
  - pose proof (unindexed_le_known st).
    destruct (strongconnect_returned fuel node st st' Hvisit Hst Hnew Hnode)
      as [Hc He Hi _]; [lia|]. eauto.
  - simplify_eq. split; [done|]. split; [apply extends_refl|].
    by destruct (index st' !! node); eauto.
Qed.

Lemma roots_return fuel order :
  (size known ≤ fuel)%nat → (∀ x, x ∈ order → x ∈ known) →
  ∃ st, for_each (visit_root fuel) order tarjan_init = Ok st ∧ consistent st.
Proof.
  intros Hfuel Horder.
  apply (for_each_invariant consistent); [|apply consistent_init].
  intros st node Hnode Hst. unfold visit_root.
  case_decide as Hnew; [|by exists st].
  pose proof (unindexed_le_known st).
  destruct (strongconnect_returns fuel node st Hst Hnew) as (st' & -> & [Hc _ _ _]);
    [by apply Horder|lia|].
  by exists st'.
Qed.

Lemma roots_alone fuel order st :
  (size known ≤ fuel)%nat → (∀ x, x ∈ order → x ∈ known) →
  (∀ u v, ¬ mutual u v) →
  for_each (visit_root fuel) order tarjan_init = Ok st →
  sccs st = [].
Proof.
  intros Hfuel Horder Hacyclic Hloop.
  set (P := λ (_ : list string) s, consistent s ∧ stack s = [] ∧ sccs s = []).
  assert (P order st) as (_ & _ & Hsccs); [|done].
  apply (for_each_prefix_invariant P _ _ _ _ Hloop).
  - split; [apply consistent_init|done].
  - intros handled node s s' Hnode (Hs & Hstack & Hsccs) Hvisit.
    destruct (visit_root_consistent fuel s node s' Hfuel (Horder _ Hnode)
                Hvisit Hs) as (Hs' & _ & _).
    split; [done|]. unfold visit_root in Hvisit.
    case_decide as Hnew; [|by simplify_eq].
    pose proof (unindexed_le_known s).
    destruct (strongconnect_alone fuel node s s' Hacyclic Hvisit Hs Hnew)
      as (Hstack' & Hsccs' & _); [by apply Horder|lia| |split; congruence].
    rewrite Hstack. by intros x ?%elem_of_nil.
Qed.

Lemma roots_silent fuel order st :
  (size known ≤ fuel)%nat → (∀ x, x ∈ order → x ∈ known) →
  for_each (visit_root fuel) order tarjan_init = Ok st →
  sccs st = [] →
  ∃ fin, NoDup fin ∧ finishing fin
         ∧ (∀ x, x ∈ order → x ∈ fin) ∧ (∀ x, x ∈ fin → x ∈ known).
Proof.
  intros Hfuel Horder Hloop Hnil.
  set (P := λ (handled : list string) s,
         consistent s
         ∧ (∀ x, x ∈ handled → is_Some (index s !! x))
         ∧ (sccs s = [] → stack s = [] ∧ ∃ fin, finished fin s)).
  assert (P order st) as (Hst & Hindexed & Hfin).
  { apply (for_each_prefix_invariant P _ _ _ _ Hloop).
    - split; [apply consistent_init|]. split; [by intros x ?%elem_of_nil|].
      intros _. split; [done|]. exists []. split; [constructor|constructor|].
      intros x. cbn. rewrite lookup_empty. split.
      + by intros ?%elem_of_nil.
      + by intros [[? ?] _].
    - intros handled node s s' Hnode (Hs & Hhandled & Hclean) Hvisit.
      destruct (visit_root_consistent fuel s node s' Hfuel (Horder _ Hnode)
                  Hvisit Hs) as (Hs' & He & Hidx).
      split; [done|]. split.
      { intros x [Hx|Hx]%elem_of_app.
        - destruct (Hhandled x Hx) as [i Hi]. exists i.
          by apply (e_index _ _ He).
        - by apply list_elem_of_singleton in Hx as ->. }
      intros Hnil'. unfold visit_root in Hvisit.
      assert (sccs s = []) as Hnil_s.
      { destruct (e_sccs _ _ He) as [k Hk]. rewrite Hnil' in Hk.
        symmetry in Hk. by apply app_eq_nil in Hk as [? _]. }
      destruct (Hclean Hnil_s) as (Hstack & fin & Hfin).
      case_decide as Hnew; [|by simplify_eq; eauto].
      pose proof (unindexed_le_known s).
      destruct (strongconnect_silent fuel node s s' (index_counter s) fin
                  Hvisit Hs Hnew) as [Hbound Hout]; [by apply Horder|lia|lia| |].
      { split.
        - intros x i l Hx Hi. pose proof (c_counter _ Hs _ _ Hx). lia.
        - intros x i. rewrite Hstack. by intros ?%elem_of_nil. }
      destruct (Hout Hnil' Hfin)
        as [(Hstack' & fin' & Hfin')|(ext & low & _ & Hlow & Hlt)].
      + split; [congruence|]. by exists fin'.
      + exfalso.
        pose proof (strongconnect_returned fuel node s s' Hvisit Hs Hnew
                      (Horder _ Hnode) ltac:(lia)) as [_ _ Hi _].
        pose proof (b_lowlinks _ _ Hbound node _ _ Hi ltac:(lia) Hlow). lia. }
  destruct (Hfin Hnil) as (Hstack & fin & [Hnd Hfinishing Hmem]).
  exists fin. split; [done|]. split; [done|]. split.
  - intros x Hx. apply Hmem. split; [by apply Hindexed|].
    rewrite Hstack. by intros ?%elem_of_nil.
  - intros x [Hx _]%Hmem. by apply (c_known _ Hst).
Qed.

(** ** What a finishing order excludes *)

Lemma finishing_suffix l1 l2 : finishing (l1 ++ l2) → finishing l2.
Proof.
  induction l1 as [|x l1 IH]; [done|]. cbn.
  inversion 1; simplify_eq. auto.
Qed.

Lemma finishing_reach fin x y l1 l2 :
  finishing fin → rtc (calls_to g) x y → fin = l1 ++ x :: l2 →
  y ∈ x :: l2.
Proof.
  intros Hfin Hreach. revert l1 l2.
  induction Hreach as [x|x z y Hcall _ IH]; intros l1 l2 ->; [by left|].
  destruct (decide (z = x)) as [->|Hne]; [by eapply IH|].
  pose proof (finishing_suffix _ _ Hfin) as Hsuffix.
  inversion Hsuffix as [|? ? _ Hcallees]; simplify_eq.
  pose proof (Hcallees z Hcall Hne) as Hz.
  apply list_elem_of_split in Hz as (k1 & k2 & ->).
  specialize (IH (l1 ++ x :: k1) k2). rewrite <- app_assoc in IH.
  right. apply elem_of_app. right. by apply IH.
Qed.

Lemma finishing_no_mutual fin u v :
  NoDup fin → finishing fin → u ∈ fin → ¬ mutual u v.
Proof.
  intros Hnd Hfin Hu (Hne & Huv & Hvu).
  apply list_elem_of_split in Hu as (l1 & l2 & ->).
  pose proof (finishing_reach _ u v l1 l2 Hfin Huv eq_refl) as Hv.
  apply elem_of_cons in Hv as [?|Hv]; [done|].
  apply list_elem_of_split in Hv as (k1 & k2 & ->).
  pose proof (finishing_reach _ v u (l1 ++ u :: k1) k2 Hfin Hvu) as Hu.
  rewrite <- app_assoc in Hu. specialize (Hu eq_refl).
  apply NoDup_app in Hnd as (_ & _ & Hnd).
  apply NoDup_cons in Hnd as [Hnotin _]. apply Hnotin.
  apply elem_of_app. right. apply elem_of_cons in Hu as [?|Hu]; [done|].
  by right.
Qed.

(** With a finishing order of all functions and no function calling
    itself, a list that holds every function whose callers it holds
    holds every function. *)
Lemma finishing_all_listed fin (sorted : list string) :
  NoDup fin → finishing fin →
  (∀ x, ¬ calls_to g x x) →
  (∀ u v, calls_to g u v → u ∈ fin) →
  (∀ n, n ∈ fin → (∀ u, calls_to g u n → u ∈ sorted) → n ∈ sorted) →
  ∀ n, n ∈ fin → n ∈ sorted.
Proof.
  clear targets_known. intros Hnd Hfin Hirrefl Hsources Hready.
  enough (∀ l2 l1, fin = l1 ++ l2 → (∀ a, a ∈ l1 → a ∈ sorted) →
            ∀ w, w ∈ l2 → w ∈ sorted) as Hgen.
  { intros n Hn. apply (Hgen fin []); [done| |done]. by intros a ?%elem_of_nil. }
  induction l2 as [|x l2 IH]; intros l1 Heq Hl1 w Hb.
  { by apply elem_of_nil in Hb. }
  assert (x ∈ sorted) as Hx.
  { apply Hready; [rewrite Heq; set_solver|].
    intros u Hcall. pose proof (Hsources u x Hcall) as Hu.
    rewrite Heq in Hu. apply elem_of_app in Hu as [Hu|Hu]; [auto|].
    apply elem_of_cons in Hu as [->|Hu]; [by destruct (Hirrefl x)|].
    exfalso. apply list_elem_of_split in Hu as (k1 & k2 & ->).
    assert (finishing (u :: k2)) as Hsuffix.
    { apply (finishing_suffix (l1 ++ x :: k1)).
      rewrite <- app_assoc. cbn. by rewrite <- Heq. }
    inversion Hsuffix as [|? ? _ Hcallees]; simplify_eq.
    assert (x ∈ k2) as Hin.
    { apply Hcallees; [done|]. intros ->. by destruct (Hirrefl u). }
    apply NoDup_app in Hnd as (_ & _ & Hnd).
    apply NoDup_cons in Hnd as [Hnotin _]. apply Hnotin. set_solver. }
  apply elem_of_cons in Hb as [->|Hb]; [done|].
  apply (IH (l1 ++ [x])); [by rewrite <- app_assoc| |done].
  intros a [Ha|Ha]%elem_of_app; [auto|].
  by apply list_elem_of_singleton in Ha as ->.
Qed.

End Tarjan.

(** ** [detect_cycles] *)

Lemma detect_cycles_unfold frames order b :
  CallGraphBuilder.detect_cycles frames order b
  = (st ← for_each (visit_root (CallGraphBuilder.graph b) frames)
            order CallGraphBuilder.tarjan_init;
     Ok (CallGraphBuilder.sccs st)).
Proof. done. Qed.

(** More frames change nothing but an overflow. *)
Lemma visit_frames (recurse recurse' : string → CallGraphBuilder.tarjan
                                       → result CallGraphBuilder.tarjan)
    node st successor :
  (∀ n s, overflows_or (recurse n s) (recurse' n s)) →
  overflows_or (CallGraphBuilder.visit recurse node st successor)
    (CallGraphBuilder.visit recurse' node st successor).
Proof.
  intros Hrec. unfold CallGraphBuilder.visit. case_decide; [|by right].
  apply overflows_or_bind; [apply Hrec|]. intros a. by right.
Qed.

Lemma strongconnect_frames g fuel fuel' node st :
  (fuel ≤ fuel')%nat →
  overflows_or (CallGraphBuilder.strongconnect fuel g node st)
    (CallGraphBuilder.strongconnect fuel' g node st).
Proof.
  revert fuel' node st.
  induction fuel as [|fuel IH]; intros fuel' node st Hle; [by left|].
  destruct fuel' as [|fuel']; [lia|]. rewrite !strongconnect_unfold.
  apply overflows_or_bind; [|intros a; by right].
  apply overflows_or_for_each. intros s x. apply visit_frames.
  intros n s'. apply IH. lia.
Qed.

Lemma detect_cycles_frames frames frames' order b :
  (frames ≤ frames')%nat →
  overflows_or (CallGraphBuilder.detect_cycles frames order b)
    (CallGraphBuilder.detect_cycles frames' order b).
Proof.
  intros Hle. rewrite !detect_cycles_unfold.
  apply overflows_or_bind; [|intros a; by right].
  apply overflows_or_for_each. intros s x. unfold visit_root.
  case_decide; [by apply strongconnect_frames|by right].
Qed.

Lemma detect_cycles_more_frames frames frames' order b cycles :
  (frames ≤ frames')%nat →
  CallGraphBuilder.detect_cycles frames order b = Ok cycles →
  CallGraphBuilder.detect_cycles frames' order b = Ok cycles.
Proof.
  intros Hle. apply overflows_or_Ok. by apply detect_cycles_frames.
Qed.

(** [detect_cycles] returns when the interpreter admits as many nested
    calls as there are functions: the functions under [strongconnect] at
    one time are different functions.  It reports only components of two
    or more functions; and it reports nothing exactly when no two
    different functions can reach each other. *)
Lemma detect_cycles_returns b frames order :
  well_formed_builder b → enumerates order b →
  (length order ≤ frames)%nat →
  ∃ cycles,
    CallGraphBuilder.detect_cycles frames order b = Ok cycles
    ∧ Forall (λ c, (2 ≤ length c)%nat) cycles
    ∧ (cycles = [] ↔ ∀ u v, ¬ mutual (CallGraphBuilder.graph b) u v).
Proof.
  intros [Hkeys Hfun] Horder Hframes.
  set (g := CallGraphBuilder.graph b).
  set (known := CallGraphBuilder.functions b).
  assert (∀ u v, calls_to g u v → v ∈ known) as Htargets.
  { intros u v Huv. by apply (Hfun u v). }
  assert (size known ≤ frames)%nat as Hfuel.
  { rewrite (enumerates_length order b Horder) in Hframes. by unfold known. }
  assert (∀ x, x ∈ order → x ∈ known) as Hin.
  { intros x. apply Horder. }
  destruct (roots_return g known Htargets frames order Hfuel Hin)
    as (st & Hloop & Hst).
  exists (CallGraphBuilder.sccs st). rewrite detect_cycles_unfold.
  fold g. rewrite Hloop. split; [done|]. split; [by apply (c_sccs known)|].
  split.
  - intros Hnil u v Hmutual.
    destruct (roots_silent g known Htargets _ order st Hfuel Hin Hloop Hnil)
      as (fin & Hnd & Hfin & Hall & _).
    apply (finishing_no_mutual g fin u v Hnd Hfin); [|done].
    apply Hall, Horder. destruct Hmutual as (Hne & Huv & _).
    destruct Huv as [|u w v Hcall _]; [done|]. by apply (Hfun u w).
  - intros Hacyclic.
    by apply (roots_alone g known Htargets _ order st Hfuel Hin Hacyclic).
Qed.

(** With any number of frames, [detect_cycles] returns what it returns
    with enough of them, or overflows. *)
Lemma detect_cycles_returns_or_overflows b frames order :
  well_formed_builder b → enumerates order b →
  ∃ cycles,
    CallGraphBuilder.detect_cycles (frames `max` length order) order b
    = Ok cycles
    ∧ overflows_or (CallGraphBuilder.detect_cycles frames order b) (Ok cycles)
    ∧ ((length order ≤ frames)%nat →
         CallGraphBuilder.detect_cycles frames order b = Ok cycles).
Proof.
  intros Hwf Horder.
  destruct (detect_cycles_returns b (frames `max` length order) order
              Hwf Horder) as (cycles & Hdetect & _); [lia|].
  exists cycles. split; [done|]. split.
  - rewrite <- Hdetect. apply detect_cycles_frames. lia.
  - intros Hframes. rewrite <- Hdetect. f_equal. lia.
Qed.

Lemma detect_cycles_raises b frames order e :
  well_formed_builder b → enumerates order b →
  CallGraphBuilder.detect_cycles frames order b = Raise e →
  e = RecursionError.
Proof.
  intros Hwf Horder Hraise.
  destruct (detect_cycles_returns_or_overflows b frames order Hwf Horder)
    as (cycles & _ & Hcases & _).
  by eapply overflows_or_Raise.
Qed.

Lemma detect_cycles_empty_finishing b frames order :
  well_formed_builder b → enumerates order b →
  CallGraphBuilder.detect_cycles frames order b = Ok [] →
  ∃ fin, NoDup fin ∧ finishing (CallGraphBuilder.graph b) fin
         ∧ ∀ x, x ∈ fin ↔ x ∈ CallGraphBuilder.functions b.
Proof.
  intros [Hkeys Hfun] Horder Hdetect.
  apply (detect_cycles_more_frames _ (frames `max` length order)) in Hdetect;
    [|lia].
  set (g := CallGraphBuilder.graph b).
  set (known := CallGraphBuilder.functions b).
  assert (∀ u v, calls_to g u v → v ∈ known) as Htargets.
  { intros u v Huv. by apply (Hfun u v). }
  assert (size known ≤ frames `max` length order)%nat as Hfuel.
  { rewrite (enumerates_length order b Horder). unfold known. lia. }
  assert (∀ x, x ∈ order → x ∈ known) as Hin.
  { intros x. apply Horder. }
  rewrite detect_cycles_unfold in Hdetect.
  apply bind_Ok in Hdetect as (st & Hloop & Hnil). simplify_eq.
  destruct (roots_silent g known Htargets _ order st Hfuel Hin Hloop)
    as (fin & Hnd & Hfin & Hall & Hknown); [done|].
  exists fin. split; [done|]. split; [done|]. intros x. split; [apply Hknown|].
  intros Hx. by apply Hall, Horder.
Qed.

Lemma tc_first_step {A} (R : relation A) x y : tc R x y → ∃ w, R x w.
Proof. destruct 1; eauto. Qed.

Lemma mutual_cycle g u v : mutual g u v → tc (calls_to g) u u.
Proof.
  intros (Hne & Huv & Hvu). apply rtc_tc in Huv as [?|Huv]; [done|].
  by eapply tc_rtc_r.
Qed.

Lemma all_listed (sorted order : list string) :
  NoDup sorted → NoDup order → (∀ n, n ∈ sorted → n ∈ order) →
  (length sorted = length order ↔ ∀ n, n ∈ order → n ∈ sorted).
Proof.
  intros Hnd Hnd' Hsub.
  pose proof (NoDup_submseteq _ _ Hnd Hsub) as Hsubm. split.
  - intros Hlen n Hn.
    by rewrite (submseteq_length_Permutation _ _ Hsubm ltac:(lia)).
  - intros Hall. apply Permutation_length.
    apply NoDup_Permutation; [done..|]. split; auto.
Qed.

(** The two algorithms side by side, when [detect_cycles] returns. *)
Lemma sort_and_cycles b frames order order' cycles :
  well_formed_builder b → enumerates order b → enumerates order' b →
  CallGraphBuilder.detect_cycles frames order' b = Ok cycles →
  ∃ sorted,
    CallGraphBuilder.topological_sort order b = Ok sorted
    ∧ NoDup sorted
    ∧ (∀ n, n ∈ sorted → n ∈ CallGraphBuilder.functions b)
    ∧ callers_first (CallGraphBuilder.graph b) sorted
    ∧ (length sorted = size (CallGraphBuilder.functions b)
       ↔ cycles = [] ∧ ∀ f, ¬ calls_to (CallGraphBuilder.graph b) f f)
    ∧ ((∃ f, tc (calls_to (CallGraphBuilder.graph b)) f f) →
         (length sorted < size (CallGraphBuilder.functions b))%nat).
Proof.
  intros Hwf Horder Horder' Hdetect.
  destruct (topological_sort_returns b order Hwf Horder)
    as (sorted & Hsort & Hnd & Hsub & Hfirst & Hready & _).
  destruct (detect_cycles_returns b (frames `max` length order') order'
              Hwf Horder') as (cycles' & Hdetect' & _ & Hnone); [lia|].
  assert (cycles' = cycles) as ->.
  { apply (detect_cycles_more_frames _ (frames `max` length order')) in Hdetect;
      [congruence|lia]. }
  pose proof Hwf as [_ Hfun]. pose proof Horder as [Hnd_order Hmem].
  set (g := CallGraphBuilder.graph b) in *.
  pose proof (all_listed sorted order Hnd Hnd_order Hsub) as Hall.
  rewrite (enumerates_length order b Horder) in Hall.
  assert (∀ f, tc (calls_to g) f f → f ∈ order ∧ f ∉ sorted) as Hcyclic.
  { intros f Hf. split; [|by eapply callers_first_no_cycle].
    apply Hmem. destruct (tc_first_step _ _ _ Hf) as [w Hcall].
    by apply (Hfun f w). }
  exists sorted. split_and!; try done.
  - intros n Hn. by apply Hmem, Hsub.
  - rewrite Hall. split.
    + intros Hcomplete. split.
      * apply Hnone. intros u v Hmutual%mutual_cycle.
        destruct (Hcyclic u Hmutual) as [Hu Hnot]. by apply Hnot, Hcomplete.
      * intros f Hcall. destruct (Hcyclic f) as [Hf Hnot]; [by apply tc_once|].
        by apply Hnot, Hcomplete.
    + intros [-> Hirrefl] n Hn.
      destruct (detect_cycles_empty_finishing b frames order' Hwf Horder'
                  Hdetect)
        as (fin & Hnd_fin & Hfin & Hfin_mem).
      apply (finishing_all_listed g fin sorted Hnd_fin Hfin Hirrefl).
      * intros u v Hcall. apply Hfin_mem. by apply (Hfun u v).
      * intros m Hm. apply Hready, Hmem, Hfin_mem, Hm.
      * by apply Hfin_mem, Hmem.
  - intros [f Hf]. destruct (Hcyclic f Hf) as [Hin Hnot].
    pose proof (submseteq_length _ _ (NoDup_submseteq _ _ Hnd Hsub)) as Hle.
    rewrite (enumerates_length order b Horder) in Hle.
    destruct (decide (length sorted = size (CallGraphBuilder.functions b)))
      as [Heq|Hne]; [|lia].
    exfalso. apply Hnot. by apply Hall.
Qed.

(** ** The functions [topological_sort] leaves out *)

(** A list of functions, each calling the next. *)
Inductive chain g : list string → Prop :=
  | chain_one x : chain g [x]
  | chain_cons u x l : calls_to g u x → chain g (x :: l) → chain g (u :: x :: l).

Lemma chain_suffix g l1 x l2 : chain g (l1 ++ x :: l2) → chain g (x :: l2).
Proof.
  induction l1 as [|y l1 IH]; [done|]. cbn. inversion 1; simplify_eq.
  - by destruct l1.
  - apply IH. by rewrite <- H1.
Qed.

Lemma chain_tc g x l y l' : chain g (x :: l ++ y :: l') → tc (calls_to g) x y.
Proof.
  revert x. induction l as [|z l IH]; intros x; cbn; inversion 1; simplify_eq.
  - by apply tc_once.
  - eapply tc_l; [done|]. by apply IH.
Qed.

Lemma chain_rtc_last g x l n :
  chain g (x :: l) → last (x :: l) = Some n → rtc (calls_to g) x n.
Proof.
  revert x. induction l as [|z l IH]; intros x Hchain Hlast.
  - cbn in Hlast. by simplify_eq.
  - inversion Hchain; simplify_eq. eapply rtc_l; [done|]. by apply IH.
Qed.

Lemma repeated_element (l : list string) :
  ¬ NoDup l → ∃ x l1 l2 l3, l = l1 ++ x :: l2 ++ x :: l3.
Proof.
  induction l as [|x l IH]; intros Hdup.
  - destruct Hdup. constructor.
  - destruct (decide (x ∈ l)) as [Hin|Hnotin].
    + apply list_elem_of_split in Hin as (l2 & l3 & ->). by exists x, [], l2, l3.
    + destruct IH as (y & l1 & l2 & l3 & ->).
      { intros Hnd. apply Hdup. by constructor. }
      by exists y, (x :: l1), l2, l3.
Qed.

(** From a function none of whose (transitive) callers starts the
    list, a chain of callers of any length can be followed backwards. *)
Lemma chain_backwards g (pending : string → Prop) n k :
  (∀ m, pending m → ∃ u, calls_to g u m ∧ pending u) →
  pending n →
  ∃ l, length l = S k ∧ chain g l ∧ last l = Some n ∧ ∀ x, x ∈ l → pending x.
Proof.
  intros Hstep Hn. induction k as [|k IH].
  - exists [n]. split_and!; [done|constructor|done|].
    by intros x ->%list_elem_of_singleton.
  - destruct IH as ([|x l] & Hlen & Hchain & Hlast & Hall); [done|].
    destruct (Hstep x) as (u & Hcall & Hu); [apply Hall; by left|].
    exists (u :: x :: l). split_and!.
    + cbn in *. lia.
    + by constructor.
    + done.
    + intros y [->|Hy]%elem_of_cons; auto.
Qed.

(** A function that is not listed is reachable from a cycle. *)
Lemma unlisted_after_cycle g (order sorted : list string) n :
  (∀ m, m ∈ order → m ∉ sorted → ∃ u, calls_to g u m ∧ u ∉ sorted) →
  (∀ u v, calls_to g u v → u ∈ order) →
  n ∈ order → n ∉ sorted →
  ∃ c, tc (calls_to g) c c ∧ rtc (calls_to g) c n.
Proof.
  intros Hcaller Hsources Hn Hnot.
  destruct (chain_backwards g (λ m, m ∈ order ∧ m ∉ sorted) n (length order))
    as (l & Hlen & Hchain & Hlast & Hall); [|done|].
  { intros m [Hm Hm']. destruct (Hcaller m Hm Hm') as (u & Hcall & Hu).
    exists u. split; [done|]. split; [by eapply Hsources|done]. }
  destruct (repeated_element l) as (c & l1 & l2 & l3 & ->).
  { intros Hnd.
    pose proof (submseteq_length _ _
      (NoDup_submseteq _ _ Hnd (λ x Hx, proj1 (Hall x Hx)))). lia. }
  apply chain_suffix in Hchain. exists c. split; [by eapply chain_tc|].
  apply (chain_suffix g (c :: l2) c l3) in Hchain.
  rewrite app_comm_cons, app_assoc, last_app in Hlast.
  destruct (last (c :: l3)) as [n'|] eqn:Hl3.
  - simplify_eq. by eapply chain_rtc_last.
  - by rewrite last_cons in Hl3; destruct (last l3).
Qed.

End CallGraph.

(** ** Topological sort and cycle detection together *)

(** One function that calls itself. *)
Definition self_call : list (string * string) := [("A", "A")].

(** [detect_cycles] finds no component of two functions and returns the
    empty list, while [topological_sort] lists none of the one known
    function.  [strongconnect] is called once. *)
Lemma self_call_not_detected :
  enumerates ["A"] (build self_call)
  ∧ (∀ frames, (1 ≤ frames)%nat →
       CallGraphBuilder.detect_cycles frames ["A"] (build self_call) = Ok [])
  ∧ CallGraphBuilder.topological_sort ["A"] (build self_call) = Ok []
  ∧ size (CallGraphBuilder.functions (build self_call)) = 1%nat
  ∧ ¬ (length (@nil string)
       = size (CallGraphBuilder.functions (build self_call))
       ↔ @nil (list string) = []).
Proof.
  split_and!.
  - split; [apply NoDup_singleton|]. intros f. cbn.
    rewrite list_elem_of_singleton. set_solver.
  - intros frames Hframes.
    apply (detect_cycles_more_frames 1); [done|]. by vm_compute.
  - by vm_compute.
  - by vm_compute.
  - assert (size (CallGraphBuilder.functions (build self_call)) = 1%nat) as ->
      by (by vm_compute).
    cbn. intros [_ Hlen]. by specialize (Hlen eq_refl).
Qed.

(** A calls B and B calls C. *)
Definition three_chain : list (string * string) := [("A", "B"); ("B", "C")].

(** Started at A, [strongconnect] nests one call for each of the three
    functions.  With two frames left [detect_cycles] raises, while
    [topological_sort], which is a loop, lists all three. *)
Lemma three_chain_overflows :
  enumerates ["A"; "B"; "C"] (build three_chain)
  ∧ CallGraphBuilder.topological_sort ["A"; "B"; "C"] (build three_chain)
    = Ok ["A"; "B"; "C"]
  ∧ CallGraphBuilder.detect_cycles 2 ["A"; "B"; "C"] (build three_chain)
    = Raise RecursionError
  ∧ CallGraphBuilder.detect_cycles 3 ["A"; "B"; "C"] (build three_chain)
    = Ok [].
Proof.
  split_and!; try by vm_compute.
  split.
  - apply (bool_decide_unpack _). by vm_compute.
  - intros f. cbn. rewrite !elem_of_cons, elem_of_nil. set_solver.
Qed.

(** C1, amended.  For the builder made by any sequence of [add_call] and
    any enumerations of its function set, [topological_sort] returns.
    [detect_cycles] returns when the interpreter admits as many nested
    calls as there are known functions; with fewer frames it returns or
    raises [RecursionError].  Whenever [detect_cycles] returns, the
    sorted list is as long as the function set exactly when the returned
    list is empty and no function calls itself.  When some function can
    reach itself through calls, the sorted list is strictly shorter than
    the function set.  In every case the sorted list has no duplicates,
    lists every caller before its callees, and consists of the known
    functions that no function on a cycle can reach. *)
Theorem topological_sort_length_and_cycles frames calls order order' :
  let b := build calls in
  let g := CallGraphBuilder.graph b in
  enumerates order b → enumerates order' b →
  ∃ sorted,
    CallGraphBuilder.topological_sort order b = Ok sorted
    ∧ ((size (CallGraphBuilder.functions b) ≤ frames)%nat →
         ∃ cycles, CallGraphBuilder.detect_cycles frames order' b = Ok cycles)
    ∧ (∀ e, CallGraphBuilder.detect_cycles frames order' b = Raise e →
            e = RecursionError)
    ∧ (∀ cycles,
         CallGraphBuilder.detect_cycles frames order' b = Ok cycles →
         (length sorted = size (CallGraphBuilder.functions b)
          ↔ cycles = [] ∧ ∀ f, ¬ calls_to g f f))
    ∧ (∀ u v, calls_to g u v ↔ (u, v) ∈ calls)
    ∧ ((∃ f, tc (calls_to g) f f) →
         (length sorted < size (CallGraphBuilder.functions b))%nat)
    ∧ NoDup sorted
    ∧ callers_first g sorted
    ∧ ∀ n, n ∈ sorted
           ↔ n ∈ CallGraphBuilder.functions b
             ∧ ¬ ∃ c, tc (calls_to g) c c ∧ rtc (calls_to g) c n.
Proof.
  intros b g Horder Horder'.
  pose proof (build_well_formed calls) as Hwf. fold b in Hwf.
  destruct (detect_cycles_returns_or_overflows b frames order' Hwf Horder')
    as (enough & Henough & Hcases & Hreturns).
  destruct (sort_and_cycles b _ order order' enough Hwf Horder Horder' Henough)
    as (sorted & Hsort & Hnd & Hsub & Hfirst & _ & Hshort).
  destruct (topological_sort_returns b order Hwf Horder)
    as (sorted' & Hsort' & _ & _ & _ & _ & Hcaller).
  assert (sorted' = sorted) as -> by congruence.
  exists sorted. split_and!; try done.
  - intros Hframes. exists enough. apply Hreturns.
    by rewrite (enumerates_length order' b Horder').
  - intros e. by apply detect_cycles_raises.
  - intros cycles Hdetect.
    destruct (sort_and_cycles b _ order order' cycles Hwf Horder Horder'
                Hdetect) as (sorted' & Hsort'' & _ & _ & _ & Hiff & _).
    by assert (sorted' = sorted) as -> by congruence.
  - intros u v. apply build_calls_to.
  - intros n. split.
    + intros Hn. split; [by apply Hsub|]. intros (c & Hcycle & Hreach).
      assert (c ∈ sorted) as Hc.
      { apply rtc_tc in Hreach as [->|Hpath]; [done|].
        apply list_elem_of_split in Hn as (before & after & ->).
        pose proof (callers_first_path g _ c n before after Hfirst Hpath eq_refl).
        set_solver. }
      by apply (callers_first_no_cycle g sorted c).
    + intros [Hn Hfree]. destruct (decide (n ∈ sorted)) as [|Hnot]; [done|].
      destruct Horder as [_ Hmem]. exfalso. apply Hfree.
      apply (unlisted_after_cycle g order sorted n); [done| |by apply Hmem|done].
      intros u v Hcall. apply Hmem. by apply (wf_functions b Hwf u v).
Qed.

Lemma topological_sort_length_and_cycles_witness :
  enumerates ["A"; "B"; "C"] (build [("A", "B"); ("A", "C"); ("B", "C")])
  ∧ ∃ sorted cycles,
      CallGraphBuilder.topological_sort ["A"; "B"; "C"]
        (build [("A", "B"); ("A", "C"); ("B", "C")]) = Ok sorted
      ∧ CallGraphBuilder.detect_cycles 3 ["A"; "B"; "C"]
          (build [("A", "B"); ("A", "C"); ("B", "C")]) = Ok cycles
      ∧ (length sorted = 3%nat ↔ cycles = [])
      ∧ NoDup sorted.
Proof.
  assert (enumerates ["A"; "B"; "C"]
            (build [("A", "B"); ("A", "C"); ("B", "C")])) as Horder.
  { split.
    - apply (bool_decide_unpack _). by vm_compute.
    - intros f. cbn. rewrite !elem_of_cons, elem_of_nil. set_solver. }
  split; [done|].
  destruct (topological_sort_length_and_cycles 3
              [("A", "B"); ("A", "C"); ("B", "C")] _ _ Horder Horder)
    as (sorted & Hsort & Hreturns & _ & Hiff & Hcalls & _ & Hnd & _).
  destruct Hreturns as (cycles & Hdetect); [by vm_compute|].
  exists sorted, cycles. split; [done|]. split; [done|]. split; [|done].
  assert (size (CallGraphBuilder.functions
                  (build [("A", "B"); ("A", "C"); ("B", "C")])) = 3%nat)
    as Hsize by (by vm_compute).
  rewrite <- Hsize, (Hiff cycles Hdetect).
  split; [by intros [? _]|]. intros Hnil. split; [done|].
  intros f Hcall%Hcalls. set_unfold. naive_solver.
Defined.

(** The graph of the specification: A calls B, B calls C, C calls A, and
    D calls A. *)
Definition triangle_with_tail : list (string * string) :=
  [("A", "B"); ("B", "C"); ("C", "A"); ("D", "A")].

Lemma triangle_with_tail_orders order :
  enumerates order (build triangle_with_tail) →
  order ∈ permutations ["A"; "B"; "C"; "D"].
Proof.
  intros [Hnd Hmem]. apply permutations_Permutation.
  apply NoDup_Permutation; [|done|].
  - apply (bool_decide_unpack _). by vm_compute.
  - intros f. rewrite Hmem. cbn. rewrite !elem_of_cons, elem_of_nil.
    set_solver.
Qed.

(** C4.  Whatever the sequence of [add_call] and the enumeration of the
    function set, [detect_cycles] returns when the interpreter admits as
    many nested calls as there are known functions, and every component
    of a list it returns has two or more members.  For the graph A→B,
    B→C, C→A, D→A, with the four frames its four functions can need, it
    returns exactly one component, a permutation of A, B, C, and D is not
    in it. *)
Theorem detect_cycles_components :
  (∀ frames calls order,
     enumerates order (build calls) →
     ((size (CallGraphBuilder.functions (build calls)) ≤ frames)%nat →
        ∃ cycles,
          CallGraphBuilder.detect_cycles frames order (build calls)
          = Ok cycles)
     ∧ ∀ cycles,
         CallGraphBuilder.detect_cycles frames order (build calls) = Ok cycles →
         Forall (λ component, (2 ≤ length component)%nat) cycles)
  ∧ ∀ frames order,
      (4 ≤ frames)%nat →
      enumerates order (build triangle_with_tail) →
      ∃ component,
        CallGraphBuilder.detect_cycles frames order (build triangle_with_tail)
        = Ok [component]
        ∧ component ≡ₚ ["A"; "B"; "C"]
        ∧ "D" ∉ component.
Proof.
  split.
  - intros frames calls order Horder.
    pose proof (build_well_formed calls) as Hwf.
    destruct (detect_cycles_returns (build calls) (frames `max` length order)
                order Hwf Horder) as (enough & Henough & Hsizes & _); [lia|].
    split.
    + intros Hframes. exists enough. rewrite <- Henough. f_equal.
      rewrite (enumerates_length order _ Horder). lia.
    + intros cycles Hdetect.
      apply (detect_cycles_more_frames _ (frames `max` length order))
        in Hdetect; [|lia].
      by assert (cycles = enough) as -> by congruence.
  - intros frames order Hframes Horder%triangle_with_tail_orders.
    assert (∃ component,
              CallGraphBuilder.detect_cycles 4 order (build triangle_with_tail)
              = Ok [component]
              ∧ component ≡ₚ ["A"; "B"; "C"]
              ∧ "D" ∉ component) as (component & Hdetect & Hperm & Hout).
    { cbn in Horder.
      repeat (apply elem_of_cons in Horder as [->|Horder]);
        try (by apply elem_of_nil in Horder);
        eexists; (split; [by vm_compute|]);
        split; apply (bool_decide_unpack _); by vm_compute. }
    exists component. split; [|done].
    by apply (detect_cycles_more_frames 4).
Qed.

Lemma detect_cycles_components_witness :
  (4 ≤ 4)%nat
  ∧ enumerates ["D"; "C"; "B"; "A"] (build triangle_with_tail)
  ∧ ∃ component,
      CallGraphBuilder.detect_cycles 4 ["D"; "C"; "B"; "A"]
        (build triangle_with_tail) = Ok [component]
      ∧ component ≡ₚ ["A"; "B"; "C"].
Proof.
  assert (enumerates ["D"; "C"; "B"; "A"] (build triangle_with_tail))
    as Horder.
  { split.
    - apply (bool_decide_unpack _). by vm_compute.
    - intros f. cbn. rewrite !elem_of_cons, elem_of_nil. set_solver. }
  split; [done|]. split; [done|].
  destruct (proj2 detect_cycles_components 4%nat _ ltac:(done) Horder)
    as (component & Hdetect & Hperm & _).
  by exists component.
Defined.

(** * Sequences of [track] calls *)

Section AllocationSequences.
Context {Time : Type}.
Implicit Types (self : HashTableAllocator.t Time) (now : Time).

(** One call [track(obj, call_stack)] with the readings it takes. *)
Record tracking : Type := Tracking {
  tracked_id : Z;
  tracked_size : Z;
  tracked_at : Time;
  tracked_stack : list string
}.

Definition track_call (self : HashTableAllocator.t Time) (c : tracking)
  : HashTableAllocator.t Time :=
  HashTableAllocator.track (tracked_id c) (tracked_size c) (tracked_at c)
    (tracked_stack c) self.

Definition track_all (calls : list tracking) : HashTableAllocator.t Time :=
  foldl track_call HashTableAllocator.init calls.

Definition recorded (c : tracking) : HashTableAllocator.allocation Time :=
  HashTableAllocator.Allocation (tracked_id c) (tracked_size c)
    (tracked_stack c) (tracked_at c).

Lemma track_all_snoc calls c :
  track_all (calls ++ [c]) = track_call (track_all calls) c.
Proof. unfold track_all. by rewrite foldl_app. Qed.

Lemma track_all_dom calls :
  dom (HashTableAllocator.allocations (track_all calls))
  = list_to_set (tracked_id <$> calls).
Proof.
  induction calls as [|c calls IH] using rev_ind; [set_solver|].
  rewrite track_all_snoc. cbn. rewrite dom_insert_L, IH, fmap_app.
  rewrite list_to_set_app_L. cbn. set_solver.
Qed.

Lemma track_all_total calls :
  HashTableAllocator.total_allocated (track_all calls) = Z.of_nat (length calls).
Proof.
  induction calls as [|c calls IH] using rev_ind; [done|].
  rewrite track_all_snoc, length_app. cbn. rewrite IH. lia.
Qed.

Lemma size_list_to_set_NoDup (l : list Z) :
  size (list_to_set l : gset Z) = length l ↔ NoDup l.
Proof.
  split; [|apply size_list_to_set].
  induction l as [|x l IH]; intros Hsize; [constructor|].
  cbn in Hsize.
  pose proof (size_list_to_set_le l) as Hle.
  destruct (decide (x ∈ l)) as [Hin|Hnotin].
  - assert ({[x]} ∪ list_to_set l = (list_to_set l : gset Z)) as Heq by set_solver.
    rewrite Heq in Hsize. lia.
  - rewrite size_union, size_singleton in Hsize by set_solver.
    constructor; [done|]. apply IH. lia.
Qed.

(** X1.  After any sequence of [track] calls on a new allocator,
    [total_allocated] is the number of calls and [count] is the number of
    different identities tracked.  So [count] never exceeds
    [total_allocated], and the two are equal exactly when no identity was
    tracked twice. *)
Theorem track_counts calls :
  let stats := HashTableAllocator.get_stats (track_all calls) in
  let ids := tracked_id <$> calls in
  HashTableAllocator.stats_total_allocated stats = Z.of_nat (length calls)
  ∧ HashTableAllocator.count stats = Z.of_nat (size (list_to_set ids : gset Z))
  ∧ HashTableAllocator.count stats ≤ HashTableAllocator.stats_total_allocated stats
  ∧ (HashTableAllocator.count stats = HashTableAllocator.stats_total_allocated stats
     ↔ NoDup ids).
Proof.
  intros stats ids. subst stats. cbn.
  rewrite track_all_total, <- size_dom, track_all_dom. fold ids.
  pose proof (size_list_to_set_le ids) as Hle.
  assert (length ids = length calls) as Hlen by apply length_fmap.
  split_and!; [done|done|lia|].
  rewrite <- size_list_to_set_NoDup. lia.
Qed.

(** X2.  After any sequence of [track] calls, the record kept for an
    identity is the one written by the last call for that identity, and an
    identity that was never tracked has no record. *)
Theorem track_last_wins calls i :
  HashTableAllocator.allocations (track_all calls) !! i
  = recorded <$> last (filter (λ c, tracked_id c = i) calls).
Proof.
  induction calls as [|c calls IH] using rev_ind; [done|].
  rewrite track_all_snoc, filter_app, filter_cons, filter_nil.
  unfold track_call, HashTableAllocator.track. cbn.
  destruct (decide (tracked_id c = i)) as [<-|Hne].
  - by rewrite lookup_insert_eq, last_snoc.
  - rewrite lookup_insert_ne by done. by rewrite app_nil_r.
Qed.

Lemma total_bytes_insert (m : gmap Z (HashTableAllocator.allocation Time)) i a :
  map_fold (λ _ a acc, acc + HashTableAllocator.size_of a) 0 (<[i := a]> m)
  = map_fold (λ _ a acc, acc + HashTableAllocator.size_of a) 0 m
    - from_option HashTableAllocator.size_of 0 (m !! i)
    + HashTableAllocator.size_of a.
Proof.
  assert (∀ (m' : gmap Z (HashTableAllocator.allocation Time)) j b,
            m' !! j = None →
            map_fold (λ _ a acc, acc + HashTableAllocator.size_of a) 0 (<[j := b]> m')
            = map_fold (λ _ a acc, acc + HashTableAllocator.size_of a) 0 m'
              + HashTableAllocator.size_of b) as Hfresh.
  { intros m' j b Hj. rewrite map_fold_insert_L; [done| |done]. intros. lia. }
  destruct (m !! i) as [old|] eqn:Hi; cbn.
  - rewrite <- (insert_delete_eq m).
    rewrite <- (insert_delete_id m i old Hi) at 2.
    rewrite !Hfresh by apply lookup_delete_eq. lia.
  - rewrite Hfresh by done. lia.
Qed.

(** X3.  [total_bytes] counts every identity once, with the size recorded
    last: a call of [track] changes it by the new size minus the size of
    the record it replaces, if there is one; and after calls with pairwise
    different identities it is the sum of the sizes. *)
Theorem track_total_bytes :
  (∀ self obj_id sz now stk,
     HashTableAllocator.total_bytes
       (HashTableAllocator.get_stats
          (HashTableAllocator.track obj_id sz now stk self))
     = HashTableAllocator.total_bytes (HashTableAllocator.get_stats self)
       - from_option HashTableAllocator.size_of 0
           (HashTableAllocator.allocations self !! obj_id)
       + sz)
  ∧ ∀ calls,
      NoDup (tracked_id <$> calls) →
      HashTableAllocator.total_bytes (HashTableAllocator.get_stats (track_all calls))
      = foldr Z.add 0 (tracked_size <$> calls).
Proof.
  assert (∀ self obj_id sz now stk,
     HashTableAllocator.total_bytes
       (HashTableAllocator.get_stats
          (HashTableAllocator.track obj_id sz now stk self))
     = HashTableAllocator.total_bytes (HashTableAllocator.get_stats self)
       - from_option HashTableAllocator.size_of 0
           (HashTableAllocator.allocations self !! obj_id)
       + sz) as Hstep.
  { intros self obj_id sz now stk. cbn. by rewrite total_bytes_insert. }
  split; [done|].
  induction calls as [|c calls IH] using rev_ind; intros Hnd; [done|].
  rewrite fmap_app in Hnd. apply NoDup_app in Hnd as (Hnd & Hfresh & _).
  rewrite track_all_snoc. unfold track_call. rewrite Hstep, IH by done.
  assert (HashTableAllocator.allocations (track_all calls) !! tracked_id c = None)
    as ->.
  { apply not_elem_of_dom. rewrite track_all_dom, elem_of_list_to_set.
    intros Hin. apply (Hfresh _ Hin). by left. }
  rewrite fmap_app, foldr_app. cbn.
  generalize (tracked_size <$> calls). intros l.
  induction l as [|z l IHl]; cbn; lia.
Qed.

End AllocationSequences.

Arguments tracking : clear implicits.

(** [test_hash_table] of [tests/test_algorithms.py]; the result is the
    pair of the two comparisons it asserts. *)
Section TestHashTable.
Context {Time : Type}.

Definition test_hash_table (id1 id2 size1 size2 : Z) (now1 now2 : Time)
  : bool * bool :=
  let allocator := HashTableAllocator.init in
  let allocator :=
    HashTableAllocator.track id1 size1 now1 ["stack1"] allocator in
  let allocator :=
    HashTableAllocator.track id2 size2 now2 ["stack2"] allocator in
  let stats := HashTableAllocator.get_stats allocator in
  (bool_decide (HashTableAllocator.count stats = 2),
   bool_decide (HashTableAllocator.stats_total_allocated stats = 2)).

(** X4.  Of the two comparisons asserted by [test_hash_table], the one on
    ['total_allocated'] holds whatever the identities of the two objects
    are, and the one on ['count'] holds exactly when the two objects have
    different identities. *)
Theorem test_hash_table_asserts id1 id2 size1 size2 now1 now2 :
  test_hash_table id1 id2 size1 size2 now1 now2 = (bool_decide (id1 ≠ id2), true).
Proof.
  unfold test_hash_table. cbn. f_equal.
  destruct (decide (id1 = id2)) as [->|Hne].
  - rewrite insert_insert_eq, map_size_insert_None, map_size_empty by done.
    rewrite bool_decide_false by lia. by rewrite bool_decide_false by auto.
  - rewrite !map_size_insert_None, map_size_empty.
    + rewrite bool_decide_true by lia. by rewrite bool_decide_true.
    + done.
    + by rewrite lookup_insert_ne.
Qed.
End TestHashTable.

(** * Operations on the forest, one at a time *)

Section ForestOperations.
Context `{Countable K}.
Implicit Types (p q : gmap K K) (s : UnionFind.t K) (x y z r : K)
  (path : list K) (ops : list (op K)).

(** [find] of a root returns it and changes nothing. *)
Lemma find_root s r :
  UnionFind.parent s !! r = Some r → UnionFind.find r s = (Ok r, s).
Proof.
  intros Hr. rewrite (find_climbs s [] r r) by by constructor.
  by destruct s.
Qed.

(** X5.  After any sequence of operations, [make_set x] changes nothing
    when [x] is registered already: it does not take [x] out of the set
    it was united into.  Otherwise it enters [x] as its own parent with
    rank 0: [find x] then returns [x], no other element has [x] as its
    root, and the root of every other element is what it was. *)
Theorem make_set_singleton_or_nothing ops x :
  let s := after ops in
  let s' := UnionFind.make_set x s in
  (MakeSet x ∈ ops → s' = s)
  ∧ (MakeSet x ∉ ops →
       UnionFind.parent s' = <[x := x]> (UnionFind.parent s)
       ∧ UnionFind.rank s' = <[x := 0]> (UnionFind.rank s)
       ∧ UnionFind.find x s' = (Ok x, s')
       ∧ (∀ z, root_of s' z x → z = x))
  ∧ (∀ z r, z ≠ x → root_of s' z r ↔ root_of s z r)
  ∧ forest s'.
Proof.
  intros s s'. destruct (after_forest ops) as [Hs Hreg]. fold s in Hs, Hreg.
  split_and!.
  - intros Hx. apply make_set_known. by apply Hreg.
  - intros Hx. assert (¬ registered s x) as Hnew by by rewrite Hreg.
    unfold s'. rewrite make_set_fresh by done. cbn. split_and!; try done.
    + apply find_root. cbn. apply lookup_insert_eq.
    + intros z Hz. rewrite <- (make_set_fresh s x Hnew) in Hz.
      apply make_set_root_of in Hz as [Hz|(_ & -> & _)]; [|done..].
      destruct Hnew. apply (root_of_registered s x x), root_of_root.
      by eapply root_of_is_root.
  - intros z r Hne. unfold s'. rewrite make_set_root_of by done. naive_solver.
  - by apply make_set_forest.
Qed.

(** X6.  [union x y] raises [KeyError] when [x] or [y] was never
    registered.  When [x] is the unregistered one nothing changes.  When
    only [y] is, the call has already run [find x], and the forest is left
    as that [find] left it: the same elements, the same ranks and the same
    root for every element. *)
Theorem union_unregistered_raises ops x y :
  let s := after ops in
  MakeSet x ∉ ops ∨ MakeSet y ∉ ops →
  ∃ s', UnionFind.union x y s = (Raise KeyError, s')
        ∧ (MakeSet x ∉ ops → s' = s)
        ∧ (MakeSet x ∈ ops → ∃ root_x, UnionFind.find x s = (Ok root_x, s'))
        ∧ forest s'
        ∧ (∀ z, registered s' z ↔ registered s z)
        ∧ (∀ z r, root_of s' z r ↔ root_of s z r)
        ∧ UnionFind.rank s' = UnionFind.rank s.
Proof.
  intros s Hmissing. destruct (after_forest ops) as [Hs Hreg]. fold s in Hs, Hreg.
  unfold UnionFind.union, mbind, stateful_bind.
  destruct (decide (registered s x)) as [Hrx|Hrx].
  - assert (MakeSet x ∈ ops) as Hx by by apply Hreg.
    assert (MakeSet y ∉ ops) as Hy by tauto.
    destruct (find_ok s x Hs Hrx) as (path & r & Hc & Hfind).
    destruct (repoint_forest s path x r Hs Hc) as (Hs' & Hreg' & Hroots).
    rewrite Hfind. rewrite find_unregistered by (by rewrite Hreg', Hreg).
    eexists. split; [done|]. split_and!; try done. by exists r.
  - rewrite find_unregistered by done.
    exists s. split_and!; try done. intros Hx. by apply Hreg in Hx.
Qed.

(** X7.  A [find x] that returned [r] can be repeated: the second call
    returns [r] again and changes nothing, and so does [find r].  The
    first call changed no rank and no root. *)
Theorem find_again ops x r s' :
  UnionFind.find x (after ops) = (Ok r, s') →
  UnionFind.find x s' = (Ok r, s')
  ∧ UnionFind.find r s' = (Ok r, s')
  ∧ (∀ z r', root_of s' z r' ↔ root_of (after ops) z r')
  ∧ UnionFind.rank s' = UnionFind.rank (after ops).
Proof.
  destruct (after_forest ops) as [Hs _]. set (s := after ops) in *.
  intros Hfind. destruct (decide (registered s x)) as [Hx|Hx];
    [|by rewrite find_unregistered in Hfind].
  destruct (find_ok s x Hs Hx) as (path & r0 & Hc & Hfind').
  rewrite Hfind' in Hfind. simplify_eq.
  destruct (repoint_forest s path x r Hs Hc) as (_ & _ & Hroots).
  set (s' := UnionFind.Make (repoint path r (UnionFind.parent s))
               (UnionFind.rank s)) in *.
  assert (UnionFind.parent s' !! r = Some r) as Hr.
  { apply (root_of_is_root s' x), Hroots. by exists path. }
  split_and!; [|by apply find_root|done|done].
  inversion Hc as [? Hroot|? y path' ? Hxy Hne Hy]; subst.
  - by apply find_root.
  - assert (UnionFind.parent s' !! x = Some r) as Hxr.
    { apply repoint_lookup_path. by left. }
    assert (r ≠ x) as Hrx.
    { intros ->. apply climbs_NoDup in Hc. cbn in Hc.
      apply NoDup_cons in Hc as [Hnotin _]. apply Hnotin. set_solver. }
    rewrite (find_climbs s' [x] x r).
    + cbn. by rewrite insert_id.
    + apply climbs_link with r; [done|done|by constructor].
Qed.

(** ** Union by rank

    Ranks are natural numbers; a parent link leads to a strictly higher
    rank; and at least [2 ^ k] elements have a root of rank [k] as their
    root. *)
Record ranked s : Prop := Ranked {
  ranked_nonneg : ∀ x k, UnionFind.rank s !! x = Some k → 0 ≤ k;
  ranked_links : ∀ x y kx ky,
    UnionFind.parent s !! x = Some y → y ≠ x →
    UnionFind.rank s !! x = Some kx → UnionFind.rank s !! y = Some ky →
    kx < ky;
  ranked_sizes : ∀ r k,
    UnionFind.parent s !! r = Some r → UnionFind.rank s !! r = Some k →
    ∃ members : gset K,
      (∀ z, z ∈ members → root_of s z r) ∧ 2 ^ k ≤ Z.of_nat (size members)
}.

Lemma ranked_init : ranked (UnionFind.init (K := K)).
Proof.
  split; cbn.
  - intros x k Hx. by rewrite lookup_empty in Hx.
  - intros x y kx ky Hx. by rewrite lookup_empty in Hx.
  - intros r k Hr. by rewrite lookup_empty in Hr.
Qed.

(** Each link of a climb raises the rank by one or more. *)
Lemma climbs_rank s path x r kx :
  forest s → ranked s →
  climbs (UnionFind.parent s) path x r →
  UnionFind.rank s !! x = Some kx →
  ∃ kr, UnionFind.rank s !! r = Some kr ∧ kx + Z.of_nat (length path) ≤ kr.
Proof.
  intros Hs Hrk Hc. revert kx.
  induction Hc as [r Hr|x y path r Hx Hne Hc IH]; intros kx Hkx.
  - exists kx. split; [done|]. cbn. lia.
  - assert (is_Some (UnionFind.rank s !! y)) as [ky Hky].
    { apply (forest_ranked _ Hs). by eapply climbs_registered. }
    destruct (IH ky Hky) as (kr & Hkr & Hle). exists kr. split; [done|].
    pose proof (ranked_links _ Hrk x y kx ky Hx Hne Hkx Hky).
    cbn [length]. lia.
Qed.

Lemma climbs_rank_path s path x r z kz kr :
  forest s → ranked s →
  climbs (UnionFind.parent s) path x r → z ∈ path →
  UnionFind.rank s !! z = Some kz → UnionFind.rank s !! r = Some kr →
  kz < kr.
Proof.
  intros Hs Hrk Hc Hz Hkz Hkr.
  destruct (climbs_suffix _ _ _ _ _ Hc Hz) as (path' & Hc' & _).
  destruct (climbs_rank s path' z r kz Hs Hrk Hc' Hkz) as (kr' & Hkr' & Hle).
  assert (kr' = kr) as -> by congruence.
  destruct path' as [|? path']; [|cbn [length] in Hle; lia].
  inversion Hc'; subst. apply climbs_NoDup in Hc.
  apply NoDup_app in Hc as (_ & Hdisj & _). destruct (Hdisj r Hz). by left.
Qed.

Lemma ranked_make_set s x : forest s → ranked s → ranked (UnionFind.make_set x s).
Proof.
  intros Hs Hrk. destruct (decide (registered s x)) as [Hx|Hx].
  { by rewrite make_set_known. }
  pose proof (make_set_root_of s x) as Hroots.
  rewrite make_set_fresh in * by done.
  assert (UnionFind.rank s !! x = None) as Hnone.
  { apply eq_None_not_Some. by rewrite <- (forest_ranked _ Hs). }
  destruct Hrk as [Hnn Hlinks Hsizes]. split; cbn.
  - intros z k. rewrite lookup_insert_Some. intros [[_ <-]|[_ Hz]]; [done|eauto].
  - intros a b ka kb. rewrite lookup_insert_Some.
    intros [[<- <-]|[Hax Hab]] Hne; [done|].
    assert (b ≠ x) as Hbx.
    { intros ->. apply Hx.
      destruct (forest_rooted _ Hs a) as [r [pa Hc]]; [by eexists|].
      inversion Hc; simplify_eq. by eapply climbs_registered. }
    rewrite !lookup_insert_ne by done. by apply Hlinks.
  - intros r k. rewrite !lookup_insert_Some.
    intros [[_ <-]|[Hne Hr]] [[? <-]|[? Hk]]; try done.
    + exists {[x]}. split; [|by rewrite size_singleton].
      intros z ->%elem_of_singleton. apply Hroots; auto.
    + destruct (Hsizes r k Hr Hk) as (members & Hmem & Hsize).
      exists members. split; [|done]. intros z Hz. apply Hroots; auto.
Qed.

Lemma ranked_repoint s path x r :
  forest s → ranked s → climbs (UnionFind.parent s) path x r →
  ranked (UnionFind.Make (repoint path r (UnionFind.parent s)) (UnionFind.rank s)).
Proof.
  intros Hs Hrk Hc.
  destruct (repoint_forest s path x r Hs Hc) as (_ & _ & Hroots).
  pose proof Hrk as [Hnn Hlinks Hsizes]. split; cbn.
  - done.
  - intros a b ka kb Ha Hne Hka Hkb. destruct (decide (a ∈ path)) as [Hin|Hnotin].
    + rewrite repoint_lookup_path in Ha by done. simplify_eq.
      by eapply climbs_rank_path.
    + rewrite repoint_lookup_other in Ha by done. by eapply Hlinks.
  - intros r' k Hr' Hk.
    assert (UnionFind.parent s !! r' = Some r') as Hroot.
    { apply (root_of_is_root s r'), Hroots, root_of_root. done. }
    destruct (Hsizes r' k Hroot Hk) as (members & Hmem & Hsize).
    exists members. split; [|done]. intros z Hz. by apply Hroots, Hmem.
Qed.

(** Attaching the root [a] under the root [b], whose rank becomes [kb']. *)
Lemma ranked_attach s a b ka kb kb' :
  forest s → ranked s →
  UnionFind.parent s !! a = Some a → UnionFind.parent s !! b = Some b →
  a ≠ b →
  UnionFind.rank s !! a = Some ka → UnionFind.rank s !! b = Some kb →
  kb ≤ kb' → ka < kb' → (kb' = kb ∨ (ka = kb ∧ kb' = kb + 1)) →
  ranked (UnionFind.Make (<[a := b]> (UnionFind.parent s))
            (<[b := kb']> (UnionFind.rank s))).
Proof.
  intros Hs Hrk Ha Hb Hab Hka Hkb Hle Hlt Hcase.
  destruct (attach_forest s a b (<[b := kb']> (UnionFind.rank s)) Hs Ha Hb Hab)
    as (_ & _ & Hroots).
  { intros z. rewrite lookup_insert_is_Some.
    split; [intros [<-|[_ ?]]; eauto|].
    intros Hz. destruct (decide (b = z)); auto. }
  pose proof Hrk as [Hnn Hlinks Hsizes]. split; cbn.
  - intros z k. rewrite lookup_insert_Some. intros [[_ <-]|[_ Hz]]; [|eauto].
    apply Hnn in Hkb. lia.
  - intros u v ku kv. rewrite lookup_insert_Some.
    intros [[<- <-]|[Hne Hu]] Huv.
    + rewrite lookup_insert_ne, lookup_insert_eq by done. intros ? ?. simplify_eq. done.
    + assert (u ≠ b) as Hub by congruence.
      rewrite (lookup_insert_ne _ b u) by done. intros Hku.
      rewrite lookup_insert_Some. intros [[<- <-]|[_ Hkv]].
      * pose proof (Hlinks u b ku kb Hu Huv Hku Hkb). lia.
      * by eapply Hlinks.
  - intros r k. rewrite lookup_insert_Some. intros [[<- ?]|[Hne Hr]]; [done|].
    rewrite lookup_insert_Some. intros [[<- <-]|[Hrb Hk]].
    + destruct (Hsizes b kb Hb Hkb) as (mb & Hmb & Hsb).
      destruct Hcase as [->|[-> ->]].
      * exists mb. split; [|done]. intros z Hz. apply Hroots.
        exists b. split; [auto|]. by rewrite decide_False.
      * destruct (Hsizes a kb Ha Hka) as (ma & Hma & Hsa).
        exists (ma ∪ mb). split.
        -- intros z [Hz|Hz]%elem_of_union; apply Hroots.
           ++ exists a. split; [auto|]. by rewrite decide_True.
           ++ exists b. split; [auto|]. by rewrite decide_False.
        -- rewrite size_union.
           ++ rewrite Z.pow_add_r by (apply Hnn in Hkb; lia). lia.
           ++ intros z Hza Hzb. apply Hab.
              eapply root_of_det; [by apply Hma|by apply Hmb].
    + destruct (Hsizes r k Hr Hk) as (mr & Hmr & Hsr).
      exists mr. split; [|done]. intros z Hz. apply Hroots.
      exists r. split; [auto|]. by rewrite decide_False.
Qed.

Lemma ranked_linked s2 rx ry kx ky :
  forest s2 → ranked s2 →
  UnionFind.parent s2 !! rx = Some rx → UnionFind.parent s2 !! ry = Some ry →
  UnionFind.rank s2 !! rx = Some kx → UnionFind.rank s2 !! ry = Some ky →
  ranked (linked s2 rx ry kx ky).
Proof.
  intros Hs Hrk Hrx Hry Hkx Hky. unfold linked.
  destruct (decide (rx = ry)) as [->|Hne]; [done|].
  destruct (decide (kx < ky)); [|destruct (decide (kx > ky))].
  - rewrite <- (insert_id (UnionFind.rank s2) ry ky) by done.
    apply (ranked_attach s2 rx ry kx ky ky); auto; lia.
  - rewrite <- (insert_id (UnionFind.rank s2) rx kx) by done.
    apply (ranked_attach s2 ry rx ky kx kx); auto; lia.
  - apply (ranked_attach s2 ry rx ky kx (kx + 1)); auto; lia.
Qed.

Lemma step_ranked s o : forest s → ranked s → ranked (step o s).2.
Proof.
  intros Hs Hrk. destruct o as [x|x|x y]; cbn.
  - by apply ranked_make_set.
  - unfold mbind, stateful_bind.
    destruct (decide (registered s x)) as [Hx|Hx].
    + destruct (find_ok s x Hs Hx) as (path & r & Hc & ->). cbn.
      by eapply ranked_repoint.
    + by rewrite find_unregistered.
  - destruct (decide (registered s x)) as [Hx|Hx].
    + destruct (find_ok s x Hs Hx) as (px & rx & Hcx & Hfx).
      destruct (repoint_forest s px x rx Hs Hcx) as (Hs1 & Hreg1 & _).
      pose proof (ranked_repoint s px x rx Hs Hrk Hcx) as Hrk1.
      destruct (decide (registered s y)) as [Hy|Hy].
      * destruct (union_ok s x y Hs Hx Hy)
          as (rx' & ry & s1 & s2 & kx & ky & Hfx' & Hfy & Hrx & Hry & _ & _
              & Hroots & _ & Hkx & Hky & ->).
        rewrite Hfx in Hfx'. injection Hfx' as <- <-.
        assert (forest s2 ∧ ranked s2) as [Hs2 Hrk2].
        { destruct (find_ok _ y Hs1) as (py & r & Hcy & Hfy'); [by apply Hreg1|].
          rewrite Hfy in Hfy'. injection Hfy' as <- ->.
          destruct (repoint_forest _ py y ry Hs1 Hcy) as (? & _ & _).
          split; [done|]. exact (ranked_repoint _ py y ry Hs1 Hrk1 Hcy). }
        cbn [snd]. apply ranked_linked; try done.
        -- apply (root_of_is_root s2 x), Hroots, Hrx.
        -- apply (root_of_is_root s2 y), Hroots, Hry.
      * unfold UnionFind.union, mbind, stateful_bind. rewrite Hfx.
        by rewrite find_unregistered by (by rewrite Hreg1).
    + unfold UnionFind.union, mbind, stateful_bind.
      by rewrite find_unregistered.
Qed.

Lemma after_ranked ops : ranked (after ops).
Proof.
  induction ops as [|o ops IH] using rev_ind; [apply ranked_init|].
  unfold after in *. rewrite foldl_app. cbn.
  apply step_ranked; [|done]. apply after_forest.
Qed.

(** X8.  After any sequence of operations, whether they returned or
    raised: the elements with a rank are the registered ones, ranks are
    not negative, and the parent of an element that is not a root has a
    strictly higher rank than the element. *)
Theorem rank_increases_towards_root ops :
  let s := after ops in
  (∀ x, MakeSet x ∈ ops ↔ is_Some (UnionFind.rank s !! x))
  ∧ (∀ x k, UnionFind.rank s !! x = Some k → 0 ≤ k)
  ∧ ∀ x y,
      UnionFind.parent s !! x = Some y → y ≠ x →
      ∃ kx ky,
        UnionFind.rank s !! x = Some kx ∧ UnionFind.rank s !! y = Some ky
        ∧ kx < ky.
Proof.
  intros s. destruct (after_forest ops) as [Hs Hreg]. fold s in Hs, Hreg.
  pose proof (after_ranked ops) as [Hnn Hlinks _]. fold s in Hnn, Hlinks.
  split_and!; [|done|].
  - intros x. by rewrite <- Hreg, (forest_ranked _ Hs).
  - intros x y Hx Hne.
    assert (registered s x) as Hrx by by eexists.
    assert (registered s y) as Hry.
    { destruct (forest_rooted _ Hs x Hrx) as [r [path Hc]].
      inversion Hc; simplify_eq. by eapply climbs_registered. }
    apply (forest_ranked _ Hs) in Hrx as [kx Hkx].
    apply (forest_ranked _ Hs) in Hry as [ky Hky].
    exists kx, ky. split_and!; [done..|]. by eapply Hlinks.
Qed.

(** X9.  After any sequence of operations, [find x] on a registered [x]
    follows a path that is at most as long as the rank [kr] of the root
    it returns, and [2 ^ kr] is at most the number of registered
    elements: the number of parent links followed is at most the binary
    logarithm of the number of elements. *)
Theorem find_path_logarithmic ops x :
  let s := after ops in
  MakeSet x ∈ ops →
  ∃ path r kr s',
    UnionFind.find x s = (Ok r, s')
    ∧ climbs (UnionFind.parent s) path x r
    ∧ UnionFind.rank s !! r = Some kr
    ∧ Z.of_nat (length path) ≤ kr
    ∧ 2 ^ kr ≤ Z.of_nat (size (UnionFind.parent s))
    ∧ 2 ^ Z.of_nat (length path) ≤ Z.of_nat (size (UnionFind.parent s)).
Proof.
  intros s Hx. destruct (after_forest ops) as [Hs Hreg]. fold s in Hs, Hreg.
  pose proof (after_ranked ops) as Hrk. fold s in Hrk.
  apply Hreg in Hx. destruct (find_ok s x Hs Hx) as (path & r & Hc & Hfind).
  pose proof Hx as [kx Hkx]%(forest_ranked _ Hs).
  destruct (climbs_rank s path x r kx Hs Hrk Hc Hkx) as (kr & Hkr & Hle).
  pose proof (ranked_nonneg _ Hrk x kx Hkx) as Hkx0.
  destruct (ranked_sizes _ Hrk r kr) as (members & Hmem & Hsize);
    [by eapply climbs_ends_at_root|done|].
  assert (size members ≤ size (UnionFind.parent s))%nat as Hsub.
  { rewrite <- (size_dom (D := gset K)). apply subseteq_size. intros z Hz.
    apply elem_of_dom. by apply (root_of_registered s z r), Hmem. }
  exists path, r, kr. eexists. split_and!; [done|done|done|lia|lia|].
  pose proof (Z.pow_le_mono_r 2 (Z.of_nat (length path)) kr). lia.
Qed.

End ForestOperations.

Lemma find_path_logarithmic_witness :
  MakeSet 1 ∈ [MakeSet 0; MakeSet 1; Union 0 1]
  ∧ ∃ path r s',
      UnionFind.find 1 (after [MakeSet 0; MakeSet 1; Union 0 1]) = (Ok r, s')
      ∧ climbs (UnionFind.parent (after [MakeSet 0; MakeSet 1; Union 0 1]))
          path 1 r
      ∧ 2 ^ Z.of_nat (length path)
        ≤ Z.of_nat (size (UnionFind.parent (after [MakeSet 0; MakeSet 1; Union 0 1]))).
Proof.
  assert (MakeSet 1 ∈ [MakeSet 0; MakeSet 1; Union (0 : Z) 1]) as Hin by set_solver.
  split; [done|].
  destruct (find_path_logarithmic [MakeSet 0; MakeSet 1; Union 0 1] 1 Hin)
    as (path & r & kr & s' & Hfind & Hclimbs & _ & _ & _ & Hlog).
  by exists path, r, s'.
Defined.

Lemma union_unregistered_raises_witness :
  (MakeSet 0 ∉ [MakeSet 1] ∨ MakeSet 1 ∉ [MakeSet (1 : Z)])
  ∧ ∃ s', UnionFind.union 0 1 (after [MakeSet 1]) = (Raise KeyError, s').
Proof.
  assert (MakeSet 0 ∉ [MakeSet 1] ∨ MakeSet 1 ∉ [MakeSet (1 : Z)]) as Hmissing.
  { left. intros Hin. apply list_elem_of_singleton in Hin. discriminate. }
  split; [done|].
  destruct (union_unregistered_raises [MakeSet 1] 0 1 Hmissing) as (s' & Hraise & _).
  by exists s'.
Defined.

Lemma find_again_witness :
  UnionFind.find 1 (after [MakeSet 0; MakeSet 1; Union 0 1])
  = (Ok 0, after [MakeSet 0; MakeSet 1; Union 0 1])
  ∧ UnionFind.find 0 (after [MakeSet 0; MakeSet 1; Union 0 1])
    = (Ok 0, after [MakeSet 0; MakeSet 1; Union 0 1]).
Proof.
  assert (UnionFind.find 1 (after [MakeSet 0; MakeSet 1; Union 0 1])
          = (Ok 0, after [MakeSet 0; MakeSet 1; Union 0 1])) as Hfind
    by (by vm_compute).
  split; [done|].
  by destruct (find_again [MakeSet 0; MakeSet 1; Union 0 1] 1 0 _ Hfind)
    as (_ & Hroot & _).
Defined.

(** * The union-find workload of the benchmarks *)

(** [range(start, stop, step)] for a positive [step]. *)
Definition range (start stop step : Z) : list Z :=
  (λ k, start + k * step) <$> seqZ 0 ((stop - start + step - 1) `div` step).

(** The three loops timed by [benchmark_union_find] and by the grouping
    experiment, for a problem of size [n]. *)
Definition union_find_workload (n : Z) : list (op Z) :=
  (MakeSet <$> range 0 n 1)
  ++ ((λ i, Union i (i + 1)) <$> range 0 (n - 1) 2)
  ++ (Find <$> range 0 n 1).

Lemma elem_of_range_1 n i : i ∈ range 0 n 1 ↔ 0 ≤ i < n.
Proof.
  unfold range. rewrite list_elem_of_fmap. setoid_rewrite elem_of_seqZ.
  replace ((n - 0 + 1 - 1) `div` 1) with n by (rewrite Z.div_1_r; lia).
  split; [intros (k & -> & ?); lia|]. intros Hi. exists i. lia.
Qed.

Lemma elem_of_range_2 n i :
  i ∈ range 0 (n - 1) 2 ↔ ∃ k, i = 2 * k ∧ 0 ≤ k ∧ 2 * k + 1 < n.
Proof.
  unfold range. rewrite list_elem_of_fmap. setoid_rewrite elem_of_seqZ.
  replace (n - 1 - 0 + 2 - 1) with n by lia.
  split.
  - intros (k & -> & Hk). exists k. split; [lia|].
    pose proof (Z.div_mod n 2). pose proof (Z.mod_pos_bound n 2). lia.
  - intros (k & -> & Hk). exists k. split; [lia|].
    pose proof (Z.div_mod n 2). pose proof (Z.mod_pos_bound n 2). lia.
Qed.

Lemma workload_unions n a b :
  Union a b ∈ union_find_workload n
  ↔ ∃ k, a = 2 * k ∧ b = 2 * k + 1 ∧ 0 ≤ k ∧ 2 * k + 1 < n.
Proof.
  unfold union_find_workload. rewrite !elem_of_app, !list_elem_of_fmap.
  setoid_rewrite elem_of_range_2. split.
  - intros [(? & ? & _)|[(i & Heq & k & -> & Hk)|(? & ? & _)]]; try done.
    simplify_eq. exists k. lia.
  - intros (k & -> & -> & Hk). right. left. exists (2 * k). split; [done|].
    exists k. lia.
Qed.

Lemma workload_make_sets n i :
  MakeSet i ∈ union_find_workload n ↔ 0 ≤ i < n.
Proof.
  unfold union_find_workload. rewrite !elem_of_app, !list_elem_of_fmap.
  setoid_rewrite elem_of_range_1. split.
  - intros [(? & ? & ?)|[(? & ? & _)|(? & ? & _)]]; by simplify_eq.
  - intros Hi. left. by exists i.
Qed.

Lemma workload_well_formed n : well_formed ∅ (union_find_workload n).
Proof.
  unfold union_find_workload.
  assert (∀ (seen : gset Z) l rest,
            well_formed (list_to_set l ∪ seen) rest →
            well_formed seen ((MakeSet <$> l) ++ rest)) as Hmake.
  { intros seen l. revert seen. induction l as [|x l IH]; intros seen rest Hrest.
    - cbn in *. eapply well_formed_mono; [|done]. set_solver.
    - cbn. apply IH. eapply well_formed_mono; [|done]. set_solver. }
  apply Hmake.
  assert (∀ x, x ∈ (list_to_set (range 0 n 1) ∪ ∅ : gset Z) ↔ 0 ≤ x < n) as Hseen.
  { intros x. rewrite elem_of_union, elem_of_list_to_set, elem_of_range_1.
    set_solver. }
  generalize dependent (list_to_set (range 0 n 1) ∪ ∅ : gset Z). intros seen Hseen.
  assert (∀ l, (∀ i, i ∈ l → 0 ≤ i ∧ i + 1 < n) →
               ∀ rest, well_formed seen rest →
               well_formed seen (((λ i, Union i (i + 1)) <$> l) ++ rest)) as Hunion.
  { induction l as [|x l IH]; intros Hl rest Hrest; [done|]. cbn.
    destruct (Hl x) as [? ?]; [by left|].
    split_and!; [apply Hseen; lia..|]. apply IH; [|done].
    intros i Hi. apply Hl. by right. }
  apply Hunion.
  { intros i (k & -> & ?)%elem_of_range_2. lia. }
  assert (∀ l, (∀ i, i ∈ l → 0 ≤ i < n) → well_formed seen (Find <$> l)) as Hfind.
  { induction l as [|x l IH]; intros Hl; [done|]. cbn.
    split; [apply Hseen, Hl; by left|]. apply IH. intros i Hi. apply Hl. by right. }
  apply Hfind. intros i. apply elem_of_range_1.
Qed.

Lemma workload_connected n i j :
  0 ≤ i < n → 0 ≤ j < n →
  connected (union_find_workload n) i j ↔ i `div` 2 = j `div` 2.
Proof.
  intros Hi Hj. split.
  - intros Hconn. clear Hi Hj. induction Hconn as [|a b c Hab _ IH]; [done|].
    rewrite <- IH.
    assert (∀ k, (2 * k) `div` 2 = k ∧ (2 * k + 1) `div` 2 = k) as Hdiv.
    { intros k. split; symmetry;
        [apply (Z.div_unique _ 2 k 0)|apply (Z.div_unique _ 2 k 1)]; lia. }
    destruct Hab as [Hab|Hab]; apply workload_unions in Hab as (k & -> & -> & _);
      destruct (Hdiv k) as [-> ->]; done.
  - intros Heq. destruct (decide (i = j)) as [->|Hne]; [done|].
    pose proof (Z.div_mod i 2). pose proof (Z.mod_pos_bound i 2).
    pose proof (Z.div_mod j 2). pose proof (Z.mod_pos_bound j 2).
    set (k := i `div` 2) in *.
    destruct (decide (i < j)).
    + apply rtsc_lr, workload_unions. exists k. lia.
    + apply rtsc_rl, workload_unions. exists k. lia.
Qed.

(** X10.  For every size [n] the workload runs without raising.
    Afterwards the registered elements are [0 .. n-1], and two of them
    have the same root exactly when they are the two members [2k],
    [2k+1] of one pair. *)
Theorem union_find_workload_groups n :
  ∃ s,
    run (union_find_workload n) UnionFind.init = (Ok (), s)
    ∧ (∀ i, registered s i ↔ 0 ≤ i < n)
    ∧ ∀ i j, 0 ≤ i < n → 0 ≤ j < n →
        ∃ root_i root_j s1 s2,
          UnionFind.find i s = (Ok root_i, s1)
          ∧ UnionFind.find j s1 = (Ok root_j, s2)
          ∧ (root_i = root_j ↔ i `div` 2 = j `div` 2).
Proof.
  destruct (run_agrees (union_find_workload n) UnionFind.init []
              forest_init agrees_init)
    as (s & Hrun & Hs & Hag & Hreg); [apply workload_well_formed|].
  cbn in Hag.
  assert (∀ i, registered s i ↔ 0 ≤ i < n) as Hregistered.
  { intros i. rewrite Hreg, workload_make_sets. split; [|auto].
    intros [[v Hv]|?]; [|done]. cbn in Hv. by rewrite lookup_empty in Hv. }
  exists s. split; [done|]. split; [done|]. intros i j Hi Hj.
  destruct (union_ok s i j Hs) as (ri & rj & s1 & s2 & _ & _ & Hfi & Hfj & Hri
                                    & Hrj & _); [by apply Hregistered..|].
  exists ri, rj, s1, s2. split; [done|]. split; [done|].
  rewrite <- (workload_connected n) by done. split.
  - intros ->. by eapply agrees_connected.
  - intros Hconn. by eapply agrees_same_root.
Qed.

(** * The number of sets *)

Section CountingSets.
Context `{Countable K}.
Implicit Types (s : UnionFind.t K) (x y z r : K) (ops : list (op K)).

(** The roots of the forest, one for each set. *)
Definition roots s : gset K :=
  dom (filter (λ kv, kv.1 = kv.2) (UnionFind.parent s)).

Lemma elem_of_roots s r : r ∈ roots s ↔ UnionFind.parent s !! r = Some r.
Proof.
  unfold roots. rewrite elem_of_dom. split.
  - intros [v Hv]. apply map_lookup_filter_Some in Hv as [Hv Heq].
    cbn in Heq. by subst.
  - intros Hr. exists r. by apply map_lookup_filter_Some.
Qed.

Lemma elem_of_roots_root_of s r : r ∈ roots s ↔ root_of s r r.
Proof.
  rewrite elem_of_roots. split; [apply root_of_root|apply root_of_is_root].
Qed.

Lemma roots_same s s' :
  (∀ z r, root_of s' z r ↔ root_of s z r) → roots s' = roots s.
Proof.
  intros Hroots. apply set_eq. intros r. by rewrite !elem_of_roots_root_of.
Qed.

(** X11.  The roots of the forest number its sets.  After any sequence
    of operations, [make_set x] adds [x] as one more root when [x] is new
    and changes no root otherwise; [find] leaves the roots as they are;
    and [union] of two registered elements adds no root, keeps the root
    of one of its arguments, and lowers the number of sets by one when
    the two roots differ and by none when they are the same. *)
Theorem operations_count_sets ops :
  let s := after ops in
  (∀ x, roots (UnionFind.make_set x s)
        = if decide (registered s x) then roots s else {[x]} ∪ roots s)
  ∧ (∀ x, roots (UnionFind.find x s).2 = roots s)
  ∧ ∀ x y root_x root_y,
      root_of s x root_x → root_of s y root_y →
      roots (UnionFind.union x y s).2 ⊆ roots s
      ∧ (root_x ∈ roots (UnionFind.union x y s).2
         ∨ root_y ∈ roots (UnionFind.union x y s).2)
      ∧ Z.of_nat (size (roots (UnionFind.union x y s).2))
        = Z.of_nat (size (roots s)) - (if decide (root_x = root_y) then 0 else 1).
Proof.
  intros s. destruct (after_forest ops) as [Hs _]. fold s in Hs. split_and!.
  - intros x. case_decide as Hx; [by rewrite make_set_known|].
    apply set_eq. intros r. rewrite elem_of_union, elem_of_singleton.
    rewrite !elem_of_roots_root_of, make_set_root_of by done.
    split.
    + intros [?|(_ & -> & _)]; auto.
    + intros [->|?]; auto.
  - intros x. destruct (decide (registered s x)) as [Hx|Hx].
    + destruct (find_ok s x Hs Hx) as (path & r & Hc & ->). cbn.
      destruct (repoint_forest s path x r Hs Hc) as (_ & _ & Hroots).
      by apply roots_same.
    + by rewrite find_unregistered.
  - intros x y root_x root_y Hrx Hry.
    destruct (union_merges s x y Hs) as (s' & rx & ry & top & -> & _ & _ & _
                                          & Hrx' & Hry' & Htop & Hroots);
      [by eapply root_of_registered..|].
    assert (rx = root_x) as -> by by eapply root_of_det.
    assert (ry = root_y) as -> by by eapply root_of_det.
    cbn [snd].
    assert (root_x ∈ roots s ∧ root_y ∈ roots s) as [Hx Hy].
    { rewrite !elem_of_roots. split; by eapply root_of_is_root. }
    assert (roots s' = {[top]} ∪ roots s ∖ {[root_x; root_y]}) as Heq.
    { apply set_eq. intros r. rewrite elem_of_roots_root_of, Hroots.
      rewrite elem_of_union, elem_of_difference, elem_of_singleton.
      rewrite elem_of_union, !elem_of_singleton, elem_of_roots_root_of.
      split.
      - intros (r0 & Hr0 & ->). case_decide as Hcase; [by left|].
        right. split; [done|]. done.
      - intros [->|[Hr Hout]].
        + exists top. split.
          * destruct Htop as [-> | ->]; by apply elem_of_roots_root_of.
          * rewrite decide_True; [done|]. destruct Htop; auto.
        + exists r. split; [done|]. by rewrite decide_False. }
    split_and!.
    + rewrite Heq. destruct Htop as [-> | ->]; set_solver.
    + rewrite Heq. destruct Htop as [-> | ->]; set_solver.
    + rewrite Heq, size_union, size_singleton by set_solver.
      rewrite size_difference by set_solver.
      case_decide as Hsame.
      * subst. assert ({[root_y; root_y]} = ({[root_y]} : gset K)) as -> by set_solver.
        rewrite size_singleton.
        assert (size (roots s) ≠ 0)%nat; [|lia].
        apply size_non_empty_iff. set_solver.
      * rewrite size_union, !size_singleton by set_solver.
        pose proof (subseteq_size ({[root_x; root_y]} : gset K) (roots s)
                      ltac:(set_solver)) as Hle.
        rewrite size_union, !size_singleton in Hle by set_solver. lia.
Qed.

End CountingSets.

(** * The memory tracker *)

Section TrackerSessions.
Context {Time : Type}.
Implicit Types (self : MemoryTracker.t Time).

(** The calls a program makes on its tracker. *)
Inductive event : Type :=
  | Track (obj_id getsizeof : Z) (now : Time) (extract_stack : list string)
  | NextFrame.

Definition apply_event self (e : event) : MemoryTracker.t Time :=
  match e with
  | Track obj_id getsizeof now extract_stack =>
      MemoryTracker.track obj_id getsizeof now extract_stack self
  | NextFrame => MemoryTracker.next_frame self
  end.

Definition session (events : list event) : MemoryTracker.t Time :=
  foldl apply_event MemoryTracker.init events.

(** The calls of [HashTableAllocator.track] made during a session. *)
Definition trackings (events : list event) : list (tracking Time) :=
  omap (λ e, match e with
             | Track obj_id getsizeof now extract_stack =>
                 Some (Tracking obj_id getsizeof now
                         (MemoryTracker.call_stack_slice extract_stack))
             | NextFrame => None
             end) events.

#[local] Instance event_eq_NextFrame_dec (e : event) : Decision (e = NextFrame).
Proof. destruct e; [right|left]; done. Defined.

(** The number of calls of [next_frame]. *)
Definition frames_in (events : list event) : nat :=
  length (filter (λ e, e = NextFrame) events).

Lemma session_snoc events e :
  session (events ++ [e]) = apply_event (session events) e.
Proof. unfold session. by rewrite foldl_app. Qed.

Lemma session_allocator events :
  MemoryTracker.allocator (session events) = track_all (trackings events).
Proof.
  induction events as [|e events IH] using rev_ind; [done|].
  rewrite session_snoc. unfold trackings in *. rewrite omap_app.
  destruct e as [obj_id sz now stack|]; cbn.
  - by rewrite track_all_snoc, IH.
  - by rewrite app_nil_r.
Qed.

Lemma session_union_find events :
  MemoryTracker.union_find (session events)
  = after (MakeSet <$> (tracked_id <$> trackings events)).
Proof.
  induction events as [|e events IH] using rev_ind; [done|].
  rewrite session_snoc. unfold trackings in *. rewrite omap_app, !fmap_app.
  destruct e as [obj_id sz now stack|]; cbn.
  - unfold after in *. rewrite foldl_app. cbn. by rewrite IH.
  - by rewrite app_nil_r.
Qed.

(** Without [union], every element is a root of rank 0. *)
Lemma after_make_sets (ids : list Z) :
  let s := after (MakeSet <$> ids) in
  dom (UnionFind.parent s) = list_to_set ids
  ∧ (∀ i, i ∈ ids → UnionFind.parent s !! i = Some i ∧ UnionFind.rank s !! i = Some 0).
Proof.
  induction ids as [|i ids [IHdom IH]] using rev_ind.
  { cbn. split; [set_solver|]. by intros i ?%elem_of_nil. }
  cbn zeta in *. rewrite fmap_app. unfold after in *. rewrite foldl_app. cbn.
  set (s := foldl (λ s o, (step o s).2) UnionFind.init (MakeSet <$> ids)) in *.
  destruct (decide (i ∈ ids)) as [Hin|Hnew].
  - rewrite make_set_known by (destruct (IH i Hin) as [? _]; by eexists).
    split; [rewrite list_to_set_app_L; set_solver|].
    intros j [Hj|Hj%list_elem_of_singleton]%elem_of_app; subst; auto.
  - assert (¬ registered s i) as Hfresh.
    { unfold registered. rewrite <- elem_of_dom, IHdom. set_solver. }
    rewrite make_set_fresh by done. cbn. split.
    + rewrite dom_insert_L, IHdom, list_to_set_app_L. set_solver.
    + intros j [Hj|Hj%list_elem_of_singleton]%elem_of_app; subst.
      * assert (i ≠ j) by congruence. rewrite !lookup_insert_ne by done. auto.
      * by rewrite !lookup_insert_eq.
Qed.

(** X12.  In any session the allocator has received exactly the [track]
    calls of the session, each with a call stack of at most two lines.
    The union-find registry holds exactly the identities the allocator
    holds.  No [union] is ever made, so [find] returns a tracked identity
    itself, whose rank is 0, and raises [KeyError] for any other identity;
    in both cases the registry stays as it is. *)
Theorem tracker_registry events :
  let self := session events in
  let allocations := HashTableAllocator.allocations (MemoryTracker.allocator self) in
  let sets := MemoryTracker.union_find self in
  MemoryTracker.allocator self = track_all (trackings events)
  ∧ Forall (λ c, (length (tracked_stack c) ≤ 2)%nat) (trackings events)
  ∧ dom (UnionFind.parent sets) = dom allocations
  ∧ (∀ i, i ∈ dom allocations →
       UnionFind.find i sets = (Ok i, sets) ∧ UnionFind.rank sets !! i = Some 0)
  ∧ ∀ i, i ∉ dom allocations → UnionFind.find i sets = (Raise KeyError, sets).
Proof.
  intros self allocations sets. subst allocations sets self.
  rewrite session_allocator, session_union_find, track_all_dom.
  destruct (after_make_sets (tracked_id <$> trackings events)) as [Hdom Hroots].
  split_and!; [reflexivity| |exact Hdom|..].
  - apply Forall_forall. intros c Hc. unfold trackings in Hc.
    apply list_elem_of_omap in Hc as ([obj_id sz now stack|] & _ & Hc);
      simplify_eq. cbn. unfold MemoryTracker.call_stack_slice.
    rewrite length_drop, length_take. lia.
  - intros i Hi%elem_of_list_to_set. destruct (Hroots i Hi) as [Hp Hr].
    split; [|done]. by apply find_root.
  - intros i Hi. apply find_unregistered. unfold registered.
    by rewrite <- elem_of_dom, Hdom.
Qed.

Lemma frames_in_snoc events e :
  frames_in (events ++ [e])
  = (frames_in events + if decide (e = NextFrame) then 1 else 0)%nat.
Proof.
  unfold frames_in. rewrite filter_app, length_app, filter_cons, filter_nil.
  by case_decide.
Qed.

Lemma track_count_grows (a : HashTableAllocator.t Time) obj_id sz now stk :
  HashTableAllocator.count (HashTableAllocator.get_stats a)
  ≤ HashTableAllocator.count
      (HashTableAllocator.get_stats (HashTableAllocator.track obj_id sz now stk a)).
Proof.
  destruct (HashTableAllocator.allocations a !! obj_id) eqn:Hid.
  - rewrite track_count_known by eauto. lia.
  - rewrite track_count_fresh by done. lia.
Qed.

(** X13.  [current_frame] is the number of [next_frame] calls made, and
    [frame_data] holds one entry for each, numbered 1, 2, ... in order.
    The entry of a call records the count and the byte total of the
    allocator as they were at the call.  The recorded counts never
    decrease from one frame to the next and never exceed the present
    count.  [get_metrics] returns the frames with the present
    statistics. *)
Theorem tracker_frames events :
  let self := session events in
  let frames := MemoryTracker.frame_data self in
  MemoryTracker.current_frame self = Z.of_nat (frames_in events)
  ∧ MemoryTracker.frame_number <$> frames
    = (λ k, Z.of_nat k) <$> seq 1 (frames_in events)
  ∧ (∀ before later,
       events = before ++ NextFrame :: later →
       frames !! frames_in before
       = Some (MemoryTracker.Frame
                 (Z.of_nat (frames_in before) + 1)
                 (HashTableAllocator.count
                    (HashTableAllocator.get_stats
                       (MemoryTracker.allocator (session before))))
                 (HashTableAllocator.total_bytes
                    (HashTableAllocator.get_stats
                       (MemoryTracker.allocator (session before))))))
  ∧ (∀ i j f f',
       (i ≤ j)%nat → frames !! i = Some f → frames !! j = Some f' →
       MemoryTracker.frame_allocations f ≤ MemoryTracker.frame_allocations f')
  ∧ (∀ f, f ∈ frames →
       MemoryTracker.frame_allocations f
       ≤ HashTableAllocator.count
           (HashTableAllocator.get_stats (MemoryTracker.allocator self)))
  ∧ MemoryTracker.get_metrics self
    = MemoryTracker.Metrics frames
        (HashTableAllocator.get_stats (MemoryTracker.allocator self)).
Proof.
  cbn zeta. induction events as [|e events IH] using rev_ind.
  { cbn. split_and!; try done.
    - intros before later Heq. by destruct before.
    - intros f ?%elem_of_nil. done. }
  destruct IH as (Hcur & Hnum & Hrec & Hmono & Hbound & _).
  rewrite session_snoc, frames_in_snoc.
  assert (length (MemoryTracker.frame_data (session events)) = frames_in events)
    as Hlen.
  { rewrite <- (length_fmap MemoryTracker.frame_number), Hnum.
    by rewrite length_fmap, length_seq. }
  destruct e as [obj_id sz now stack|]; cbn [apply_event].
  - rewrite decide_False by done. rewrite Nat.add_0_r. cbn.
    split_and!; try done.
    + intros before later Heq.
      destruct later as [|l later _] using rev_ind.
      { apply app_inj_tail in Heq as [_ ?]. done. }
      rewrite app_comm_cons, app_assoc in Heq.
      apply app_inj_tail in Heq as [-> _]. by apply (Hrec _ later).
    + intros f Hf. etrans; [by apply Hbound|]. apply track_count_grows.
  - rewrite decide_True by done. cbn.
    set (new := MemoryTracker.Frame _ _ _).
    split_and!; try done.
    + lia.
    + rewrite fmap_app, Hnum, Nat.add_1_r, seq_S, fmap_app. cbn.
      do 3 f_equal. lia.
    + intros before later Heq.
      destruct later as [|l later _] using rev_ind.
      * apply app_inj_tail in Heq as [-> _].
        rewrite lookup_app_r by lia. rewrite Hlen, Nat.sub_diag. cbn.
        unfold new. do 2 f_equal. lia.
      * rewrite app_comm_cons, app_assoc in Heq.
        apply app_inj_tail in Heq as [-> _].
        rewrite lookup_app_l; [by eapply Hrec|].
        rewrite Hlen. unfold frames_in.
        rewrite filter_app, length_app, filter_cons, decide_True by done.
        cbn [length]. lia.
    + intros i j f f' Hij Hi Hj.
      destruct (decide (j < length (MemoryTracker.frame_data (session events)))%nat)
        as [Hlt|Hge].
      * rewrite lookup_app_l in Hi, Hj by lia. by apply (Hmono i j).
      * rewrite (lookup_app_r _ _ j) in Hj by lia.
        apply list_lookup_singleton_Some in Hj as [_ <-]. cbn.
        destruct (decide (i < length (MemoryTracker.frame_data (session events)))%nat).
        -- rewrite lookup_app_l in Hi by lia. apply Hbound.
           by eapply list_elem_of_lookup_2.
        -- rewrite lookup_app_r in Hi by lia.
           apply list_lookup_singleton_Some in Hi as [_ <-]. done.
    + intros f [Hf|Hf%list_elem_of_singleton]%elem_of_app; [by apply Hbound|].
      by subst.
Qed.

End TrackerSessions.

(** * What the traversals visit *)

Section TraversalBounds.
Variable heap : gmap Z GraphTraverser.pyobj.
Variable max_depth : Z.
Implicit Types (x y root current : Z) (visited : gset Z)
  (queue : list (Z * Z)) (stack : list Z).

(** When the queue is empty, every object within [max_depth] references
    of the root has been dequeued, with a depth that is at most the length
    of any path to it. *)
Lemma bfs_run_complete root finished visited (n : nat) x :
  bfs_run heap max_depth root finished (visited, []) →
  reach_in heap root n x → Z.of_nat n ≤ max_depth →
  ∃ dx, (x, dx) ∈ finished ∧ dx ≤ Z.of_nat n.
Proof.
  intros Hrun%bfs_run_invariant. destruct Hrun as [_ _ Hroot _ Hclosed _ _].
  cbn in *. rewrite app_nil_r in *.
  induction 1 as [|n y z Hreach IH Hz]; intros Hle.
  - exists 0. split; [done|lia].
  - destruct IH as (dy & Hy & Hdy); [lia|].
    destruct (Hclosed y dy z Hy) as (dz & Hz' & Hdz); [lia|done|].
    exists dz. split; [done|lia].
Qed.

Lemma entries_agree (l : list (Z * Z)) x d d' :
  NoDup l.*1 → (x, d) ∈ l → (x, d') ∈ l → d = d'.
Proof.
  intros Hnd Hd Hd'.
  apply list_elem_of_lookup in Hd as [i Hi]. apply list_elem_of_lookup in Hd' as [j Hj].
  assert (i = j) as ->.
  { apply (NoDup_lookup l.*1 i j x); [done|..]; rewrite list_lookup_fmap.
    - by rewrite Hi.
    - by rewrite Hj. }
  congruence.
Qed.

(** X14.  [bfs] dequeues every object it visits once, and the depth it
    has recorded for the object is the length of a shortest chain of
    references from the root to it. *)
Theorem bfs_depths_are_shortest root :
  ∃ visited finished,
    GraphTraverser.bfs heap root max_depth = Ok visited
    ∧ bfs_run heap max_depth root finished (visited, [])
    ∧ (∀ x, x ∈ visited ↔ ∃ dx, (x, dx) ∈ finished)
    ∧ ∀ x dx, (x, dx) ∈ finished →
        ∃ n : nat, dx = Z.of_nat n ∧ reach_in heap root n x
                   ∧ ∀ m, reach_in heap root m x → (n ≤ m)%nat.
Proof.
  destruct (bfs_runs heap max_depth root) as (visited & finished & Hbfs & Hrun).
  exists visited, finished. split; [done|]. split; [done|].
  pose proof (bfs_run_invariant _ _ _ _ _ Hrun) as [Hvis Honce _ _ _ Hsound _].
  cbn in *. rewrite app_nil_r in *. split.
  { intros x. by rewrite Hvis, elem_of_entries. }
  intros x dx Hx. destruct (Hsound x dx Hx) as (n & -> & Hreach & Hle).
  exists n. split; [done|]. split; [done|]. intros m Hm.
  destruct (decide (Z.of_nat m ≤ max_depth)) as [Hin|Hout]; [|lia].
  destruct (bfs_run_complete root finished visited m x Hrun Hm Hin)
    as (dx & Hx' & Hdx).
  pose proof (entries_agree finished x _ _ Honce Hx Hx'). lia.
Qed.

(** X15.  [bfs] returns, and the set it returns holds the root and
    exactly the objects that a chain of at most [max_depth] references
    leads to from the root. *)
Theorem bfs_visits_bounded_reach root :
  ∃ visited,
    GraphTraverser.bfs heap root max_depth = Ok visited
    ∧ root ∈ visited
    ∧ ∀ x, x ∈ visited
           ↔ x = root ∨ ∃ n : nat, reach_in heap root n x ∧ Z.of_nat n ≤ max_depth.
Proof.
  destruct (bfs_visits heap max_depth root) as (visited & Hbfs & Hvisits).
  exists visited. split; [done|]. split; [apply Hvisits; by left|done].
Qed.

(** ** What [dfs] visits whatever the bound *)

Lemma dfs_helper_grows fuel current depth visited visited' :
  GraphTraverser._dfs_helper fuel heap max_depth current depth visited
  = Ok visited' →
  visited ⊆ visited'
  ∧ (depth ≤ max_depth → current ∈ visited')
  ∧ (depth + 1 ≤ max_depth → current ∉ visited →
       ∀ c, c ∈ GraphTraverser.references heap current → c ∈ visited').
Proof.
  revert current depth visited visited'.
  induction fuel as [|fuel IH]; intros current depth visited visited' Hdfs;
    [done|].
  rewrite dfs_helper_unfold in Hdfs. case_bool_decide as Hstop.
  { simplify_eq. split; [done|]. split.
    - intros Hle. destruct Hstop; [lia|done].
    - intros Hle Hnew. destruct Hstop; [lia|done]. }
  set (P := λ (handled : list Z) (v : gset Z),
         {[current]} ∪ visited ⊆ v
         ∧ (depth + 1 ≤ max_depth → ∀ c, c ∈ handled → c ∈ v)).
  assert (P (GraphTraverser.references heap current) visited') as [Hsub Hrefs].
  { eapply (for_each_prefix_invariant P); [exact Hdfs| |].
    - split; [done|]. by intros _ c ?%elem_of_nil.
    - intros handled child v v' _ [Hv Hhandled] Hcall.
      apply IH in Hcall as (Hgrow & Hchild & _). split; [set_solver|].
      intros Hle c [Hc|Hc%list_elem_of_singleton]%elem_of_app.
      + apply Hgrow. by apply Hhandled.
      + subst. by apply Hchild. }
  split; [set_solver|]. split; [set_solver|]. auto.
Qed.

(** X16.  [dfs] returns when the interpreter admits [max_depth + 2]
    nested calls, or more nested calls than there are objects in the
    heap; with fewer frames it returns or raises [RecursionError].
    Whenever it returns: every object it visits is within [max_depth]
    references of the root; the root is visited exactly when [max_depth]
    is not negative; and when [max_depth] is 1 or more every object the
    root refers to is visited. *)
Theorem dfs_visits_root_and_references frames root :
  (enough_frames heap max_depth frames →
     ∃ visited, GraphTraverser.dfs frames heap root max_depth = Ok visited)
  ∧ (∀ e, GraphTraverser.dfs frames heap root max_depth = Raise e →
          e = RecursionError)
  ∧ ∀ visited,
      GraphTraverser.dfs frames heap root max_depth = Ok visited →
      (∀ x, x ∈ visited →
         ∃ n : nat, reach_in heap root n x ∧ Z.of_nat n ≤ max_depth)
      ∧ (root ∈ visited ↔ 0 ≤ max_depth)
      ∧ (1 ≤ max_depth →
           ∀ c, c ∈ GraphTraverser.references heap root → c ∈ visited).
Proof.
  split_and!.
  - intros Hframes.
    destruct (dfs_sound heap max_depth frames root Hframes) as (v & Hv & _).
    by exists v.
  - intros e He. by destruct (dfs_raises heap max_depth frames root e He).
  - intros visited Hdfs.
    split; [by apply (dfs_returned heap max_depth frames root)|].
    pose proof (dfs_helper_grows _ _ _ _ _ Hdfs) as (_ & Hroot & Hrefs).
    split; [split; [|done]|].
    + intros Hin. destruct (decide (0 ≤ max_depth)); [done|].
      destruct frames as [|frames]; [done|].
      rewrite dfs_negative_depth in Hdfs by lia. by simplify_eq.
    + intros Hle. apply Hrefs; [lia|set_solver].
Qed.

(** ** Small depth bounds *)

Lemma reach_in_leaf root n x :
  GraphTraverser.references heap root = [] → reach_in heap root n x →
  n = 0%nat ∧ x = root.
Proof.
  intros Hleaf. induction 1 as [|n y z _ [_ ->] Hz]; [done|].
  rewrite Hleaf in Hz. by apply elem_of_nil in Hz.
Qed.

Lemma reach_in_one root x :
  reach_in heap root 1 x ↔ x ∈ GraphTraverser.references heap root.
Proof.
  split.
  - inversion 1 as [|n y z Hy Hz]; subst. by inversion Hy; subst.
  - intros Hx. apply reach_next with root; [constructor|done].
Qed.

(** Both traversals return [expected] when it holds the root, only
    objects within [max_depth] references of it, and all those that [dfs]
    is sure to visit. *)
Lemma traversals_return frames root (expected : gset Z) :
  enough_frames heap max_depth frames →
  (∀ x, x ∈ expected ↔ x = root ∨ reachable_within heap max_depth root x) →
  (∀ visited, GraphTraverser.dfs frames heap root max_depth = Ok visited →
              expected ⊆ visited) →
  GraphTraverser.dfs frames heap root max_depth = Ok expected
  ∧ GraphTraverser.bfs heap root max_depth = Ok expected.
Proof.
  intros Hframes Hexpected Hdfs_has.
  destruct (dfs_sound heap max_depth frames root Hframes)
    as (by_dfs & Hdfs & Hsound).
  destruct (bfs_visits heap max_depth root) as (by_bfs & Hbfs & Hvisits).
  rewrite Hdfs, Hbfs. split; f_equal; apply set_eq; intros x.
  - split; [|by apply Hdfs_has]. intros Hx. apply Hexpected. right. by apply Hsound.
  - by rewrite Hvisits, Hexpected.
Qed.

(** ** [dfs] on graphs whose simple paths are short *)

(** [path_from root stack x]: [x] is reached from [root] through the
    objects of [stack], the latest first. *)
Inductive path_from root : list Z → Z → Prop :=
  | path_here : path_from root [] root
  | path_next stack y z :
      path_from root stack y → z ∈ GraphTraverser.references heap y →
      path_from root (y :: stack) z.

Definition simple_paths_within (bound : Z) root : Prop :=
  ∀ stack x, path_from root stack x → NoDup (x :: stack) →
             Z.of_nat (length stack) ≤ bound.

Lemma dfs_helper_closed_simple root fuel current stack visited visited' :
  simple_paths_within max_depth root →
  GraphTraverser._dfs_helper fuel heap max_depth current
    (Z.of_nat (length stack)) visited = Ok visited' →
  path_from root stack current →
  NoDup stack →
  (∀ x, x ∈ stack → x ∈ visited) →
  closed_outside heap stack visited →
  visited ⊆ visited' ∧ current ∈ visited' ∧ closed_outside heap stack visited'.
Proof.
  intros Hshort. revert current stack visited visited'.
  induction fuel as [|fuel IH];
    intros current stack visited visited' Hdfs Hpath Hnd Hstack Hclosed; [done|].
  rewrite dfs_helper_unfold in Hdfs.
  case_bool_decide as Hstop.
  { simplify_eq. destruct Hstop as [Hdeep|?]; [|done].
    destruct (decide (current ∈ visited')) as [|Hnew]; [done|].
    assert (NoDup (current :: stack)) as Hnd'.
    { constructor; [|done]. intros Hin. by apply Hnew, Hstack. }
    pose proof (Hshort stack current Hpath Hnd'). lia. }
  assert (current ∉ visited) as Hnew by tauto.
  assert (current ∉ stack) as Hnotin.
  { intros Hin. by apply Hnew, Hstack. }
  set (P := λ (handled : list Z) (v : gset Z),
         {[current]} ∪ visited ⊆ v
         ∧ closed_outside heap (current :: stack) v
         ∧ ∀ c, c ∈ handled → c ∈ v).
  assert (P (GraphTraverser.references heap current) visited')
    as (Hsub & Hclosed' & Hchildren).
  { eapply (for_each_prefix_invariant P); [exact Hdfs| |].
    - split; [done|]. split; [|by intros c ?%elem_of_nil].
      intros x c Hx Hx' Hc. apply not_elem_of_cons in Hx' as [Hne Hx'].
      apply elem_of_union_r. apply (Hclosed x c); [set_solver|done|done].
    - intros handled child v v' Hchild (Hsub & Hcl & Hhandled) Hcall.
      replace (Z.of_nat (length stack) + 1)
        with (Z.of_nat (length (current :: stack))) in Hcall by (cbn; lia).
      apply IH in Hcall as (Hsub' & Hin' & Hcl'); [| | | |done].
      + split; [set_solver|]. split; [done|].
        intros c Hc. apply elem_of_app in Hc as [Hc|Hc]; [set_solver|].
        by apply list_elem_of_singleton in Hc as ->.
      + by constructor.
      + by constructor.
      + intros x Hx. apply elem_of_cons in Hx as [->|Hx]; [set_solver|].
        apply Hsub. apply elem_of_union_r. by apply Hstack. }
  split; [set_solver|]. split; [set_solver|].
  intros x c Hx Hx' Hc. destruct (decide (x = current)) as [->|Hne].
  - by apply Hchildren.
  - apply (Hclosed' x c); [done| |done]. by apply not_elem_of_cons.
Qed.

Lemma path_from_in_heap root stack x y :
  path_from root stack x → y ∈ stack → y ∈ dom heap.
Proof.
  induction 1 as [|stack u z Hpath IH Hz]; [by intros ?%elem_of_nil|].
  intros [->|Hy]%elem_of_cons; [by eapply references_in_dom|auto].
Qed.

(** X17.  When no chain of references that starts at the root and
    repeats no object is longer than [max_depth], the bound never cuts
    [dfs] short: [bfs] returns the set of all objects reachable from the
    root, and [dfs] returns the same set when the interpreter admits
    [max_depth + 2] nested calls, or more nested calls than there are
    objects in the heap.  With fewer frames [dfs] returns that set or
    raises [RecursionError]. *)
Theorem dfs_complete_on_short_paths frames root :
  simple_paths_within max_depth root →
  ∃ visited,
    GraphTraverser.bfs heap root max_depth = Ok visited
    ∧ (∀ x, x ∈ visited ↔ ∃ n, reach_in heap root n x)
    ∧ (enough_frames heap max_depth frames →
         GraphTraverser.dfs frames heap root max_depth = Ok visited)
    ∧ (GraphTraverser.dfs frames heap root max_depth = Ok visited
       ∨ GraphTraverser.dfs frames heap root max_depth = Raise RecursionError).
Proof.
  intros Hshort.
  set (enough := (frames `max` S (Z.to_nat (max_depth + 2)))%nat).
  destruct (dfs_sound heap max_depth enough root) as (visited & Hdfs & Hsound).
  { left. unfold enough. lia. }
  destruct (bfs_visits heap max_depth root) as (by_bfs & Hbfs & Hvisits).
  pose proof Hdfs as Hclosed.
  apply (dfs_helper_closed_simple root _ root [] ∅ visited Hshort) in Hclosed
    as (_ & Hroot & Hclosed);
    [|constructor|constructor|by intros x ?%elem_of_nil
     |by intros x c ?%elem_of_empty].
  assert (∀ n x, reach_in heap root n x → x ∈ visited) as Hcomplete.
  { induction 1 as [|n y z Hreach IH Hz]; [done|].
    apply (Hclosed y z); [done|by intros ?%elem_of_nil|done]. }
  assert (overflows_or (GraphTraverser.dfs frames heap root max_depth)
            (Ok visited)) as Hcases.
  { rewrite <- Hdfs. apply dfs_frames. unfold enough. lia. }
  exists visited. split_and!.
  - rewrite Hbfs. f_equal. apply set_eq. intros x. rewrite Hvisits. split.
    + intros [->|(n & Hreach & _)]; eauto.
    + intros Hx. right. by apply Hsound.
  - intros x. split; [|intros [n Hn]; eauto].
    intros (n & Hreach & _)%Hsound. eauto.
  - intros Hframes.
    destruct (dfs_sound heap max_depth frames root Hframes) as (v & Hv & _).
    destruct Hcases as [Hr|Hr]; congruence.
  - destruct Hcases as [Hr|Hr]; [by right|by left].
Qed.

(** The bound holds in particular when [max_depth] is at least the number
    of objects that hold references. *)
Lemma simple_paths_within_size root :
  Z.of_nat (size heap) ≤ max_depth → simple_paths_within max_depth root.
Proof.
  intros Hbig stack x Hpath Hnd. apply NoDup_cons in Hnd as [_ Hnd].
  pose proof (stack_length heap stack Hnd
                (λ y Hy, path_from_in_heap root stack x y Hpath Hy)). lia.
Qed.

End TraversalBounds.

(** X18.  With [max_depth = 0] both traversals return the root alone.
    With [max_depth = 1] both return the root and the objects it refers
    to; for an object with a [__dict__] these are its attribute values
    only, whatever items it holds as a list, tuple or dictionary.  And on
    a root without references both return the root alone for every
    [max_depth] that is not negative.  The helper of [dfs] nests two
    calls in the first case, three in the second and one in the last;
    [bfs] makes no nested call. *)
Theorem traversals_at_small_depths heap root :
  ((∀ frames, (2 ≤ frames)%nat →
      GraphTraverser.dfs frames heap root 0 = Ok {[root]})
   ∧ GraphTraverser.bfs heap root 0 = Ok {[root]})
  ∧ ((∀ frames, (3 ≤ frames)%nat →
        GraphTraverser.dfs frames heap root 1
        = Ok ({[root]} ∪ list_to_set (GraphTraverser.references heap root)))
     ∧ GraphTraverser.bfs heap root 1
       = Ok ({[root]} ∪ list_to_set (GraphTraverser.references heap root)))
  ∧ (∀ attrs base,
       heap !! root = Some (GraphTraverser.PyObj (Some attrs) base) →
       GraphTraverser.bfs heap root 1 = Ok ({[root]} ∪ list_to_set attrs.*2))
  ∧ ∀ max_depth,
      0 ≤ max_depth → GraphTraverser.references heap root = [] →
      (∀ frames, (1 ≤ frames)%nat →
         GraphTraverser.dfs frames heap root max_depth = Ok {[root]})
      ∧ GraphTraverser.bfs heap root max_depth = Ok {[root]}.
Proof.
  assert (∀ frames, (3 ≤ frames)%nat →
            GraphTraverser.dfs frames heap root 1
            = Ok ({[root]} ∪ list_to_set (GraphTraverser.references heap root))
            ∧ GraphTraverser.bfs heap root 1
              = Ok ({[root]}
                    ∪ list_to_set (GraphTraverser.references heap root)))
    as Hone.
  { intros frames Hframes. apply traversals_return.
    - left. lia.
    - intros x. rewrite elem_of_union, elem_of_singleton, elem_of_list_to_set.
      rewrite <- reach_in_one. split.
      + intros [->|Hx]; [by left|]. right. exists 1%nat. split; [done|lia].
      + intros [->|([|[|n]] & Hreach & Hle)]; [by left| |by right|lia].
        left. by inversion Hreach.
    - intros visited Hdfs.
      destruct (dfs_helper_grows heap 1 _ _ _ _ _ Hdfs) as (_ & Hroot & Hrefs).
      intros x [->%elem_of_singleton|Hx%elem_of_list_to_set]%elem_of_union.
      + apply Hroot. lia.
      + apply Hrefs; [lia|set_solver|done]. }
  assert (∀ frames, (2 ≤ frames)%nat →
            GraphTraverser.dfs frames heap root 0 = Ok {[root]}
            ∧ GraphTraverser.bfs heap root 0 = Ok {[root]}) as Hzero.
  { intros frames Hframes. apply traversals_return.
    - left. lia.
    - intros x. rewrite elem_of_singleton. split; [by left|].
      intros [->|([|n] & Hreach & Hle)]; [done| |lia]. by inversion Hreach.
    - intros visited Hdfs.
      destruct (dfs_helper_grows heap 0 _ _ _ _ _ Hdfs) as (_ & Hroot & _).
      intros x ->%elem_of_singleton. apply Hroot. lia. }
  split; [|split; [|split]].
  - split; [intros frames Hframes; by apply Hzero|].
    by apply (Hzero 2%nat).
  - split; [intros frames Hframes; by apply Hone|].
    by apply (Hone 3%nat).
  - intros attrs base Hroot. destruct (Hone 3%nat) as [_ ->]; [done|].
    unfold GraphTraverser.references. by rewrite Hroot.
  - intros max_depth Hpos Hleaf. split.
    + intros [|frames] Hframes; [lia|].
      unfold GraphTraverser.dfs. rewrite dfs_helper_unfold.
      rewrite bool_decide_false by (intros [?|?]; [lia|set_solver]).
      rewrite Hleaf. cbn. f_equal. set_solver.
    + apply (traversals_return heap max_depth (S (Z.to_nat (max_depth + 2)))).
      * left. lia.
      * intros x. rewrite elem_of_singleton. split; [by left|].
        intros [->|(n & Hreach & _)]; [done|].
        by destruct (reach_in_leaf heap root n x Hleaf Hreach).
      * intros visited Hdfs.
        destruct (dfs_helper_grows heap max_depth _ _ _ _ _ Hdfs)
          as (_ & Hroot & _).
        intros x ->%elem_of_singleton. apply Hroot. lia.
Qed.

(** In [shared_child_heap] the longest path without repetition is
    0, 1, 2, 3. *)
Lemma shared_child_heap_paths : simple_paths_within shared_child_heap 3 0.
Proof.
  intros stack x Hpath Hnd.
  assert (∀ y, y ∈ x :: stack → y ∈ [0; 1; 2; 3]) as Hin.
  { intros y [->|Hy]%elem_of_cons.
    - inversion Hpath as [|stack' u z _ Hz]; subst; [set_solver|].
      apply references_in_heap in Hz. vm_compute in Hz. set_solver.
    - apply (path_from_in_heap _ _ _ _ _ Hpath) in Hy.
      apply elem_of_dom in Hy as [o Ho].
      apply elem_of_list_to_map_2 in Ho. set_solver. }
  pose proof (submseteq_length _ _ (NoDup_submseteq _ _ Hnd Hin)) as Hlen.
  cbn in Hlen. lia.
Qed.

Lemma dfs_complete_on_short_paths_witness :
  simple_paths_within shared_child_heap 3 0
  ∧ enough_frames shared_child_heap 3 5
  ∧ GraphTraverser.dfs 5 shared_child_heap 0 3
    = GraphTraverser.bfs shared_child_heap 0 3.
Proof.
  assert (enough_frames shared_child_heap 3 5) as Hframes by (left; lia).
  split; [apply shared_child_heap_paths|]. split; [done|].
  destruct (dfs_complete_on_short_paths shared_child_heap 3 5 0
              shared_child_heap_paths) as (visited & -> & _ & Hdfs & _).
  by rewrite Hdfs.
Defined.

(** * The traversals and the depth bound *)

(** A list [0] holding the lists [1] and [2]; [1] holds [3], which holds
    [2] again; [2] holds the empty list [4]. *)
Definition detour_heap : gmap Z GraphTraverser.pyobj :=
  list_to_map
    [(0, GraphTraverser.PyObj None (GraphTraverser.PyList [1; 2]));
     (1, GraphTraverser.PyObj None (GraphTraverser.PyList [3]));
     (2, GraphTraverser.PyObj None (GraphTraverser.PyList [4]));
     (3, GraphTraverser.PyObj None (GraphTraverser.PyList [2]));
     (4, GraphTraverser.PyObj None (GraphTraverser.PyList []))].

(** The helper nests at most five calls on [detour_heap]: for [0], [1],
    [3], [2] and [4]. *)
Lemma dfs_detour frames :
  (5 ≤ frames)%nat →
  GraphTraverser.dfs frames detour_heap 0 2 = Ok {[0; 1; 2; 3; 4]}
  ∧ GraphTraverser.dfs frames detour_heap 0 3 = Ok {[0; 1; 2; 3]}.
Proof.
  intros Hframes. split; apply (dfs_more_frames _ _ 5); by vm_compute || done.
Qed.

(** X19.  A larger [max_depth] never makes [bfs] lose an object: what it
    returns for a bound is part of what it returns for any larger bound.
    [dfs] has no such guarantee, whatever the number of frames from five
    on.  On [detour_heap] it visits [4] with [max_depth = 2] and misses
    it with [max_depth = 3], where it first comes to [2] by the detour
    through [1] and [3], at depth 3. *)
Theorem bfs_grows_with_depth_dfs_does_not :
  (∀ heap root d d' shallow deep,
     d ≤ d' →
     GraphTraverser.bfs heap root d = Ok shallow →
     GraphTraverser.bfs heap root d' = Ok deep →
     shallow ⊆ deep)
  ∧ ∀ frames,
      (5 ≤ frames)%nat →
      ¬ (∀ heap root d d' shallow deep,
           d ≤ d' →
           GraphTraverser.dfs frames heap root d = Ok shallow →
           GraphTraverser.dfs frames heap root d' = Ok deep →
           shallow ⊆ deep).
Proof.
  split.
  - intros heap root d d' shallow deep Hle Hshallow Hdeep.
    destruct (bfs_visits heap d root) as (v & Hv & Hin).
    destruct (bfs_visits heap d' root) as (v' & Hv' & Hin').
    assert (v = shallow) as -> by congruence.
    assert (v' = deep) as -> by congruence.
    intros x. rewrite Hin, Hin'. intros [->|(n & Hreach & Hn)]; [by left|].
    right. exists n. split; [done|lia].
  - intros frames Hframes Hmono.
    destruct (dfs_detour frames Hframes) as [Hshallow Hdeep].
    pose proof (Hmono detour_heap 0 2 3 _ _ ltac:(lia) Hshallow Hdeep 4) as Hin.
    set_unfold. lia.
Qed.

(** * Linked lists, as the test and the benchmark build them *)

(** An instance of the class [Node] of the test and of the benchmark: its
    [__dict__] holds ['val'] and ['next'], in this order. *)
Definition node (val next : Z) : GraphTraverser.pyobj :=
  GraphTraverser.PyObj (Some [("val", val); ("next", next)]) GraphTraverser.PyOther.

(** The identity of the first cell of a list, [none] for the empty one. *)
Definition first_cell (cells : list (Z * Z)) (none : Z) : Z :=
  match cells with
  | [] => none
  | (h, _) :: _ => h
  end.

(** The heap holding a linked list.  A cell is the identity of a [Node]
    with the identity of its value; [none] is the identity of [None].
    Values and [None] hold no references and are not in the heap. *)
Fixpoint linked_list (cells : list (Z * Z)) (none : Z)
  : gmap Z GraphTraverser.pyobj :=
  match cells with
  | [] => ∅
  | (h, v) :: rest =>
      <[h := node v (first_cell rest none)]> (linked_list rest none)
  end.

(** [test_dfs_bfs]: the list of three nodes, the two traversals with the
    default [max_depth], and the two comparisons asserted.  [frames] is
    the number of nested calls the interpreter admits inside [dfs]. *)
Definition test_dfs_bfs (frames : nat) (h1 h2 h3 v1 v2 v3 none : Z)
  : result (bool * bool) :=
  let heap := linked_list [(h1, v1); (h2, v2); (h3, v3)] none in
  dfs_result ← GraphTraverser.dfs frames heap h1 10;
  bfs_result ← GraphTraverser.bfs heap h1 10;
  Ok (bool_decide (Z.of_nat (size dfs_result) >= 3),
      bool_decide (Z.of_nat (size bfs_result) >= 3)).

Lemma linked_list_dom cells none :
  dom (linked_list cells none) = list_to_set cells.*1.
Proof.
  induction cells as [|[h v] cells IH]; cbn; [set_solver|].
  by rewrite dom_insert_L, IH.
Qed.

Lemma linked_list_references before h v after none :
  NoDup (before ++ (h, v) :: after).*1 →
  GraphTraverser.references (linked_list (before ++ (h, v) :: after) none) h
  = [v; first_cell after none].
Proof.
  unfold GraphTraverser.references.
  induction before as [|[h' v'] before IH]; cbn; intros Hnd.
  - by rewrite lookup_insert_eq.
  - apply NoDup_cons in Hnd as [Hnew Hnd]. rewrite lookup_insert_ne; [auto|].
    intros ->. apply Hnew. rewrite fmap_app. set_solver.
Qed.

Lemma linked_list_reach cells none h0 v0 rest before h v after :
  cells = (h0, v0) :: rest → NoDup cells.*1 →
  cells = before ++ (h, v) :: after →
  reach_in (linked_list cells none) h0 (length before) h.
Proof.
  intros -> Hnd. revert h v after.
  induction before as [|c before IH] using rev_ind; intros h v after Heq.
  - cbn in Heq. simplify_eq. constructor.
  - destruct c as [h' v']. rewrite <- app_assoc in Heq. cbn in Heq.
    rewrite length_app, Nat.add_1_r.
    apply reach_next with h'; [by eapply IH|].
    rewrite Heq in Hnd |- *. rewrite linked_list_references by done.
    cbn. set_solver.
Qed.

(** The helper nests one call for each node, and one more for the
    value of the last.  From a node on, with no more frames than there
    are nodes left, it overflows: the values hold no references, so the
    calls for them return and the recursion continues down the list. *)
Lemma linked_list_overflows cells none max_depth after :
  ∀ before h v fuel depth (visited : gset Z),
    cells = before ++ (h, v) :: after →
    NoDup cells.*1 →
    (∀ h' v', (h', v') ∈ cells → v' ∉ cells.*1) →
    (∀ x, x ∈ ((h, v) :: after).*1 → x ∉ visited) →
    depth + Z.of_nat (length after) ≤ max_depth →
    (fuel ≤ S (length after))%nat →
    GraphTraverser._dfs_helper fuel (linked_list cells none) max_depth h depth
      visited = Raise RecursionError.
Proof.
  induction after as [|[h2 v2] after IH];
    intros before h v fuel depth visited Hcells Hnd Hvalues Hnew Hdepth Hfuel;
    (destruct fuel as [|fuel]; [done|]).
  all: rewrite dfs_helper_unfold.
  all: rewrite bool_decide_false
         by (intros [?|Hin]; [lia|by apply (Hnew h); [left|]]).
  all: assert (GraphTraverser.references (linked_list cells none) h
               = [v; first_cell ?[rest] none]) as ->
         by (rewrite Hcells in Hnd |- *; by apply linked_list_references).
  all: destruct fuel as [|fuel]; [done|].
  - cbn in Hfuel. lia.
  - assert (v ∉ dom (linked_list cells none)) as Hleaf.
    { rewrite linked_list_dom, elem_of_list_to_set. apply (Hvalues h v).
      rewrite Hcells. set_solver. }
    assert (∃ visited1,
              GraphTraverser._dfs_helper (S fuel) (linked_list cells none)
                max_depth v (depth + 1) ({[h]} ∪ visited) = Ok visited1
              ∧ visited1 ⊆ {[v]} ∪ ({[h]} ∪ visited))
      as (visited1 & Hvalue & Hsub).
    { rewrite dfs_helper_unfold. case_bool_decide.
      - eexists. split; [done|set_solver].
      - unfold GraphTraverser.references.
        rewrite (not_elem_of_dom_1 _ _ Hleaf). by eexists. }
    cbn [for_each first_cell]. rewrite Hvalue. cbn [mbind result_bind].
    rewrite (IH (before ++ [(h, v)]) h2 v2 (S fuel) (depth + 1) visited1);
      [done| |done|done| | |].
    + by rewrite <- app_assoc.
    + intros x Hx Hin. apply Hsub in Hin.
      assert (x ∈ cells.*1) as Hcell.
      { rewrite Hcells, fmap_app. set_solver. }
      apply elem_of_union in Hin as [Hin|Hin].
      * apply elem_of_singleton in Hin as ->.
        apply (Hvalues h v); [|done]. rewrite Hcells. set_solver.
      * apply elem_of_union in Hin as [Hin|Hin].
        -- apply elem_of_singleton in Hin as ->.
           rewrite Hcells, fmap_app in Hnd.
           apply NoDup_app in Hnd as (_ & _ & Hnd).
           by apply NoDup_cons in Hnd as [? _].
        -- apply (Hnew x); [|done]. by right.
    + cbn in Hdepth. lia.
    + cbn in Hfuel. lia.
Qed.

(** X20.  On a linked list of [Node] objects with pairwise different
    identities, with a [max_depth] that is at least the number of nodes,
    [bfs] from the head returns a set that holds every node, every value
    and [None], so that it has at least as many members as the list has
    nodes.  [dfs] returns the same set when the interpreter admits more
    nested calls than the list has nodes.  With no more frames than
    nodes [dfs] raises [RecursionError], the values being no nodes.  The
    two comparisons asserted by [test_dfs_bfs] hold when four nested
    calls are admitted. *)
Theorem linked_list_traversals :
  (∀ frames cells none max_depth h0 v0 rest,
     cells = (h0, v0) :: rest → NoDup cells.*1 →
     Z.of_nat (length cells) ≤ max_depth →
     ∃ visited,
       GraphTraverser.bfs (linked_list cells none) h0 max_depth = Ok visited
       ∧ (∀ h v, (h, v) ∈ cells → h ∈ visited ∧ v ∈ visited)
       ∧ none ∈ visited
       ∧ (length cells ≤ size visited)%nat
       ∧ ((length cells < frames)%nat →
            GraphTraverser.dfs frames (linked_list cells none) h0 max_depth
            = Ok visited)
       ∧ ((frames ≤ length cells)%nat →
            (∀ h v, (h, v) ∈ cells → v ∉ cells.*1) →
            GraphTraverser.dfs frames (linked_list cells none) h0 max_depth
            = Raise RecursionError))
  ∧ ∀ frames h1 h2 h3 v1 v2 v3 none,
      NoDup [h1; h2; h3] → (4 ≤ frames)%nat →
      test_dfs_bfs frames h1 h2 h3 v1 v2 v3 none = Ok (true, true).
Proof.
  assert (∀ frames cells none max_depth h0 v0 rest,
     cells = (h0, v0) :: rest → NoDup cells.*1 →
     Z.of_nat (length cells) ≤ max_depth →
     ∃ visited,
       GraphTraverser.bfs (linked_list cells none) h0 max_depth = Ok visited
       ∧ (∀ h v, (h, v) ∈ cells → h ∈ visited ∧ v ∈ visited)
       ∧ none ∈ visited
       ∧ (length cells ≤ size visited)%nat
       ∧ ((length cells < frames)%nat →
            GraphTraverser.dfs frames (linked_list cells none) h0 max_depth
            = Ok visited)
       ∧ ((frames ≤ length cells)%nat →
            (∀ h v, (h, v) ∈ cells → v ∉ cells.*1) →
            GraphTraverser.dfs frames (linked_list cells none) h0 max_depth
            = Raise RecursionError)) as Hlist.
  { intros frames cells none max_depth h0 v0 rest Hcells Hnd Hlen.
    set (heap := linked_list cells none).
    assert (size heap ≤ length cells)%nat as Hsize.
    { rewrite <- (size_dom (D := gset Z)). unfold heap. rewrite linked_list_dom.
      pose proof (size_list_to_set_le cells.*1) as Hle.
      by rewrite length_fmap in Hle. }
    assert (Z.of_nat (size heap) ≤ max_depth) as Hbig by lia.
    destruct (dfs_sound heap max_depth (S (length cells)) h0)
      as (visited & Hdfs & Hsound); [right; lia|].
    destruct (bfs_visits heap max_depth h0) as (by_bfs & Hbfs & Hvisits).
    pose proof (dfs_complete heap max_depth _ h0 visited Hbig Hdfs)
      as Hcomplete.
    assert (by_bfs = visited) as ->.
    { apply set_eq. intros x. rewrite Hvisits. split.
      - intros [->|(n & Hreach & _)]; [apply (Hcomplete 0%nat); constructor|eauto].
      - intros Hx. right. by apply Hsound. }
    assert (∀ before h v after,
              cells = before ++ (h, v) :: after →
              h ∈ visited ∧ v ∈ visited ∧ first_cell after none ∈ visited)
      as Hcell.
    { intros before h v after Heq.
      pose proof (linked_list_reach cells none h0 v0 rest before h v after
                    Hcells Hnd Heq) as Hreach.
      assert (GraphTraverser.references heap h = [v; first_cell after none])
        as Hrefs.
      { unfold heap. rewrite Heq. apply linked_list_references.
        by rewrite <- Heq. }
      split_and!; [by eapply Hcomplete|..];
        apply (Hcomplete (S (length before)));
        apply reach_next with h; try done; rewrite Hrefs; set_solver. }
    exists visited. split_and!; [done|..].
    - intros h v (before & after & Heq)%list_elem_of_split.
      destruct (Hcell before h v after Heq) as (? & ? & _). done.
    - assert (cells ≠ []) as Hne by (by rewrite Hcells).
      destruct (exists_last Hne) as (before & [h v] & Heq).
      by destruct (Hcell before h v [] Heq) as (_ & _ & Hnone).
    - rewrite <- (length_fmap fst cells).
      rewrite <- (size_list_to_set (C := gset Z) cells.*1) by done.
      apply subseteq_size. intros h Hh%elem_of_list_to_set.
      apply list_elem_of_fmap in Hh as ([h' v] & -> & Hin).
      apply list_elem_of_split in Hin as (before & after & Heq).
      by destruct (Hcell before h' v after Heq) as [? _].
    - intros Hframes.
      by apply (dfs_more_frames heap max_depth (S (length cells))); [lia|].
    - intros Hframes Hvalues.
      apply (linked_list_overflows cells none max_depth rest [] h0 v0);
        [done|done|done|by intros x ? ?%elem_of_empty| |].
      + rewrite Hcells in Hlen. cbn in Hlen. lia.
      + rewrite Hcells in Hframes. by cbn in Hframes. }
  split; [done|].
  intros frames h1 h2 h3 v1 v2 v3 none Hnd Hframes. unfold test_dfs_bfs.
  destruct (Hlist frames [(h1, v1); (h2, v2); (h3, v3)] none 10 h1 v1
              [(h2, v2); (h3, v3)])
    as (visited & Hbfs & _ & _ & Hsize & Hdfs & _); [done|done|cbn; lia|].
  cbn zeta. rewrite Hdfs, Hbfs by (cbn; lia).
  cbn in Hsize |- *. by rewrite !bool_decide_true by lia.
Qed.

(** * What [add_call] records *)

Section AddCall.
Implicit Types (calls : list (string * string)) (u v : string).

Lemma build_graph_keys calls u :
  u ∈ (CallGraphBuilder.graph (build calls)).*1 ↔ u ∈ calls.*1.
Proof.
  revert u. induction calls as [|[caller callee] calls IH] using rev_ind;
    intros u; [done|].
  rewrite build_snoc. cbn. rewrite graph_append_keys, fmap_app. cbn.
  case_decide as Hin; rewrite !elem_of_app, ?list_elem_of_singleton, IH.
  - apply IH in Hin. naive_solver.
  - done.
Qed.

(** X21.  After any sequence of [add_call], the adjacency list of a
    function holds its callees in the order of the calls, a callee once
    for every call; the dictionary has one key for each function that
    made a call; and [functions] holds the callers and the callees. *)
Theorem add_call_keeps_call_order calls :
  let b := build calls in
  (∀ u, CallGraphBuilder.graph_get (CallGraphBuilder.graph b) u
        = (filter (λ c, c.1 = u) calls).*2)
  ∧ NoDup (CallGraphBuilder.graph b).*1
  ∧ (∀ u, u ∈ (CallGraphBuilder.graph b).*1 ↔ u ∈ calls.*1)
  ∧ CallGraphBuilder.functions b = list_to_set (calls.*1 ++ calls.*2).
Proof.
  intros b. subst b. split_and!.
  - intros u. induction calls as [|[caller callee] calls IH] using rev_ind; [done|].
    rewrite build_snoc. cbn. rewrite graph_get_append, filter_app, fmap_app.
    rewrite filter_cons, filter_nil. cbn.
    destruct (decide (u = caller)) as [->|Hne].
    + rewrite decide_True by done. by rewrite IH.
    + rewrite decide_False by done. by rewrite IH, app_nil_r.
  - apply build_well_formed.
  - apply build_graph_keys.
  - apply set_eq. intros f. rewrite build_functions, elem_of_list_to_set.
    rewrite elem_of_app, !list_elem_of_fmap. naive_solver.
Qed.

End AddCall.

(** * The queue of the topological sort *)

Section KahnQueue.

(** The [for neighbor] loop only appends to the queue. *)
Lemma release_appends vs (d : gmap string Z) (q : list string) :
  ∃ extra, (foldl CallGraphBuilder.release (d, q) vs).2 = q ++ extra.
Proof.
  revert d q. induction vs as [|nb vs IH]; intros d q; cbn [foldl].
  - exists []. by rewrite app_nil_r.
  - unfold CallGraphBuilder.release at 2. cbn [fst snd]. case_decide.
    + destruct (IH (<[nb := CallGraphBuilder.int_get d nb - 1]> d) (q ++ [nb]))
        as (extra & ->).
      exists (nb :: extra). by rewrite <- app_assoc.
    + apply IH.
Qed.

(** The [while] loop lists what is in [result] first, then what is in the
    queue, in the order of the queue. *)
Lemma kahn_loop_prefix fuel g (d : gmap string Z) q out sorted :
  CallGraphBuilder.kahn_loop fuel g d q out = Ok sorted →
  ∃ rest, sorted = out ++ q ++ rest.
Proof.
  revert d q out. induction fuel as [|fuel IH]; intros d q out;
    destruct q as [|u q]; cbn [CallGraphBuilder.kahn_loop]; try done.
  - intros [= <-]. exists []. by rewrite !app_nil_r.
  - intros [= <-]. exists []. by rewrite !app_nil_r.
  - destruct (release_appends (CallGraphBuilder.graph_get g u) d q)
      as (extra & Hq).
    destruct (foldl CallGraphBuilder.release (d, q)
                (CallGraphBuilder.graph_get g u)) as [d' q'].
    cbn in Hq. subst q'. intros (rest & ->)%IH.
    exists (extra ++ rest). by rewrite <- !app_assoc.
Qed.

(** X22.  For the builder made by any sequence of [add_call] and any
    enumeration of its function set, the sorted list begins with the
    functions that no function calls, in the order of the enumeration.
    Every function listed after them has a caller.  When every known
    function has a caller, the sorted list is empty. *)
Theorem topological_sort_uncalled_first calls order :
  let b := build calls in
  let g := CallGraphBuilder.graph b in
  enumerates order b →
  ∃ first rest,
    CallGraphBuilder.topological_sort order b = Ok (first ++ rest)
    ∧ first `sublist_of` order
    ∧ (∀ n, n ∈ first ↔ n ∈ order ∧ ∀ u, ¬ calls_to g u n)
    ∧ (∀ n, n ∈ rest → ∃ u, calls_to g u n)
    ∧ (first = [] → rest = []).
Proof.
  intros b g Horder.
  pose proof (build_well_formed calls) as Hwf. fold b in Hwf.
  destruct (topological_sort_returns b order Hwf Horder)
    as (sorted & Hsort & Hnd & Hknown & _).
  pose proof Hsort as Hloop. unfold CallGraphBuilder.topological_sort in Hloop.
  fold g in Hloop.
  set (d := CallGraphBuilder.initial_in_degree order g) in Hloop.
  set (first := filter (λ node, CallGraphBuilder.int_get d node = 0) order)
    in Hloop.
  destruct (kahn_loop_prefix _ _ _ _ _ _ Hloop) as (rest & Hsorted).
  cbn in Hsorted. subst sorted.
  assert (∀ n, CallGraphBuilder.int_get d n = 0 ↔ ∀ u, ¬ calls_to g u n)
    as Hzero.
  { intros n. unfold d. rewrite initial_in_degree_incoming, incoming_zero.
    split.
    - intros Hall u Hcall. by apply Hall in Hcall as ?%elem_of_nil.
    - intros Hall u Hcall. by apply Hall in Hcall. }
  exists first, rest. split_and!.
  - done.
  - apply sublist_filter.
  - intros n. unfold first. rewrite list_elem_of_filter, Hzero. tauto.
  - intros n Hn.
    assert (n ∈ order) as Hin by (apply Hknown; set_solver).
    destruct (incoming_pending g [] n) as (u & Hcall & _); [|by exists u].
    unfold d in Hzero. rewrite <- (initial_in_degree_incoming order).
    intros Hz. apply NoDup_app in Hnd as (_ & Hdisj & _).
    apply (Hdisj n); [|done]. unfold first. by apply list_elem_of_filter.
  - intros Hfirst. rewrite Hfirst in Hloop.
    destruct order; cbn in Hloop; by injection Hloop as <-.
Qed.

End KahnQueue.

Lemma topological_sort_uncalled_first_witness :
  enumerates ["A"; "B"] (build [("A", "B")])
  ∧ ∃ first rest,
      CallGraphBuilder.topological_sort ["A"; "B"] (build [("A", "B")])
      = Ok (first ++ rest)
      ∧ ∀ n, n ∈ rest → ∃ u, (u, n) ∈ [("A", "B")].
Proof.
  assert (enumerates ["A"; "B"] (build [("A", "B")])) as Horder.
  { split.
    - apply (bool_decide_unpack _). by vm_compute.
    - intros f. cbn. rewrite !elem_of_cons, elem_of_nil. set_solver. }
  split; [done|].
  destruct (topological_sort_uncalled_first [("A", "B")] _ Horder)
    as (first & rest & Hsort & _ & _ & Hcalled & _).
  exists first, rest. split; [done|]. intros n Hn.
  destruct (Hcalled n Hn) as (u & Hcall). exists u.
  by apply build_calls_to.
Defined.

(** * Tarjan's algorithm: the components

    The invariants of a run that relate the stack, the low-links and the
    reported components to reachability in the call graph. *)

Section TarjanComponents.
Import CallGraphBuilder.
Variable g : list (string * list string).
Variable known : gset string.
Hypothesis targets_known : ∀ u v, calls_to g u v → v ∈ known.
Implicit Types (st s : tarjan) (ext : list string) (x y z u v node : string).

(** A function whose component has been popped: it has an index and is
    off the stack. *)
Definition popped st x : Prop := is_Some (index st !! x) ∧ x ∉ stack st.

(** What holds of the popped functions and of the reported components
    between any two statements of a run. *)
Record tidy st : Prop := Tidy {
  t_closed : ∀ x v, popped st x → calls_to g x v → popped st v;
  t_reported : ∀ x v,
    popped st x → x ≠ v → rtc (calls_to g) x v → rtc (calls_to g) v x →
    ∃ c, c ∈ sccs st ∧ x ∈ c ∧ v ∈ c;
  t_sound : ∀ c, c ∈ sccs st →
    NoDup c ∧ (∀ u v, u ∈ c → v ∈ c → rtc (calls_to g) u v)
    ∧ ∀ x, x ∈ c → popped st x;
  t_disjoint : ∀ i j c c' x,
    sccs st !! i = Some c → sccs st !! j = Some c' → x ∈ c → x ∈ c' → i = j
}.

(** The edge from [y] to [v] has been examined: [v] is popped, or it is
    on the stack and the low-link of [y] is at most its index. *)
Definition settled s y v : Prop :=
  popped s v
  ∨ (v ∈ stack s
     ∧ ∃ l i, lowlinks s !! y = Some l ∧ index s !! v = Some i ∧ l ≤ i).

(** The functions [ext] left on the stack above [node] by calls that have
    returned. *)
Record segment node s ext : Prop := Segment {
  seg_from : ∀ y, y ∈ ext → rtc (calls_to g) node y;
  seg_to : ∀ y, y ∈ ext → rtc (calls_to g) y node;
  seg_low : ∀ y l low,
    y ∈ ext → lowlinks s !! y = Some l → lowlinks s !! node = Some low →
    low ≤ l;
  seg_edges : ∀ y v, y ∈ ext → calls_to g y v → settled s y v
}.

(** Indices given since [st] are at or above the counter of [st]. *)
Definition fresh_above st s : Prop :=
  ∀ x i, index st !! x = None → index s !! x = Some i → index_counter st ≤ i.

(** The state during the loop of [strongconnect node], with the
    successors [handled] so far. *)
Record exploring node st (handled : list string) s : Prop := Exploring {
  x_tidy : tidy s;
  x_above : fresh_above st s;
  x_segment : ∃ ext, stack s = ext ++ node :: stack st ∧ segment node s ext;
  x_low : ∃ z low,
    z ∈ node :: stack st ∧ lowlinks s !! node = Some low
    ∧ index s !! z = Some low ∧ rtc (calls_to g) node z;
  x_handled : ∀ v, v ∈ handled → settled s node v
}.

(** What a call [strongconnect node] has done when it returns: either
    it popped its component, or it left [node] on the stack with a
    low-link that is the index of a function further down. *)
Record explored node st st' : Prop := Explored {
  d_tidy : tidy st';
  d_above : fresh_above st st';
  d_outcome :
    (stack st' = stack st ∧ lowlinks st' !! node = Some (index_counter st))
    ∨ ∃ ext z low,
        stack st' = ext ++ node :: stack st ∧ segment node st' ext
        ∧ (∀ v, calls_to g node v → settled st' node v)
        ∧ z ∈ stack st ∧ lowlinks st' !! node = Some low
        ∧ index st' !! z = Some low ∧ rtc (calls_to g) node z
}.

Lemma popped_set_lowlink node (w : Z) s x :
  popped (set_lowlink node w s) x ↔ popped s x.
Proof. done. Qed.

Lemma tidy_set_lowlink node (w : Z) s : tidy s → tidy (set_lowlink node w s).
Proof. intros [? ? ? ?]. by split. Qed.

Lemma popped_later st s x :
  extends st s →
  (∀ y, y ∈ stack s → y ∈ stack st ∨ index st !! y = None) →
  popped st x → popped s x.
Proof.
  intros He Hstack [[i Hi] Hoff]. split.
  - exists i. by apply (e_index _ _ He).
  - intros Hin. destruct (Hstack x Hin) as [?|Hnone]; [done|congruence].
Qed.

Lemma settled_later s s' y v :
  settled s y v →
  (∀ x, popped s x → popped s' x) →
  (∀ x, x ∈ stack s → x ∈ stack s') →
  (∀ x i, index s !! x = Some i → index s' !! x = Some i) →
  (∀ l, lowlinks s !! y = Some l → ∃ l', lowlinks s' !! y = Some l' ∧ l' ≤ l) →
  settled s' y v.
Proof.
  intros [Hv|(Hv & l & i & Hl & Hi & Hle)] Hpop Hstack Hidx Hlow; [left; auto|].
  right. split; [auto|]. destruct (Hlow l Hl) as (l' & Hl' & Hle').
  exists l', i. split_and!; [done|auto|lia].
Qed.

(** Calls from popped functions lead to popped functions. *)
Lemma popped_reach s x v :
  tidy s → popped s x → rtc (calls_to g) x v → popped s v.
Proof.
  intros Hs Hx Hreach. induction Hreach as [|x w v Hcall _ IH]; [done|].
  apply IH. by apply (t_closed _ Hs x w).
Qed.

(** The component popped when the low-link of [node] is its index. *)
Lemma pop_tidy node st s s' ext :
  consistent known s → tidy s →
  stack s = ext ++ node :: stack st →
  index s' = index s → stack s' = stack st →
  sccs s' = (if decide (ext = []) then sccs s else sccs s ++ [ext ++ [node]]) →
  segment node s ext →
  (∀ v, calls_to g node v → settled s node v) →
  lowlinks s !! node = Some (index_counter st) →
  (∀ x i, x ∈ stack st → index s !! x = Some i → i < index_counter st) →
  tidy s'.
Proof.
  intros Hc Hs Hstack Hidx Hstack' Hsccs [Hfrom Hto Hlow Hedges] Hnode Hlowlink
    Hbelow.
  pose proof (c_nodup _ _ Hc) as Hnd. rewrite Hstack in Hnd.
  assert (∀ x, x ∈ ext ++ [node] → x ∈ stack s) as Hin_stack.
  { intros x. rewrite Hstack. set_solver. }
  assert (∀ x, x ∈ ext ++ [node] → x ∉ stack st) as Hnot_below.
  { intros x Hx Hx'. apply NoDup_app in Hnd as (_ & Hdisj & Hnd).
    apply elem_of_app in Hx as [Hx|Hx%list_elem_of_singleton].
    - apply (Hdisj x Hx). by right.
    - subst. by apply NoDup_cons in Hnd as [? _]. }
  assert (∀ x, popped s' x ↔ popped s x ∨ x ∈ ext ++ [node]) as Hpopped.
  { intros x. unfold popped. rewrite Hidx, Hstack'. split.
    - intros [Hi Hoff]. destruct (decide (x ∈ ext ++ [node])) as [|Hout]; [by right|].
      left. split; [done|]. rewrite Hstack. set_solver.
    - intros [[Hi Hoff]|Hx].
      + split; [done|]. rewrite Hstack in Hoff. set_solver.
      + split; [|by apply Hnot_below].
        by apply (c_stack_indexed _ _ Hc), Hin_stack. }
  assert (∀ x v, x ∈ ext ++ [node] → calls_to g x v →
                 popped s v ∨ v ∈ ext ++ [node]) as Hstep.
  { intros x v Hx Hcall.
    assert (settled s x v ∧ ∀ l, lowlinks s !! x = Some l → index_counter st ≤ l)
      as [[?|(Hv & l & i & Hl & Hi & Hle)] Hl_x]; [|by left|].
    { apply elem_of_app in Hx as [Hx|Hx%list_elem_of_singleton].
      - split; [by apply Hedges|]. intros l Hl. by apply (Hlow x).
      - subst. split; [by apply Hnode|]. intros l Hl. simplify_eq. done. }
    right. specialize (Hl_x l Hl).
    destruct (decide (v ∈ stack st)) as [Hv'|Hv'].
    - pose proof (Hbelow v i Hv' Hi). lia.
    - rewrite Hstack in Hv. set_solver. }
  assert (∀ x v, x ∈ ext ++ [node] → rtc (calls_to g) x v →
                 popped s v ∨ v ∈ ext ++ [node]) as Hreach.
  { intros x v Hx Hxv. induction Hxv as [|x w v Hcall Hwv IH]; [by right|].
    destruct (Hstep x w Hx Hcall) as [Hw|Hw]; [|auto].
    left. by apply (popped_reach s w v). }
  assert (∀ c, c ∈ sccs s → c ∈ sccs s') as Hkept.
  { intros c Hc'. rewrite Hsccs. case_decide; [done|]. apply elem_of_app. by left. }
  split.
  - intros x v Hx Hcall. apply Hpopped. apply Hpopped in Hx as [Hx|Hx].
    + left. by apply (t_closed _ Hs x v).
    + by apply (Hstep x v).
  - intros x v Hx Hne Hxv Hvx. apply Hpopped in Hx as [Hx|Hx].
    + destruct (t_reported _ Hs x v Hx Hne Hxv Hvx) as (c & Hc' & ? & ?).
      exists c. auto.
    + destruct (Hreach x v Hx Hxv) as [Hv|Hv].
      { pose proof (popped_reach s v x Hs Hv Hvx) as [_ Hoff].
        destruct Hoff. by apply Hin_stack. }
      exists (ext ++ [node]). split; [|done]. rewrite Hsccs.
      rewrite decide_False.
      * apply elem_of_app. right. by left.
      * intros ->. cbn in Hx, Hv. apply list_elem_of_singleton in Hx, Hv.
        congruence.
  - intros c Hc'. rewrite Hsccs in Hc'.
    assert (c ∈ sccs s ∨ c = ext ++ [node]) as [Hold| ->].
    { case_decide; [by left|].
      apply elem_of_app in Hc' as [?|?%list_elem_of_singleton]; auto. }
    + destruct (t_sound _ Hs c Hold) as (? & ? & Hpop).
      split_and!; [done..|]. intros x Hx. apply Hpopped. left. by apply Hpop.
    + split_and!.
      * apply NoDup_app in Hnd as (Hnd1 & Hdisj & Hnd2).
        apply NoDup_app. split; [done|]. split; [|apply NoDup_singleton].
        intros x Hx ->%list_elem_of_singleton. apply (Hdisj node Hx). by left.
      * intros u v Hu Hv. trans node.
        -- apply elem_of_app in Hu as [Hu|Hu%list_elem_of_singleton];
             [by apply Hto|by subst].
        -- apply elem_of_app in Hv as [Hv|Hv%list_elem_of_singleton];
             [by apply Hfrom|by subst].
      * intros x Hx. apply Hpopped. by right.
  - intros i j c c' x Hi Hj Hx Hx'. rewrite Hsccs in Hi, Hj.
    assert (∀ k d, sccs s !! k = Some d → x ∈ d → x ∉ ext ++ [node]) as Hold.
    { intros k d Hk Hd Hnew.
      destruct (t_sound _ Hs d) as (_ & _ & Hpop); [by eapply list_elem_of_lookup_2|].
      destruct (Hpop x Hd) as [_ Hoff]. by apply Hoff, Hin_stack. }
    case_decide; [by eapply (t_disjoint _ Hs)|].
    apply lookup_app_Some in Hi as [Hi|[Hi Hi']];
      apply lookup_app_Some in Hj as [Hj|[Hj Hj']].
    + by eapply (t_disjoint _ Hs).
    + apply list_lookup_singleton_Some in Hj' as [_ <-].
      by destruct (Hold i c Hi Hx).
    + apply list_lookup_singleton_Some in Hi' as [_ <-].
      by destruct (Hold j c' Hj Hx').
    + apply list_lookup_singleton_Some in Hi' as [? _].
      apply list_lookup_singleton_Some in Hj' as [? _]. lia.
Qed.

Lemma segment_later node s s' ext low low' :
  segment node s ext →
  lowlinks s !! node = Some low → lowlinks s' !! node = Some low' → low' ≤ low →
  (∀ y, y ∈ ext → lowlinks s' !! y = lowlinks s !! y) →
  (∀ x, popped s x → popped s' x) →
  (∀ x, x ∈ stack s → x ∈ stack s') →
  (∀ x i, index s !! x = Some i → index s' !! x = Some i) →
  segment node s' ext.
Proof.
  intros [Hfrom Hto Hlow Hedges] Hl Hl' Hle Hsame Hpop Hstack Hidx.
  split; [done|done|..].
  - intros y l low0 Hy Hly Hlnode. rewrite Hsame in Hly by done.
    assert (low0 = low') as -> by congruence.
    pose proof (Hlow y l low Hy Hly Hl). lia.
  - intros y v Hy Hcall. apply (settled_later s); auto.
    intros l Hly. exists l. rewrite Hsame by done. split; [done|lia].
Qed.

Lemma segment_app node s ext1 ext2 :
  segment node s ext1 → segment node s ext2 → segment node s (ext1 ++ ext2).
Proof.
  intros [Hfrom1 Hto1 Hlow1 Hedges1] [Hfrom2 Hto2 Hlow2 Hedges2]. split.
  - intros y [?|?]%elem_of_app; auto.
  - intros y [?|?]%elem_of_app; auto.
  - intros y l low [?|?]%elem_of_app; eauto.
  - intros y v [?|?]%elem_of_app; auto.
Qed.

(** One turn of the loop of [strongconnect node]. *)
Lemma visit_exploring fuel node st handled s v s' :
  (∀ node st st',
     strongconnect fuel g node st = Ok st' →
     consistent known st → index st !! node = None → node ∈ known →
     (unindexed known st ≤ fuel)%nat →
     tidy st → (∀ x, x ∈ stack st → rtc (calls_to g) x node) →
     explored node st st') →
  consistent known st → index st !! node = None → node ∈ known →
  (unindexed known st ≤ S fuel)%nat →
  (∀ x, x ∈ stack st → rtc (calls_to g) x node) →
  in_loop known node st s → exploring node st handled s →
  calls_to g node v →
  visit (strongconnect fuel g) node s v = Ok s' →
  exploring node st (handled ++ [v]) s'.
Proof.
  intros IH Hst Hnew Hnode Hfuel Hreach Hloop Hx Hcall Hvisit.
  pose proof Hloop as [Hc He Hidx (ext0 & Hstack0 & Hext0)].
  destruct Hx as [Htidy Habove (ext & Hstack & Hseg) (z & low & Hz & Hlow & Hiz & Hnz)
                    Hhandled].
  assert (ext0 = ext) as ->.
  { apply (app_inv_tail (node :: stack st)). congruence. }
  assert (∀ x i, x ∈ ext → index s !! x = Some i → index_counter st ≤ i) as Hhigh.
  { intros x i Hx Hi. apply (Habove x); auto. }
  assert (∀ x i, x ∈ stack st → index s !! x = Some i → i < index_counter st)
    as Hbelow.
  { intros x i Hx Hi. destruct (c_stack_indexed _ _ Hst x Hx) as [i0 Hi0].
    pose proof (e_index _ _ He _ _ Hi0). pose proof (c_counter _ _ Hst _ _ Hi0).
    simplify_eq. done. }
  pose proof (c_low_le _ _ Hc node _ _ Hidx Hlow) as Hlow_le.
  pose proof (c_counter _ _ Hc _ _ Hidx) as Hcounter.
  pose proof (c_nodup _ _ Hc) as Hnd. rewrite Hstack in Hnd.
  assert (∀ y, y ∈ ext → y ≠ node) as Hext_ne.
  { intros y Hy ->. apply NoDup_app in Hnd as (_ & Hdisj & _).
    apply (Hdisj node Hy). by left. }
  assert (∀ x, x ∈ stack s → rtc (calls_to g) x node) as Hto_node.
  { intros x. rewrite Hstack. intros [Hx|[->|Hx]%elem_of_cons]%elem_of_app;
      [by apply (seg_to _ _ _ Hseg)|done|by apply Hreach]. }
  assert (∀ z' i, z' ∈ stack s → index s !! z' = Some i → i < low →
                  z' ∈ node :: stack st) as Hdeeper.
  { intros z' i Hz' Hi Hlt. rewrite Hstack in Hz'.
    apply elem_of_app in Hz' as [Hz'|Hz']; [|done].
    pose proof (Hhigh z' i Hz' Hi). lia. }
  destruct (visit_cases _ _ _ _ _ Hvisit)
    as [s1 low1 low' Hwhite Hrec Hl Hl' ->|low0 idx Hidx_v Hos Hl ->
       |idx Hidx_v Hos ->].
  - (* a call of [strongconnect v] *)
    assert (v ∈ known) as Hv by by eapply targets_known.
    pose proof (in_loop_fuel known fuel node st s Hnew Hnode Hfuel Hloop) as Hfuel'.
    pose proof (strongconnect_returned g known targets_known fuel v s s1 Hrec Hc
                  Hwhite Hv Hfuel')
      as [Hc1 He1 Hidx1 (ext1 & Hstack1 & Hext1)].
    destruct (IH v s s1 Hrec Hc Hwhite Hv Hfuel' Htidy) as [Htidy1 Habove1 Hout].
    { intros x Hx. eapply rtc_r; [by apply Hto_node|done]. }
    rewrite (e_lowlinks _ _ He1) in Hl by eauto.
    assert (low1 = low) as -> by congruence.
    assert (∀ x, popped s x → popped s1 x) as Hpop1.
    { intros x. apply popped_later; [done|]. intros y. rewrite Hstack1.
      intros [?|?]%elem_of_app; auto. }
    assert (∀ x, x ∈ stack s → x ∈ stack s1) as Hstack_sub.
    { intros x Hx. rewrite Hstack1. apply elem_of_app. by right. }
    assert (∀ y, y ∈ ext → lowlinks (set_lowlink node (low `min` low') s1) !! y
                           = lowlinks s !! y) as Hsame.
    { intros y Hy. cbn. rewrite lookup_insert_ne by (apply not_eq_sym; auto).
      apply (e_lowlinks _ _ He1), (c_stack_indexed _ _ Hc).
      rewrite Hstack. set_solver. }
    assert (segment node (set_lowlink node (low `min` low') s1) ext) as Hseg'.
    { apply (segment_later node s _ ext low (low `min` low')); try done.
      - cbn. apply lookup_insert_eq.
      - lia.
      - apply (e_index _ _ He1). }
    assert (∀ w, w ∈ handled →
                 settled (set_lowlink node (low `min` low') s1) node w) as Hhandled'.
    { intros w Hw. apply (settled_later s); auto.
      - apply (e_index _ _ He1).
      - intros l Hl0. exists (low `min` low'). cbn. rewrite lookup_insert_eq.
        split; [done|]. simplify_eq. lia. }
    split.
    + by apply tidy_set_lowlink.
    + intros x i Hx Hi. cbn in Hi. destruct (index s !! x) as [i0|] eqn:Hi0.
      * pose proof (e_index _ _ He1 _ _ Hi0). simplify_eq. by apply (Habove x).
      * pose proof (Habove1 x i Hi0 Hi). pose proof (e_counter _ _ He). lia.
    + destruct Hout as [[Hst1 Hlv]|(ext_c & z' & lowc & Hst1 & Hseg_c & Hedges_c
                                     & Hz' & Hlv & Hiz' & Hvz')].
      * exists ext. split; [cbn; congruence|done].
      * exists ((ext_c ++ [v]) ++ ext). split.
        { cbn. rewrite Hst1, Hstack, <- !app_assoc. done. }
        assert (low' = lowc) as -> by congruence.
        assert (v ≠ node) as Hvn by congruence.
        assert (∀ y, y ∈ ext_c → y ≠ node) as Hc_ne.
        { intros y Hy ->. pose proof (c_nodup _ _ Hc1) as Hnd1.
          rewrite Hst1, Hstack in Hnd1.
          apply NoDup_app in Hnd1 as (_ & Hdisj & _). apply (Hdisj node Hy).
          set_solver. }
        apply segment_app; [|done]. destruct Hseg_c as [Hfrom_c Hto_c Hlow_c Hed_c].
        split.
        -- intros y [Hy|Hy%list_elem_of_singleton]%elem_of_app.
           ++ eapply rtc_l; [done|]. by apply Hfrom_c.
           ++ subst. by apply rtc_once.
        -- intros y Hy. trans v.
           { apply elem_of_app in Hy as [Hy|Hy%list_elem_of_singleton];
               [by apply Hto_c|by subst]. }
           trans z'; [done|]. by apply Hto_node.
        -- intros y l low0 Hy Hly Hln. cbn in Hly, Hln.
           rewrite lookup_insert_eq in Hln. injection Hln as <-.
           apply elem_of_app in Hy as [Hy|Hy%list_elem_of_singleton].
           ++ rewrite lookup_insert_ne in Hly by (apply not_eq_sym; auto).
              pose proof (Hlow_c y l lowc Hy Hly Hlv). lia.
           ++ subst y. rewrite lookup_insert_ne in Hly by done.
              assert (l = lowc) as -> by congruence. lia.
        -- intros y w Hy Hyw.
           assert (settled s1 y w ∧ y ≠ node) as [Hsettled Hyn].
           { apply elem_of_app in Hy as [Hy|Hy%list_elem_of_singleton].
             - split; [by apply Hed_c|auto].
             - subst. split; [by apply Hedges_c|done]. }
           apply (settled_later s1); auto. intros l Hly. exists l. cbn.
           rewrite lookup_insert_ne by done. split; [done|lia].
    + destruct Hout as [[Hst1 Hlv]|(ext_c & z' & lowc & Hst1 & Hseg_c & Hedges_c
                                     & Hz' & Hlv & Hiz' & Hvz')].
      * exists z, low. assert (low' = index_counter s) as -> by congruence.
        rewrite Z.min_l by lia. split; [done|]. cbn. rewrite lookup_insert_eq.
        split; [done|]. split; [by apply (e_index _ _ He1)|done].
      * assert (low' = lowc) as -> by congruence.
        destruct (decide (lowc < low)) as [Hlt|Hge].
        -- exists z', lowc. rewrite Z.min_r by lia. cbn. rewrite lookup_insert_eq.
           split_and!; [|done|done|].
           ++ destruct (c_stack_indexed _ _ Hc z' Hz') as [i Hi].
              pose proof (e_index _ _ He1 _ _ Hi). simplify_eq.
              by apply (Hdeeper z' lowc).
           ++ by eapply rtc_l.
        -- exists z, low. rewrite Z.min_l by lia. cbn. rewrite lookup_insert_eq.
           split; [done|]. split; [done|]. split; [by apply (e_index _ _ He1)|done].
    + intros w [Hw|Hw%list_elem_of_singleton]%elem_of_app; [by apply Hhandled'|].
      subst w. destruct Hout as [[Hst1 Hlv]|(ext_c & z' & lowc & Hst1 & _ & _
                                             & _ & Hlv & _)].
      * left. split; [by eexists|]. cbn. rewrite Hst1. intros Hin.
        apply (c_stack_indexed _ _ Hc) in Hin as [? ?]. congruence.
      * right. split; [cbn; rewrite Hst1; set_solver|].
        exists (low `min` low'), (index_counter s). cbn. rewrite lookup_insert_eq.
        split; [done|]. split; [done|]. lia.
  - (* an edge to a function on the stack *)
    assert (low0 = low) as -> by congruence.
    apply (c_on_stack _ _ Hc) in Hos.
    assert (segment node (set_lowlink node (low `min` idx) s) ext) as Hseg'.
    { apply (segment_later node s _ ext low (low `min` idx)); try done.
      - cbn. apply lookup_insert_eq.
      - lia.
      - intros y Hy. cbn. by rewrite lookup_insert_ne by (apply not_eq_sym; auto). }
    split.
    + by apply tidy_set_lowlink.
    + done.
    + by exists ext.
    + destruct (decide (idx < low)) as [Hlt|Hge].
      * exists v, idx. rewrite Z.min_r by lia. cbn. rewrite lookup_insert_eq.
        split_and!; [by apply (Hdeeper v idx)|done|done|by apply rtc_once].
      * exists z, low. rewrite Z.min_l by lia. cbn. by rewrite lookup_insert_eq.
    + intros w [Hw|Hw%list_elem_of_singleton]%elem_of_app.
      * apply (settled_later s); auto. intros l Hl0. exists (low `min` idx).
        cbn. rewrite lookup_insert_eq. split; [done|]. simplify_eq. lia.
      * subst w. right. split; [done|]. exists (low `min` idx), idx. cbn.
        rewrite lookup_insert_eq. split; [done|]. split; [done|]. lia.
  - (* an edge to a popped function *)
    split; try done; [by exists ext|by exists z, low|].
    intros w [Hw|Hw%list_elem_of_singleton]%elem_of_app; [auto|].
    subst w. left. split; [by eexists|]. intros Hin.
    apply (c_on_stack _ _ Hc) in Hin. congruence.
Qed.

Lemma popped_enter node st x :
  index st !! node = None → popped (enter node st) x ↔ popped st x.
Proof.
  intros Hnew. unfold popped. cbn. rewrite lookup_insert_is_Some, not_elem_of_cons.
  split.
  - intros [[->|[_ Hi]] [Hne Hoff]]; done.
  - intros [Hi Hoff]. assert (x ≠ node).
    { intros ->. destruct Hi as [? ?]. congruence. }
    split; [right|]; auto.
Qed.

Lemma tidy_enter node st :
  index st !! node = None → tidy st → tidy (enter node st).
Proof.
  intros Hnew [Hclosed Hreported Hsound Hdisjoint]. split; cbn.
  - intros x v Hx%popped_enter; [|done]. rewrite popped_enter by done. eauto.
  - intros x v Hx%popped_enter; [|done]. eauto.
  - intros c Hc. destruct (Hsound c Hc) as (? & ? & Hpop). split_and!; [done..|].
    intros x Hx. apply popped_enter; auto.
  - done.
Qed.

Lemma exploring_enter node st :
  index st !! node = None → tidy st → exploring node st [] (enter node st).
Proof.
  intros Hnew Htidy. split.
  - by apply tidy_enter.
  - intros x i Hx. cbn. rewrite lookup_insert_Some.
    intros [[_ <-]|[_ Hi]]; [done|congruence].
  - exists []. split; [done|]. split.
    + by intros y ?%elem_of_nil.
    + by intros y ?%elem_of_nil.
    + by intros y l low ?%elem_of_nil.
    + by intros y v ?%elem_of_nil.
  - exists node, (index_counter st). cbn. rewrite !lookup_insert_eq.
    split_and!; [by left|done..].
  - by intros v ?%elem_of_nil.
Qed.

Lemma strongconnect_explored fuel node st st' :
  strongconnect fuel g node st = Ok st' →
  consistent known st → index st !! node = None → node ∈ known →
  (unindexed known st ≤ fuel)%nat →
  tidy st → (∀ x, x ∈ stack st → rtc (calls_to g) x node) →
  explored node st st'.
Proof.
  revert node st st'.
  induction fuel as [|fuel IH];
    intros node st st' Hcall Hst Hnew Hnode Hfuel Htidy Hreach; [done|].
  rewrite strongconnect_unfold in Hcall.
  apply bind_Ok in Hcall as (s & Hloop & Hleave).
  set (P := λ handled s,
         in_loop known node st s ∧ exploring node st handled s).
  assert (P (graph_get g node) s) as [Hs Hx].
  { apply (for_each_prefix_invariant P _ _ _ _ Hloop).
    - split; [by apply in_loop_enter|by apply exploring_enter].
    - intros handled v s0 s1 Hv [Hs0 Hx0] Hvisit. split.
      + by apply (visit_in_loop_inv g known targets_known fuel node st s0 v s1).
      + by apply (visit_exploring fuel node st handled s0 v s1). }
  pose proof Hs as [Hc He Hidx _].
  destruct Hx as [Htidy_s Habove (ext & Hstack & Hseg)
                    (z & low & Hz & Hlow & Hiz & Hnz) Hhandled].
  destruct (leave_spec g known targets_known node st s ext Hs Hnew Hstack)
    as (low0 & s' & Hlow0 & Hleave' & Hc' & He' & Hi' & Hl' & Hcase).
  assert (s' = st') as -> by congruence.
  assert (low0 = low) as -> by congruence.
  destruct (decide (low = index_counter st)) as [->|Hne].
  - destruct Hcase as [Hstack' Hsccs]. split.
    + apply (pop_tidy node st s st' ext); try done.
      intros x i Hx Hi. destruct (c_stack_indexed _ _ Hst x Hx) as [i0 Hi0].
      pose proof (e_index _ _ He _ _ Hi0). pose proof (c_counter _ _ Hst _ _ Hi0).
      simplify_eq. done.
    + intros x i Hx. rewrite Hi'. by apply Habove.
    + left. split; [done|]. by rewrite Hl'.
  - subst st'. split; [done|done|]. right. exists ext, z, low.
    split_and!; try done. apply elem_of_cons in Hz as [->|Hz]; [|done].
    congruence.
Qed.

Lemma tidy_init : tidy tarjan_init.
Proof.
  split; unfold popped; cbn.
  - intros x v [[? Hx] _]. by rewrite lookup_empty in Hx.
  - intros x v [[? Hx] _]. by rewrite lookup_empty in Hx.
  - by intros c ?%elem_of_nil.
  - intros i j c c' x Hi. by rewrite lookup_nil in Hi.
Qed.

(** The loop of [detect_cycles]: between two of its turns the stack is
    empty. *)
Lemma roots_explored fuel order st :
  (size known ≤ fuel)%nat → (∀ x, x ∈ order → x ∈ known) →
  for_each (visit_root g fuel) order tarjan_init = Ok st →
  tidy st ∧ stack st = [] ∧ ∀ x, x ∈ order → is_Some (index st !! x).
Proof.
  intros Hfuel Horder Hloop.
  set (P := λ (handled : list string) s,
         consistent known s ∧ tidy s ∧ stack s = []
         ∧ ∀ x, x ∈ handled → is_Some (index s !! x)).
  assert (P order st) as (_ & ? & ? & ?); [|done].
  apply (for_each_prefix_invariant P _ _ _ _ Hloop).
  - split; [apply consistent_init|]. split; [apply tidy_init|].
    split; [done|]. by intros x ?%elem_of_nil.
  - intros handled node s s' Hnode (Hs & Htidy & Hstack & Hhandled) Hvisit.
    destruct (visit_root_consistent g known targets_known fuel s node s' Hfuel
                (Horder _ Hnode) Hvisit Hs) as (Hs' & He & Hidx).
    split; [done|].
    assert (∀ x, x ∈ handled ++ [node] → is_Some (index s' !! x)) as Hall.
    { intros x [Hx|Hx%list_elem_of_singleton]%elem_of_app; [|by subst].
      destruct (Hhandled x Hx) as [i Hi]. exists i. by apply (e_index _ _ He). }
    unfold visit_root in Hvisit. case_decide as Hnew; [|by simplify_eq].
    pose proof (unindexed_le_known g known targets_known s).
    destruct (strongconnect_explored fuel node s s' Hvisit Hs Hnew)
      as [Htidy' _ [[Hstack' _]|(ext & z & low & _ & _ & _ & Hz & _)]];
      [by apply Horder|lia|done| |by split; [|split; [congruence|]]|].
    + rewrite Hstack. by intros x ?%elem_of_nil.
    + rewrite Hstack in Hz. by apply elem_of_nil in Hz.
Qed.

End TarjanComponents.

(** With enough frames [detect_cycles] returns the strongly connected
    components of two or more functions. *)
Lemma detect_cycles_explored b frames order :
  well_formed_builder b → enumerates order b →
  (length order ≤ frames)%nat →
  ∃ cycles,
    CallGraphBuilder.detect_cycles frames order b = Ok cycles
    ∧ (∀ u v, (u ≠ v ∧ ∃ c, c ∈ cycles ∧ u ∈ c ∧ v ∈ c)
              ↔ mutual (CallGraphBuilder.graph b) u v)
    ∧ (∀ c, c ∈ cycles →
         NoDup c ∧ (2 ≤ length c)%nat
         ∧ ∀ x, x ∈ c → x ∈ CallGraphBuilder.functions b)
    ∧ ∀ i j c c' x,
        cycles !! i = Some c → cycles !! j = Some c' → x ∈ c → x ∈ c' → i = j.
Proof.
  intros [Hkeys Hfun] Horder Hframes.
  set (g := CallGraphBuilder.graph b).
  set (known := CallGraphBuilder.functions b).
  assert (∀ u v, calls_to g u v → v ∈ known) as Htargets.
  { intros u v Huv. by apply (Hfun u v). }
  assert (size known ≤ frames)%nat as Hfuel.
  { rewrite (enumerates_length order b Horder) in Hframes. by unfold known. }
  assert (∀ x, x ∈ order → x ∈ known) as Hin.
  { intros x. apply Horder. }
  destruct (roots_return g known Htargets frames order Hfuel Hin)
    as (st & Hloop & Hst).
  destruct (roots_explored g known Htargets _ order st Hfuel Hin Hloop)
    as ([Hclosed Hreported Hsound Hdisjoint] & Hstack & Hindexed).
  exists (CallGraphBuilder.sccs st). rewrite detect_cycles_unfold.
  fold g. rewrite Hloop. split; [done|]. split_and!.
  - intros u v. split.
    + intros (Hne & c & Hc & Hu & Hv). destruct (Hsound c Hc) as (_ & Hreach & _).
      split; [done|]. split; by apply Hreach.
    + intros (Hne & Huv & Hvu). split; [done|].
      apply Hreported; try done. split.
      * apply Hindexed, Horder. destruct Huv as [|u w v Hcall _]; [done|].
        by apply (Hfun u w).
      * rewrite Hstack. by intros ?%elem_of_nil.
  - intros c Hc. destruct (Hsound c Hc) as (Hnd & _ & Hpop).
    split; [done|]. split.
    + pose proof (c_sccs _ _ Hst) as Hsizes. rewrite Forall_forall in Hsizes.
      by apply Hsizes.
    + intros x Hx. destruct (Hpop x Hx) as [Hi _]. by apply (c_known _ _ Hst).
  - done.
Qed.

(** X23.  [detect_cycles] returns when the interpreter admits as many
    nested calls as there are known functions; with fewer frames it
    returns or raises [RecursionError].  Whenever it returns, it returns
    the strongly connected components of two or more functions.  Two
    different functions are together in a returned component exactly
    when each can reach the other through calls.  A component lists
    known functions, none twice, and no function is in two of the
    returned components. *)
Theorem detect_cycles_strongly_connected frames calls order :
  let b := build calls in
  let g := CallGraphBuilder.graph b in
  enumerates order b →
  ((size (CallGraphBuilder.functions b) ≤ frames)%nat →
     ∃ cycles, CallGraphBuilder.detect_cycles frames order b = Ok cycles)
  ∧ (∀ e, CallGraphBuilder.detect_cycles frames order b = Raise e →
          e = RecursionError)
  ∧ ∀ cycles,
      CallGraphBuilder.detect_cycles frames order b = Ok cycles →
      (∀ u v, (u ≠ v ∧ ∃ c, c ∈ cycles ∧ u ∈ c ∧ v ∈ c) ↔ mutual g u v)
      ∧ (∀ c, c ∈ cycles →
           NoDup c ∧ (2 ≤ length c)%nat
           ∧ ∀ x, x ∈ c → x ∈ CallGraphBuilder.functions b)
      ∧ ∀ i j c c' x,
          cycles !! i = Some c → cycles !! j = Some c' → x ∈ c → x ∈ c' →
          i = j.
Proof.
  intros b g Horder.
  pose proof (build_well_formed calls) as Hwf. fold b in Hwf.
  split_and!.
  - intros Hframes.
    destruct (detect_cycles_explored b frames order Hwf Horder)
      as (cycles & Hdetect & _); [|by exists cycles].
    by rewrite (enumerates_length order b Horder).
  - intros e. by apply detect_cycles_raises.
  - intros cycles Hdetect.
    destruct (detect_cycles_explored b (frames `max` length order) order
                Hwf Horder) as (enough & Henough & Hcomponents); [lia|].
    apply (detect_cycles_more_frames _ (frames `max` length order))
      in Hdetect; [|lia].
    by assert (cycles = enough) as -> by congruence.
Qed.

Lemma detect_cycles_strongly_connected_witness :
  enumerates ["A"; "B"; "C"; "D"] (build triangle_with_tail)
  ∧ ∃ cycles,
      CallGraphBuilder.detect_cycles 4 ["A"; "B"; "C"; "D"]
        (build triangle_with_tail) = Ok cycles
      ∧ ∀ c, c ∈ cycles → NoDup c.
Proof.
  assert (enumerates ["A"; "B"; "C"; "D"] (build triangle_with_tail))
    as Horder.
  { split.
    - apply (bool_decide_unpack _). by vm_compute.
    - intros f. cbn. rewrite !elem_of_cons, elem_of_nil. set_solver. }
  split; [done|].
  destruct (detect_cycles_strongly_connected 4 triangle_with_tail _ Horder)
    as (Hreturns & _ & Hcomponents).
  destruct Hreturns as (cycles & Hdetect); [by vm_compute|].
  exists cycles. split; [done|]. intros c Hc.
  by apply (Hcomponents cycles Hdetect).
Defined.
